(** * Ludwig extension: 2D vector feature preprocessing and SCARF pretraining

    A shallow embedding of
      - [ludwig/features/vector2d_feature.py] (classes [Vector2DFeatureMixin]
        and [Vector2DOutputFeature]),
      - [ludwig/models/pretrainer.py] (classes [SimCLR_Loss], [ScarfModel]),
    together with the properties the specification states about them.

    Conventions.
      - Python [int]s are [Z]; lengths and positions of sequences are [nat].
      - A function that may raise returns a [result]; a function that also
        writes warnings returns [M A], a log paired with a [result].
        Only records at warning level ([warnings.warn], [logger.warning]) are
        kept; [logger.info] and [logger.debug] calls leave no trace here.
      - A decoded image is a rank-3 tensor laid out [channels, height, width],
        as the docstrings of the source require, held as nested lists.
      - Floating point operations of numpy and torch are not interpreted: the
        float32 type and the operations on it are parameters of the sections
        that need them.
      - A Python [float] is an IEEE 754 binary64 value, a [spec_float] of
        the standard library at precision 53; its operations round to
        nearest, ties to even. *)

From Stdlib Require Import ZArith QArith Qround Qpower Bool String Permutation.
From Stdlib Require SpecFloat.
From stdpp Require Import base list strings sorting gmap.
Import ListNotations.

#[local] Open Scope Z_scope.
#[local] Open Scope list_scope.

(* ===================================================================== *)
(** ** Python results: exceptions and the warning log *)
(* ===================================================================== *)

Module Py.

(** The messages of the exceptions the embedded code raises itself, and the
    failures of the library calls it makes. *)
Inductive message : Type :=
  | ChannelsUnlikeFirstImage      (* "Image has {} channels, unlike the first image ..." *)
  | ImagesNotSameSize             (* "Images are not of the same size. ..." *)
  | DimensionsCannotBeInferred    (* "Images dimensions cannot be inferred. ..." *)
  | HeightWidthNotPositive        (* "Image height and width must be positive integers" *)
  | HeightWidthUnknown            (* "Explicit image width/height are not set, ..." *)
  | NumChannelsUnknown            (* "Explicit image num channels is not set, ..." *)
  | MaxOfEmptySequence            (* max() arg is an empty sequence *)
  | NegativeDimensions            (* numpy, h5py: negative dimensions are not allowed *)
  | IntOfNone                     (* int() argument must be ... not 'NoneType' *)
  | JoinExpectedStr               (* sequence item: expected str instance *)
  | CannotBroadcast               (* h5py: Can't broadcast (...) -> (...) *)
  | ShapeInvalidForInput          (* torch: shape '[...]' is invalid for input of size n *)
  | UnspecifiedDimensionAmbiguous (* torch: cannot reshape tensor of 0 elements ... *)
  | MaskShapeMismatch             (* torch: the shape of the mask does not match ... *)
  | SizesOfTensorsMustMatch       (* torch.cat: sizes of tensors must match *)
  | IndexOutOfRange               (* h5py: index out of range *)
  | NoFeatures                    (* numpy: an array dimension that is None *)
  | IntTooLargeForFloat           (* int too large to convert to float *)
  | CannotConvertInfinity         (* cannot convert float infinity to integer *)
  | CannotConvertNaN.             (* cannot convert float NaN to integer *)

Inductive exn : Type :=
  | AssertionError
  | ValueError (m : message)
  | TypeError (m : message)
  | IndexError (m : message)
  | RuntimeError (m : message)
  | OverflowError (m : message)
  | ZeroDivisionError.

Inductive result (A : Type) : Type :=
  | Return (a : A)
  | Raise (e : exn).
Arguments Return {A} a.
Arguments Raise {A} e.

Definition is_return {A} (r : result A) : bool :=
  match r with Return _ => true | Raise _ => false end.

#[export] Instance result_ret : MRet result := @Return.
#[export] Instance result_bind : MBind result := fun A B f r =>
  match r with
  | Return a => f a
  | Raise e => Raise e
  end.

(** Records the code hands to [warnings.warn] or [logger.warning]. *)
Inductive warning : Type :=
  | ImageCannotBeRead             (* "Image with value {img} cannot be read" *)
  | ChannelsPaddedOrDropped (actual expected : Z)
                                  (* "Image has {} channels, where as {} channels are expected. ..." *)
  | StandardizeOnlyFor3Channels (num_channels : Z)
                                  (* "'standardize_image=imagenet1k' is defined only for ..." *)
  | UsingTorchvisionTransforms    (* "Using the transforms specified for the torchvision model ..." *)
  | FailedToReadImage (row : nat) (* "Failed to read image {img_entry} while preprocessing ..." *)
  | FailedToReadImages (n : nat). (* "Failed to read {n} images while preprocessing ..." *)

(** A computation that logs warnings and then returns or raises. *)
Definition M (A : Type) : Type := list warning * result A.

Definition warn (w : warning) : M unit := ([w], Return tt).
Definition raise {A} (e : exn) : M A := ([], Raise e).
Definition lift {A} (r : result A) : M A := ([], r).

#[export] Instance M_ret : MRet M := fun A a => ([], Return a).
#[export] Instance M_bind : MBind M := fun A B f m =>
  match m with
  | (l, Return a) => let '(l', r) := f a in (l ++ l', r)
  | (l, Raise e) => (l, Raise e)
  end.

Definition log_of {A} (m : M A) : list warning := fst m.
Definition outcome {A} (m : M A) : result A := snd m.

(** [for x in xs: body x] where the body may warn or raise: the first
    exception ends the loop. *)
Fixpoint for_each {A B} (body : A → M B) (xs : list A) : M (list B) :=
  match xs with
  | [] => mret []
  | x :: xs' => b ← body x; bs ← for_each body xs'; mret (b :: bs)
  end.

(** Python's [round] on the quotient of two integers, [round(s / n)] for
    [0 < n]: the nearest integer, a tie going to the even neighbour.  The
    quotient is taken exactly; the double that [s / n] produces rounds the
    same way as long as [s] and [n] stay far below 2^51, which sizes of
    images do. *)
Definition round_div (s n : Z) : Z :=
  let q := s / n in
  let r := s mod n in
  if 2 * r <? n then q
  else if n <? 2 * r then q + 1
  else if Z.even q then q else q + 1.

(** Truthiness of an optional integer (a key that is [None] or [0] is falsy). *)
Definition truthy (v : option Z) : bool :=
  match v with
  | Some z => negb (z =? 0)
  | None => false
  end.

(** The number of positions the slice [:stop] selects on an axis of extent
    [len]: a negative [stop] counts from the end, and the slice is clipped to
    the axis. *)
Definition slice_stop (stop : Z) (len : nat) : nat :=
  Z.to_nat (Z.min (if stop <? 0 then Z.max 0 (stop + Z.of_nat len) else stop) (Z.of_nat len)).

End Py.

(* ===================================================================== *)
(** ** Python floats *)
(* ===================================================================== *)

Module Float.
Import Py.

Definition prec : Z := 53.
Definition emax : Z := 1024.

(** A double: a signed zero, a signed infinity, a NaN, or
    [(-1)^s * m * 2^e]. *)
Definition t : Type := SpecFloat.spec_float.

Definition is_finite (x : t) : bool :=
  match x with
  | SpecFloat.S754_zero _ | SpecFloat.S754_finite _ _ _ => true
  | _ => false
  end.

(** The number a finite double stands for. *)
Definition value (x : t) : Q :=
  match x with
  | SpecFloat.S754_finite s m e => inject_Z (SpecFloat.cond_Zopp s (Z.pos m)) * 2 ^ e
  | _ => 0
  end.

(** The conversion of an [int] operand of a float operation: the nearest
    double, or [OverflowError] beyond the largest one. *)
Definition of_int (n : Z) : result t :=
  match SpecFloat.binary_normalize prec emax n 0 false with
  | SpecFloat.S754_infinity _ => Raise (OverflowError IntTooLargeForFloat)
  | x => Return x
  end.

(** [x * y] on floats. *)
Definition mul (x y : t) : t := SpecFloat.SFmul prec emax x y.

(** [math.floor(x)]. *)
Definition floor (x : t) : result Z :=
  match x with
  | SpecFloat.S754_zero _ => Return 0
  | SpecFloat.S754_finite s m e => Return (Z.shiftl (SpecFloat.cond_Zopp s (Z.pos m)) e)
  | SpecFloat.S754_infinity _ => Raise (OverflowError CannotConvertInfinity)
  | SpecFloat.S754_nan => Raise (ValueError CannotConvertNaN)
  end.

End Float.
Import Py.

(* ===================================================================== *)
(** ** Tensors *)
(* ===================================================================== *)

Module Tensor.

(** A rank-3 array, outermost axis first. *)
Abbreviation t A := (list (list (list A))).

Definition shape0 {A} (x : t A) : nat := length x.
Definition shape1 {A} (x : t A) : nat := length (hd [] x).
Definition shape2 {A} (x : t A) : nat := length (hd [] (hd [] x)).
Definition shape {A} (x : t A) : nat * nat * nat := (shape0 x, shape1 x, shape2 x).

(** [np.full((c, h, w), v)] and [torch.zeros]. *)
Definition full {A} (c h w : nat) (v : A) : t A := replicate c (replicate h (replicate w v)).

(** Every channel has [h] rows and every row [w] entries. *)
Definition has_shape {A} (c h w : nat) (x : t A) : Prop :=
  length x = c ∧ Forall (λ ch, length ch = h ∧ Forall (λ row, length row = w) ch) x.

(** [x.permute(2, 0, 1)]: from [height, width, channels] to
    [channels, height, width]. *)
Definition permute_2_0_1 (x : t Z) : t Z :=
  (λ c, (λ row : list (list Z), (λ px : list Z, nth c px 0) <$> row) <$> x) <$> seq 0 (shape2 x).

(** [torch.nn.functional.pad(img, [0, 0, 0, 0, 0, extra])]: no padding on the
    last two axes, [extra] planes of zeros appended on the first. *)
Definition pad_channels (img : t Z) (extra : nat) : t Z :=
  img ++ replicate extra (replicate (shape1 img) (replicate (shape2 img) 0)).

Definition map {A B} (f : A → B) (x : t A) : t B :=
  fmap (M:=list) (fmap (M:=list) (fmap (M:=list) f)) x.

End Tensor.

Abbreviation tensor := (Tensor.t Z).

(** Modelled from the spec: [num_channels_in_image] of
    [ludwig.utils.image_utils], the "actual channel count" of a decoded
    image; for a tensor laid out [channels, height, width] that is the
    extent of its first axis. *)
Definition num_channels_in_image (img : tensor) : Z := Z.of_nat (Tensor.shape0 img).

(* ===================================================================== *)
(** ** An h5py dataset of rank 4 *)
(* ===================================================================== *)

Module H5.

(** A dataset of shape [(rows, channels, height, width)]: its extents and
    one rank-3 array per row. *)
Record dataset (A : Type) : Type := {
  shape : nat * nat * nat * nat;
  data : list (Tensor.t A)
}.
Arguments shape {A} d.
Arguments data {A} d.

(** [h5_file.create_dataset(name, (n, c, h, w), dtype)]: filled with zeros. *)
Definition create_dataset {A} (zero : A) (n : nat) (c h w : Z) : result (dataset A) :=
  if (c <? 0) || (h <? 0) || (w <? 0) then Raise (ValueError NegativeDimensions)
  else Return {| shape := (n, Z.to_nat c, Z.to_nat h, Z.to_nat w);
                 data := replicate n (Tensor.full (Z.to_nat c) (Z.to_nat h) (Z.to_nat w) zero) |}.

(** h5py's broadcasting rule for one axis: the extent of the value is that of
    the selection, or it is 1 and the value is repeated. *)
Definition fits (src count : nat) : bool := (src =? 1)%nat || (src =? count)%nat.

Definition stretch {A} (count : nat) (src : list A) : list A :=
  match src with
  | [x] => replicate count x
  | _ => src
  end.

(** Writes [src] over the first [count] positions of [dst], each position
    through [f]. *)
Definition assign_axis {A B} (count : nat) (f : B → A → A) (src : list B) (dst : list A) : list A :=
  zip_with f (stretch count src) (take count dst) ++ drop count dst.

(** [ds[i, :stop1, :stop2, :] = val] for a rank-3 [val].  An empty selection
    writes nothing; otherwise the shape of [val] has to fit the selection. *)
Definition setitem {A} (ds : dataset A) (i : nat) (stop1 stop2 : Z) (val : Tensor.t A)
  : result (dataset A) :=
  let '(n, c, h, w) := shape ds in
  if (n <=? i)%nat then Raise (IndexError IndexOutOfRange) else
  let count1 := slice_stop stop1 c in
  let count2 := slice_stop stop2 h in
  if (count1 * count2 * w =? 0)%nat then Return ds else
  if fits (Tensor.shape2 val) w && fits (Tensor.shape1 val) count2 && fits (Tensor.shape0 val) count1
  then Return {| shape := shape ds;
                 data := alter (assign_axis count1 (assign_axis count2 (assign_axis w (λ v _, v))) val)
                           i (data ds) |}
  else Raise (TypeError CannotBroadcast).

End H5.

(* ===================================================================== *)
(** ** [ludwig/features/vector2d_feature.py] *)
(* ===================================================================== *)

Module Vector2D.

(** A raw entry of the input column. *)
Inductive entry : Type :=
  | EBytes (b : list Byte.byte)   (* an encoded image *)
  | EStr (path : string)          (* a file path *)
  | ENdarray (a : tensor)         (* a numpy array, [height, width, channels] *)
  | ETensor (x : tensor)          (* a torch tensor, [channels, height, width] *)
  | EOther.                       (* None, NaN or any other object *)

Definition IMAGENET1K : string := "imagenet1k".

(** The keys of the preprocessing dictionary the code reads.  [None] stands
    for a key that is absent or holds [None]. *)
Record PreprocessingConfigDict : Type := {
  height : option Z;
  width : option Z;
  num_channels : option Z;
  infer_image_dimensions : bool;
  infer_image_sample_size : Z;
  infer_image_max_height : Z;
  infer_image_max_width : Z;
  requires_equal_dimensions : bool;
  standardize_image : option string;
  resize_method : string;
  in_memory : bool
}.

Definition set_width_height (p : PreprocessingConfigDict) (w h : Z) : PreprocessingConfigDict :=
  {| height := Some h; width := Some w; num_channels := num_channels p;
     infer_image_dimensions := infer_image_dimensions p;
     infer_image_sample_size := infer_image_sample_size p;
     infer_image_max_height := infer_image_max_height p;
     infer_image_max_width := infer_image_max_width p;
     requires_equal_dimensions := requires_equal_dimensions p;
     standardize_image := standardize_image p;
     resize_method := resize_method p;
     in_memory := in_memory p |}.

(** *** Size and channel inference (lines 231-332) *)

(** [_set_image_and_height_equal_for_encoder]: returns [(width, height)] and
    the dictionary, updated when both are set to the smaller one. *)
Definition _set_image_and_height_equal_for_encoder
    (width height : Z) (preprocessing_parameters : PreprocessingConfigDict)
  : Z * Z * PreprocessingConfigDict :=
  if requires_equal_dimensions preprocessing_parameters && negb (height =? width) then
    let m := Z.min width height in
    (m, m, set_width_height preprocessing_parameters m m)
  else (width, height, preprocessing_parameters).

(** The methods [_infer_image_size], [_finalize_preprocessing_parameters] and
    [add_feature_data] call their helpers through the class
    [ImageFeatureMixin] of [ludwig/features/image_feature.py], from which
    this file was derived and which is not among the sources at hand. *)

(** Modelled from the spec: [ImageFeatureMixin._set_image_and_height_equal_for_encoder];
    "if the downstream encoder requires equal dimensions, force both to
    [min(width, height)]", which is what the method of that name in this
    file does. *)
Definition ImageFeatureMixin_set_image_and_height_equal_for_encoder :=
  _set_image_and_height_equal_for_encoder.

Definition sum_Z (l : list Z) : Z := foldr Z.add 0 l.

(** [_infer_image_size]: returns [(height, width)] and the dictionary.  The
    two averages divide by [len(image_sample)]. *)
Definition _infer_image_size
    (image_sample : list tensor) (max_height max_width : Z)
    (preprocessing_parameters : PreprocessingConfigDict)
  : result (Z * Z * PreprocessingConfigDict) :=
  let n := Z.of_nat (length image_sample) in
  if n =? 0 then Raise ZeroDivisionError else
  let height := Z.min (round_div (sum_Z ((λ x, Z.of_nat (Tensor.shape1 x)) <$> image_sample)) n) max_height in
  let width := Z.min (round_div (sum_Z ((λ x, Z.of_nat (Tensor.shape2 x)) <$> image_sample)) n) max_width in
  let '(width, height, preprocessing_parameters) :=
    ImageFeatureMixin_set_image_and_height_equal_for_encoder
      width height preprocessing_parameters in
  Return (height, width, preprocessing_parameters).

(** [Counter(xs)[k]]: the number of occurrences of [k], zero when absent. *)
Definition Counter (xs : list Z) (k : Z) : nat := length (filter (λ x, x = k) xs).

(** [_infer_number_of_channels].  [count > n_images / 2] compares an integer
    with a true quotient, that is [n_images < 2 * count].  The [max] over the
    counter that picks the log message raises on an empty sample. *)
Definition _infer_number_of_channels (image_sample : list tensor) : result Z :=
  let n_images := length image_sample in
  let channel_frequency := Counter (num_channels_in_image <$> image_sample) in
  let num_channels :=
    if (n_images <? 2 * channel_frequency 1%Z)%nat then 1
    else if (n_images <? 2 * channel_frequency 2%Z)%nat then 2
    else if (n_images <? 2 * channel_frequency 4%Z)%nat then 4
    else 3 in
  match image_sample with
  | [] => Raise (ValueError MaxOfEmptySequence)
  | _ :: _ => Return num_channels
  end.

(** *** The per-row read functions (lines 105-229) *)

Section Preprocessing.

(** float32 and the collaborators of [ludwig.utils.image_utils] and
    torchvision. *)
Context {F : Type}.
Variable div255 : Z → F.   (* [x.type(torch.float32) / 255] on one entry *)
Variable read_image_from_bytes_obj : list Byte.byte → option Z → option tensor.
Variable read_image_from_path : string → option Z → option tensor * option Z.
Variable grayscale : tensor → tensor.
Variable resize_image : tensor → Z * Z → string → tensor.

(** Lines 138-145 and 214-221: what [img] holds before the [isinstance]
    test, [None] when it is not a tensor. *)
Definition decode (img_entry : entry) (num_channels : option Z) : option tensor :=
  match img_entry with
  | EBytes b => read_image_from_bytes_obj b num_channels
  | EStr path => fst (read_image_from_path path num_channels)
  | ENdarray a => Some (Tensor.permute_2_0_1 a)
  | ETensor x => Some x
  | EOther => None
  end.

(** Lines 164-189: channel reconciliation. *)
Definition reconcile_channels
    (user_specified_num_channels : bool) (num_channels img_num_channels : Z) (img : tensor)
  : M tensor :=
  if user_specified_num_channels then
    let img :=
      if img_num_channels <? num_channels
      then Tensor.pad_channels img (Z.to_nat (num_channels - img_num_channels))
      else img in
    if negb (img_num_channels =? num_channels)
    then warn (ChannelsPaddedOrDropped img_num_channels num_channels) ;; mret img
    else mret img
  else
    if negb (img_num_channels =? num_channels)
    then raise (ValueError ChannelsUnlikeFirstImage)
    else mret img.

Definition _read_image_if_bytes_obj_and_resize
    (img_entry : entry) (img_width img_height : Z) (should_resize : bool)
    (num_channels : Z) (resize_method : string)
    (user_specified_num_channels : bool) (standardize_image : option string)
  : M (option (Tensor.t F)) :=
  match decode img_entry (Some num_channels) with
  | None => warn ImageCannotBeRead ;; mret None
  | Some img =>
    let img_num_channels := num_channels_in_image img in
    if negb (img_num_channels =? 1) then raise AssertionError else
    (* Convert to grayscale if needed. *)
    let '(img, img_num_channels) :=
      if (num_channels =? 1) && negb (img_num_channels =? 1)
      then (grayscale img, 1) else (img, img_num_channels) in
    let img :=
      if should_resize then resize_image img (img_height, img_width) resize_method else img in
    img ← reconcile_channels user_specified_num_channels num_channels img_num_channels img;
    if negb (Z.of_nat (Tensor.shape1 img) =? img_height)
       || negb (Z.of_nat (Tensor.shape2 img) =? img_width)
    then raise (ValueError ImagesNotSameSize)
    else mret (Some (Tensor.map div255 img))
  end.

Definition _read_image_with_pretrained_transform
    (img_entry : entry) (transform_fn : tensor → Tensor.t F)
  : M (option (Tensor.t F)) :=
  match decode img_entry None with
  | None => warn ImageCannotBeRead ;; mret None
  | Some img => mret (Some (transform_fn img))
  end.

(** *** Parameter finalization (lines 334-456) *)

(** Modelled from the spec: [ImageFeatureMixin._infer_image_size];
    "height = round(mean sample height) capped at max_height; width
    analogous; apply same equal-dimension adjustment", which is what the
    method of that name in this file does. *)
Definition ImageFeatureMixin_infer_image_size := _infer_image_size.

(** Modelled from the spec: [ImageFeatureMixin._infer_number_of_channels];
    "pick the channel depth whose frequency exceeds 50% of sample among
    {1,2,4}, defaulting to 3 otherwise", which is what the method of that
    name in this file does. *)
Definition ImageFeatureMixin_infer_number_of_channels := _infer_number_of_channels.

(** Modelled from the spec: [ImageFeatureMixin._read_image_if_bytes_obj_and_resize];
    the standard path "decode, assert single-channel source, optional
    grayscale conversion, optional resize, channel reconciliation", which is
    what the method of that name in this file does. *)
Definition ImageFeatureMixin_read_image_if_bytes_obj_and_resize :=
  _read_image_if_bytes_obj_and_resize.

(** Modelled from the spec: [ImageFeatureMixin._read_image_with_pretrained_transform];
    the pretrained-transform path "decode, apply the model's required
    transform, return as array", which is what the method of that name in
    this file does. *)
Definition ImageFeatureMixin_read_image_with_pretrained_transform :=
  _read_image_with_pretrained_transform.

(** What the function returns, in the order of the tuple. *)
Record finalized : Type := {
  f_should_resize : bool;
  f_width : Z;
  f_height : Z;
  f_num_channels : Z;
  f_user_specified_num_channels : bool;
  f_average_file_size : option Q;
  f_standardize_image : option string
}.

(** [column.head(n)]. *)
Definition head {A} (n : Z) (column : list A) : list A :=
  if 0 <=? n then take (Z.to_nat n) column
  else take (length column - Z.to_nat (- n)) column.

(** One turn of the sampling loop (lines 363-377): the image, [None] when the
    entry goes to [failed_entries], and the byte count of a file that was read. *)
Definition sample_entry (image_entry : entry) : option tensor * option Z :=
  match image_entry with
  | EStr path => read_image_from_path path None
  | ETensor x => (Some x, None)
  | ENdarray a => (Some (Tensor.permute_2_0_1 a), None)
  | EBytes _ | EOther => (None, None)
  end.

Definition is_str (e : entry) : bool :=
  match e with EStr _ => true | _ => false end.

(** [int(v)] on a value of the dictionary. *)
Definition int (v : option Z) : M Z :=
  match v with
  | Some z => mret z
  | None => raise (TypeError IntOfNone)
  end.

(** [np.mean] of a non-empty list of byte counts. *)
Definition np_mean (l : list Z) : Q := (inject_Z (sum_Z l) / inject_Z (Z.of_nat (length l)))%Q.

Definition _finalize_preprocessing_parameters
    (preprocessing_parameters : PreprocessingConfigDict) (encoder_type : string)
    (column : list entry)
  : M (finalized * PreprocessingConfigDict) :=
  let p := preprocessing_parameters in
  let explicit_height_width := truthy (height p) || truthy (width p) in
  let explicit_num_channels := truthy (num_channels p) in
  let sample_size :=
    if infer_image_dimensions p && negb (explicit_height_width && explicit_num_channels)
    then Z.min (Z.of_nat (length column)) (infer_image_sample_size p)
    else 1 in
  let entries := head sample_size column in
  let sample := omap (λ e, fst (sample_entry e)) entries in
  let sample_num_bytes := omap (λ e, snd (sample_entry e)) entries in
  let failed_entries := filter (λ e, fst (sample_entry e) = None) entries in
  if (length sample =? 0)%nat then
    (* the message is built with [str.join] over the failed entries *)
    raise (if forallb is_str failed_entries
           then ValueError DimensionsCannotBeInferred
           else TypeError JoinExpectedStr)
  else
  '(should_resize, width, height, p) ←
    (if explicit_height_width then
       height ← int (height p);
       width ← int (width p);
       let '(width, height, p) :=
         ImageFeatureMixin_set_image_and_height_equal_for_encoder width height p in
       if (height <=? 0) || (width <=? 0)
       then raise (ValueError HeightWidthNotPositive)
       else mret (true, width, height, p)
     else if infer_image_dimensions p then
       '(height, width, p) ←
         lift (ImageFeatureMixin_infer_image_size sample
                 (infer_image_max_height p) (infer_image_max_width p) p);
       mret (true, width, height, p)
     else raise (ValueError HeightWidthUnknown)) ;
  '(user_specified_num_channels, num_channels) ←
    (if explicit_num_channels then
       mret (true, default 0 (Vector2D.num_channels p))
     else if infer_image_dimensions p then
       num_channels ← lift (ImageFeatureMixin_infer_number_of_channels sample);
       mret (true, num_channels)
     else match sample with
          | x :: _ => mret (false, num_channels_in_image x)
          | [] => raise (ValueError NumChannelsUnknown)
          end) ;
  let average_file_size :=
    match sample_num_bytes with
    | [] => None
    | _ :: _ => Some (np_mean sample_num_bytes)
    end in
  standardize_image ←
    (if bool_decide (standardize_image p = Some IMAGENET1K) && negb (num_channels =? 3)
     then warn (StandardizeOnlyFor3Channels num_channels) ;; mret None
     else mret (standardize_image p)) ;
  mret ({| f_should_resize := should_resize;
           f_width := width;
           f_height := height;
           f_num_channels := num_channels;
           f_user_specified_num_channels := user_specified_num_channels;
           f_average_file_size := average_file_size;
           f_standardize_image := standardize_image |}, p).

(** Modelled from the spec: [ImageFeatureMixin._finalize_preprocessing_parameters];
    the sampler and inferencer of the spec's section 4.1, which is what the
    method of that name in this file does. *)
Definition ImageFeatureMixin_finalize_preprocessing_parameters :=
  _finalize_preprocessing_parameters.

(** *** The cache writer, [add_feature_data] (lines 458-596) *)

Variable gray : F.    (* the value that fills the default image *)
Variable zero : F.    (* the fill value of a fresh float32 dataset *)
Variable get_abs_path : string → string.
  (* [get_abs_path(src_path, row)] for a local path, [row] for a remote one *)

(** Modelled from the spec: [get_gray_default_image] of
    [ludwig.utils.image_utils]; "a precomputed default (gray) image of the
    finalized shape", an array that numpy refuses to build with a negative
    extent. *)
Definition get_gray_default_image (num_channels height width : Z) : result (Tensor.t F) :=
  if (num_channels <? 0) || (height <? 0) || (width <? 0)
  then Raise (ValueError NegativeDimensions)
  else Return (Tensor.full (Z.to_nat num_channels) (Z.to_nat height) (Z.to_nat width) gray).

(** Modelled from the spec: [backend.read_binary_files(column, map_fn)];
    "apply read function to every row producing an array or [None]". *)
Definition read_binary_files (column : list entry) (map_fn : entry → M (option (Tensor.t F)))
  : M (list (option (Tensor.t F))) :=
  for_each map_fn column.

(** A variant of the torchvision model registry: the transform the code
    builds from it ([ResizeChannels(3)] followed by the weights' own
    transform), and the two attributes the metadata is read from. *)
Record TVModelVariant : Type := {
  torchvision_transform : tensor → Tensor.t F;
  crop_size : list Z;
  mean : list F
}.

Record ImageTransformMetadata : Type := {
  tm_height : Z;
  tm_width : Z;
  tm_num_channels : Z
}.

Definition _get_torchvision_transform (torchvision_parameters : TVModelVariant)
  : (tensor → Tensor.t F) * ImageTransformMetadata :=
  (torchvision_transform torchvision_parameters,
   {| tm_height := nth 0 (crop_size torchvision_parameters) 0;
      tm_width := nth 0 (crop_size torchvision_parameters) 0;
      tm_num_channels := Z.of_nat (length (mean torchvision_parameters)) |}).

(** What the function reads from the feature configuration;
    [fc_torchvision_parameters] is the registry entry of the encoder's
    [model_variant], [None] without one. *)
Record FeatureConfig : Type := {
  fc_in_memory : option bool;
  fc_encoder_type : string;
  fc_torchvision_parameters : option TVModelVariant
}.

(** The processed column: arrays, or row indices into the dataset. *)
Inductive ProcColumn : Type :=
  | Arrays (rows : list (Tensor.t F))
  | Indices (rows : list nat).

Record Processed : Type := {
  proc_column : ProcColumn;
  image_dataset : option (H5.dataset F);   (* what the h5 file holds *)
  reshape : Z * Z * Z;                     (* [metadata[name]["reshape"]] *)
  num_failed_image_reads : nat
}.

(** Lines 578-585: the loop over [enumerate(abs_path_column)], on the dataset
    and the failure counter. *)
Fixpoint write_rows
    (read : entry → M (option (Tensor.t F))) (default_image : Tensor.t F)
    (height width : Z) (rows : list (nat * entry)) (st : H5.dataset F * nat)
  : M (H5.dataset F * nat) :=
  match rows with
  | [] => mret st
  | (i, img_entry) :: rows' =>
    res ← read img_entry;
    st' ← match res with
          | Some res =>
            ds ← lift (H5.setitem (fst st) i height width res);
            mret (ds, snd st)
          | None =>
            warn (FailedToReadImage i) ;;
            ds ← lift (H5.setitem (fst st) i height width default_image);
            mret (ds, S (snd st))
          end;
    write_rows read default_image height width rows' st'
  end.

(** Lines 549-596, once the read function and the shape are fixed;
    [keep_in_memory] is [in_memory or skip_save_processed_input]. *)
Definition process_column
    (read_image_if_bytes_obj_and_resize : entry → M (option (Tensor.t F)))
    (num_channels height width : Z) (keep_in_memory : bool)
    (abs_path_column : list entry)
  : M Processed :=
  default_image ← lift (get_gray_default_image num_channels height width);
  '(proc_col, ds, num_failed_image_reads) ←
    (if keep_in_memory then
       proc_col ← read_binary_files abs_path_column read_image_if_bytes_obj_and_resize;
       let num_failed_image_reads := length (filter (λ row, row = None) proc_col) in
       let proc_col := (λ row, default default_image row) <$> proc_col in
       mret (Arrays proc_col, None, num_failed_image_reads)
     else
       let num_images := length abs_path_column in
       image_dataset ← lift (H5.create_dataset zero num_images num_channels height width);
       '(image_dataset, num_failed_image_reads) ←
         write_rows read_image_if_bytes_obj_and_resize default_image height width
           (zip (seq 0 num_images) abs_path_column) (image_dataset, 0%nat);
       mret (Indices (seq 0 num_images), Some image_dataset, num_failed_image_reads)) ;
  (if (0 <? num_failed_image_reads)%nat
   then warn (FailedToReadImages num_failed_image_reads)
   else mret tt) ;;
  mret {| proc_column := proc_col;
          image_dataset := ds;
          reshape := (num_channels, height, width);
          num_failed_image_reads := num_failed_image_reads |}.

Definition add_feature_data
    (feature_config : FeatureConfig) (column : list entry)
    (preprocessing_parameters : PreprocessingConfigDict)
    (skip_save_processed_input : bool)
  : M Processed :=
  (* [set_default_value]: the feature's own flag wins *)
  let in_memory := default (in_memory preprocessing_parameters) (fc_in_memory feature_config) in
  let abs_path_column :=
    (λ row, match row with EStr path => EStr (get_abs_path path) | _ => row end) <$> column in
  '(read_image_if_bytes_obj_and_resize, num_channels, height, width) ←
    match fc_torchvision_parameters feature_config with
    | Some torchvision_parameters =>
      warn UsingTorchvisionTransforms ;;
      let '(torchvision_transform, transform_metadata) :=
        _get_torchvision_transform torchvision_parameters in
      mret (λ img_entry,
              ImageFeatureMixin_read_image_with_pretrained_transform img_entry torchvision_transform,
            tm_num_channels transform_metadata,
            tm_height transform_metadata,
            tm_width transform_metadata)
    | None =>
      '(fin, p) ← ImageFeatureMixin_finalize_preprocessing_parameters
                    preprocessing_parameters (fc_encoder_type feature_config) abs_path_column;
      mret (λ img_entry,
              ImageFeatureMixin_read_image_if_bytes_obj_and_resize img_entry
                (f_width fin) (f_height fin) (f_should_resize fin) (f_num_channels fin)
                (resize_method preprocessing_parameters)
                (f_user_specified_num_channels fin) (f_standardize_image fin),
            f_num_channels fin, f_height fin, f_width fin)
    end;
  process_column read_image_if_bytes_obj_and_resize num_channels height width
    (in_memory || skip_save_processed_input) abs_path_column.

End Preprocessing.

(** *** [Vector2DOutputFeature.update_config_with_metadata] (lines 726-730) *)



Section OutputFeature.

(** The values that attributes and metadata entries hold. *)
Context {V : Type}.




End OutputFeature.

End Vector2D.

(* ===================================================================== *)
(** ** [ludwig/models/pretrainer.py] *)
(* ===================================================================== *)

Module Pretrainer.

(** *** [shuffle_along_axis] (lines 18-20) *)

(** A draw of [np.random.rand]: a double in [0, 1), held as its numerator
    over 2^53.  The generator is an oracle giving the draw at each position
    of the array. *)
Definition rand_oracle : Type := nat → nat → N.

Definition np_random_rand (rand : rand_oracle) (rows cols : nat) : list (list N) :=
  (λ i, rand i <$> seq 0 cols) <$> seq 0 rows.

(** [argsort] of one row: the positions, ordered by the key they hold.
    Positions with equal keys keep their order (numpy's default sort leaves
    that order unspecified; draws of the generator are distinct but for a
    null set). *)
Fixpoint insert_by (key : nat → N) (i : nat) (l : list nat) : list nat :=
  match l with
  | [] => [i]
  | j :: l' => if (key i <=? key j)%N then i :: l else j :: insert_by key i l'
  end.

Definition argsort (keys : list N) : list nat :=
  foldr (insert_by (λ i, nth i keys 0%N)) [] (seq 0 (length keys)).

(** [np.take_along_axis(a, idx, axis=1)]. *)
Definition take_along_axis (a : list (list Z)) (idx : list (list nat)) : list (list Z) :=
  zip_with (λ row idx_row, (λ j, nth j row 0) <$> idx_row) a idx.

Definition shuffle_along_axis (rand : rand_oracle) (a : list (list Z)) : list (list Z) :=
  let idx := argsort <$> np_random_rand rand (length a) (length (hd [] a)) in
  take_along_axis a idx.

(** *** [ScarfModel] (lines 120-207) *)

(** Line 138: [math.floor(corruption_rate * len(self.input_features))].
    The length is converted to a double, the product is the double nearest
    to the exact product, and [math.floor] gives the floor of that double
    (it refuses an infinity and a NaN). *)
Definition num_corrupted_features (corruption_rate : Float.t) (num_features : nat) : result Z :=
  n ← Float.of_int (Z.of_nat num_features);
  Float.floor (Float.mul corruption_rate n).

(** Lines 171-174: [m] columns, the first [num_corrupted_features] of every
    row set, then every row shuffled. *)
Definition corruption_mask
    (rand : rand_oracle) (num_corrupted_features : Z) (batch_size m : nat)
  : list (list Z) :=
  let mask := replicate batch_size (replicate m 0) in
  let mask :=
    (λ row, replicate (slice_stop num_corrupted_features m) 1
            ++ drop (slice_stop num_corrupted_features m) row) <$> mask in
  shuffle_along_axis rand mask.

Section Corrupt.

Context {V : Type}.
(** [self.input_features[name].sample_augmentations(batch_size, metadata)]. *)
Variable sample_augmentations : string → nat → list V.

(** numpy's broadcasting of a one-dimensional array to [n] entries. *)
Definition broadcast_to {A} (n : nat) (l : list A) : option (list A) :=
  if (length l =? n)%nat then Some l
  else match l with
       | [x] => Some (replicate n x)
       | _ => None
       end.

(** [np.where(cond, x, y)] on one-dimensional arrays. *)
Definition np_where (cond : list Z) (x y : list V) : result (list V) :=
  let n := Nat.max (length cond) (Nat.max (length x) (length y)) in
  match broadcast_to n cond, broadcast_to n x, broadcast_to n y with
  | Some cond, Some x, Some y =>
    Return (zip_with (λ c xy, if c =? 0 then snd xy else fst xy) cond (zip x y))
  | _, _, _ => Raise (ValueError CannotBroadcast)
  end.

(** [_corrupt], on features that hold one value per row.  [batch_size] is
    the length of the last feature; without features it stays [None] and
    [np.zeros] refuses it. *)
Definition _corrupt
    (rand : rand_oracle) (num_corrupted_features : Z) (inputs : list (string * list V))
  : result (list (string * list V)) :=
  let augmentations :=
    (λ kv, sample_augmentations (fst kv) (length (snd kv))) <$> inputs in
  match last inputs with
  | None => Raise (TypeError NoFeatures)
  | Some (_, input_values) =>
    let batch_size := length input_values in
    let m := length inputs in
    let mask := corruption_mask rand num_corrupted_features batch_size m in
    mapM (M := result)
      (λ '(j, (input_feature_name, input_values), augmentation),
         corrupted ← np_where ((λ row, nth j row 0) <$> mask) augmentation input_values;
         mret (input_feature_name, corrupted))
      (zip (zip (seq 0 m) inputs) augmentations)
  end.

End Corrupt.

(** *** [SimCLR_Loss] (lines 23-64) *)

(** [mask[i, j] = v]. *)
Definition set2 {A} (m : list (list A)) (i j : nat) (v : A) : list (list A) :=
  alter (λ row, <[j := v]> row) i m.

(** [mask.fill_diagonal_(v)]. *)
Definition fill_diagonal_ {A} (m : list (list A)) (v : A) : list (list A) :=
  imap (λ i row, <[i := v]> row) m.

Definition mask_correlated_samples (batch_size : nat) : list (list bool) :=
  let N := (2 * batch_size)%nat in
  let mask := replicate N (replicate N true) in
  let mask := fill_diagonal_ mask false in
  foldl (λ mask i, set2 (set2 mask i (batch_size + i) false) (batch_size + i) i false)
        mask (seq 0 batch_size).

(** [torch.diag(m, k)] of a matrix: the entries [m[i, i + k]], or
    [m[i - k, i]] for a negative [k], as far as they exist. *)
Definition diag {A} (m : list (list A)) (k : Z) : list A :=
  if 0 <=? k
  then omap (λ i, m !! i ≫= (.!! (i + Z.to_nat k)%nat)) (seq 0 (length m))
  else omap (λ i, m !! (i + Z.to_nat (- k))%nat ≫= (.!! i)) (seq 0 (length m)).

(** [x.reshape(n, 1)]. *)
Definition reshape_n_1 {A} (n : nat) (x : list A) : result (list (list A)) :=
  if (length x =? n)%nat then Return ((λ v, [v]) <$> x)
  else Raise (RuntimeError ShapeInvalidForInput).

Fixpoint chunks {A} (rows size : nat) (x : list A) : list (list A) :=
  match rows with
  | O => []
  | S rows' => take size x :: chunks rows' size (drop size x)
  end.

(** [x.reshape(n, -1)]: the second extent is inferred when [n] is positive
    and divides the number of entries. *)
Definition reshape_n_auto {A} (n : nat) (x : list A) : result (list (list A)) :=
  if (n =? 0)%nat then
    Raise (RuntimeError (if (length x =? 0)%nat then UnspecifiedDimensionAmbiguous
                         else ShapeInvalidForInput))
  else if (length x mod n =? 0)%nat then Return (chunks n (length x / n) x)
  else Raise (RuntimeError ShapeInvalidForInput).

Definition shape2d {A} (m : list (list A)) : nat * nat := (length m, length (hd [] m)).

(** [sim[mask]] for a boolean [mask] of the shape of [sim]: the selected
    entries, row after row. *)
Definition masked_select {A} (sim : list (list A)) (mask : list (list bool)) : result (list A) :=
  if bool_decide (shape2d sim = shape2d mask)
  then Return (concat (zip_with (λ row mask_row, fst <$> filter (λ vb, snd vb = true) (zip row mask_row))
                                sim mask))
  else Raise (IndexError MaskShapeMismatch).

(** [torch.cat((a, b), dim=1)] of two matrices. *)
Definition cat_dim1 {A} (a b : list (list A)) : result (list (list A)) :=
  if (length a =? length b)%nat then Return (zip_with app a b)
  else Raise (RuntimeError SizesOfTensorsMustMatch).

Section SimCLR.

(** Scalars of torch, the embedding vectors, and the operations on them. *)
Context {T E : Type}.
Variable cosine_similarity : E → E → T.   (* [torch.nn.CosineSimilarity] on two vectors *)
Variable div : T → T → T.
Variable div_int : T → Z → T.             (* [loss /= N] *)
Variable zero : T.
Variable add : T → T → T.
Variable cross_entropy : list T → nat → T. (* one row of logits and its label *)

(** [torch.nn.CrossEntropyLoss(reduction="sum")]. *)
Definition criterion (logits : list (list T)) (labels : list nat) : result T :=
  if (length logits =? length labels)%nat
  then Return (foldr add zero (zip_with cross_entropy logits labels))
  else Raise (ValueError SizesOfTensorsMustMatch).

Record SimCLR_Loss : Type := {
  batch_size : nat;
  temperature : T;
  mask : list (list bool)
}.

Definition __init__ (batch_size : nat) (temperature : T) : SimCLR_Loss :=
  {| batch_size := batch_size;
     temperature := temperature;
     mask := mask_correlated_samples batch_size |}.

Definition forward (self : SimCLR_Loss) (z_i z_j : list E) : result T :=
  let N := (2 * batch_size self)%nat in
  let z := z_i ++ z_j in
  let sim := (λ a, (λ b, div (cosine_similarity a b) (temperature self)) <$> z) <$> z in
  let sim_i_j := diag sim (Z.of_nat (batch_size self)) in
  let sim_j_i := diag sim (- Z.of_nat (batch_size self)) in
  positive_samples ← reshape_n_1 N (sim_i_j ++ sim_j_i);
  selected ← masked_select sim (mask self);
  negative_samples ← reshape_n_auto N selected;
  let labels := replicate N 0%nat in
  logits ← cat_dim1 positive_samples negative_samples;
  loss ← criterion logits labels;
  mret (div_int loss (Z.of_nat N)).

(** Line 140 and lines 197-204: the loss [ScarfModel] builds and calls. *)
Definition ScarfModel_loss_fn (temperature : T) : SimCLR_Loss := __init__ 128 temperature.

Definition train_loss (temperature : T) (anchor_embeddings corrupted_embeddings : list E)
  : result T :=
  forward (ScarfModel_loss_fn temperature) anchor_embeddings corrupted_embeddings.

End SimCLR.

End Pretrainer.

(* ===================================================================== *)
(** ** Notions the properties are stated with *)
(* ===================================================================== *)

Module Spec.

(** [r] is the integer nearest to the quotient [s / n], the even one of the
    two when the quotient lies halfway. *)
Definition nearest_ties_to_even (s n r : Z) : Prop :=
  2 * Z.abs (r * n - s) ≤ n ∧ (2 * Z.abs (r * n - s) = n → Z.even r = true).

(** Single-channel test images of a given depth, height and width. *)
Definition image (channels height width : nat) : tensor := Tensor.full channels height width 0.

(** The planes of zeros the padding appends to [img]. *)
Definition zero_channels (img : tensor) (extra : Z) : tensor :=
  replicate (Z.to_nat extra)
            (replicate (Tensor.shape1 img) (replicate (Tensor.shape2 img) 0)).

(** The number of entries of a row of a mask that are set. *)
Definition count_set (row : list Z) : nat := length (filter (λ v, v ≠ 0) row).

(** The row of the positive of row [i] among [2 * B] embeddings: its twin in
    the other half. *)
Definition twin (B i : nat) : nat := if (i <? B)%nat then (i + B)%nat else (i - B)%nat.

(** The matrix of extent [n] by [n] with entry [g i j] in row [i], column [j]. *)
Definition mat {A} (n : nat) (g : nat → nat → A) : list (list A) :=
  (λ i, g i <$> seq 0 n) <$> seq 0 n.

(** The pairs the loss keeps as negatives among [2 * B] embeddings: all but
    the diagonal and the two diagonals at offset [B]. *)
Definition mask_bit (B i j : nat) : bool :=
  negb ((i =? j)%nat || (j =? i + B)%nat || (i =? j + B)%nat).

(** A row of [m] entries, the first [k] of them set. *)
Definition leading_ones (k m : nat) : list Z :=
  (λ j, if (j <? k)%nat then 1 else 0) <$> seq 0 m.

(** What a call of the read function returned: the array, or [None] when it
    returned [None] (or raised). *)
Definition returned {A} (m : M (option A)) : option A :=
  match outcome m with
  | Return v => v
  | Raise _ => None
  end.

(** The array a row is processed to: what the read function returned, or
    the default image. *)
Definition stored {A} (read : Vector2D.entry → M (option A)) (default_image : A)
    (e : Vector2D.entry) : A :=
  default default_image (returned (read e)).

(** The number of rows for which the read function returned no array. *)
Definition failures {A} (read : Vector2D.entry → M (option A))
    (column : list Vector2D.entry) : nat :=
  length (filter (λ e, returned (read e) = None) column).

(** The place of [j] in [l]. *)
Fixpoint index_of (j : nat) (l : list nat) : nat :=
  match l with
  | [] => 0
  | x :: l' => if decide (x = j) then 0 else S (index_of j l')
  end.

(** Draws that rank the positions in the order of the arrangement [σ]. *)
Definition ranks (σ : list nat) : list N :=
  (λ j, N.of_nat (index_of j σ)) <$> seq 0 (length σ).





(** A shift to the right loses no digit. *)
Definition shr_exact (rec : SpecFloat.shr_record) : Prop :=
  SpecFloat.shr_r rec || SpecFloat.shr_s rec = false.

(** [explicit_height_width] of the parameter finalization: one of the two
    sizes is given (and not zero). *)
Definition explicit_size (p : Vector2D.PreprocessingConfigDict) : bool :=
  truthy (Vector2D.height p) || truthy (Vector2D.width p).

(** The number of rows the parameter finalization asks [column.head] for. *)
Definition sample_size (p : Vector2D.PreprocessingConfigDict) (column : list Vector2D.entry) : Z :=
  if Vector2D.infer_image_dimensions p && negb (explicit_size p && truthy (Vector2D.num_channels p))
  then Z.min (Z.of_nat (length column)) (Vector2D.infer_image_sample_size p)
  else 1.

(** The bound on that number that does not depend on the column. *)
Definition sample_cap (p : Vector2D.PreprocessingConfigDict) : Z :=
  if Vector2D.infer_image_dimensions p && negb (explicit_size p && truthy (Vector2D.num_channels p))
  then Vector2D.infer_image_sample_size p
  else 1.

(** The rows the parameter finalization looks at, and the images it reads
    from them. *)
Definition sampled (p : Vector2D.PreprocessingConfigDict) (column : list Vector2D.entry)
  : list Vector2D.entry :=
  Vector2D.head (sample_size p column) column.

Definition sample (read_image_from_path : string → option Z → option tensor * option Z)
    (p : Vector2D.PreprocessingConfigDict) (column : list Vector2D.entry) : list tensor :=
  omap (λ e, (Vector2D.sample_entry read_image_from_path e).1) (sampled p column).

(** The column [add_feature_data] works on: local paths made absolute. *)
Definition abs_path_column (get_abs_path : string → string) (column : list Vector2D.entry)
  : list Vector2D.entry :=
  (λ row, match row with Vector2D.EStr path => Vector2D.EStr (get_abs_path path) | _ => row end)
    <$> column.

(** Feature [j] after the corruption: its name, and per row the augmentation
    where the mask is set at [(row, j)], the input value elsewhere. *)
Definition corrupted_feature {V} (mask : list (list Z))
    (x : nat * (string * list V) * list V) : string * list V :=
  let '(j, (name, values), augmentation) := x in
  (name, zip_with (λ c xy, if c =? 0 then snd xy else fst xy)
           ((λ row, nth j row 0) <$> mask) (zip augmentation values)).

End Spec.

(* ===================================================================== *)
(** ** Concrete collaborators, for evaluating the embedding *)
(* ===================================================================== *)

Module Fixture.
Import Vector2D.

(** float32 values are read as rationals; rescaling divides by 255 exactly. *)
Definition div255 (v : Z) : Q := v # 255.
Definition gray : Q := 128.
Definition zero : Q := 0.

(** A storage layer without files, and byte strings that hold no image. *)
Definition read_image_from_bytes_obj (_ : list Byte.byte) (_ : option Z) : option tensor := None.
Definition read_image_from_path (_ : string) (_ : option Z) : option tensor * option Z :=
  (None, None).

(** Images that already have the requested size come back unchanged. *)
Definition resize_image (img : tensor) (_ : Z * Z) (_ : string) : tensor := img.
Definition grayscale (img : tensor) : tensor := take 1 img.
Definition get_abs_path (path : string) : string := path.

Definition parameters (height width num_channels : option Z) (infer : bool)
  : PreprocessingConfigDict :=
  {| height := height; width := width; num_channels := num_channels;
     infer_image_dimensions := infer;
     infer_image_sample_size := 100;
     infer_image_max_height := 256;
     infer_image_max_width := 256;
     requires_equal_dimensions := false;
     standardize_image := None;
     resize_method := "interpolate";
     in_memory := true |}.

Definition feature_config (in_memory : bool) : FeatureConfig (F := Q) :=
  {| fc_in_memory := Some in_memory;
     fc_encoder_type := "dense";
     fc_torchvision_parameters := None |}.

Definition read :=
  _read_image_if_bytes_obj_and_resize
    div255 read_image_from_bytes_obj read_image_from_path grayscale resize_image.

Definition finalize :=
  _finalize_preprocessing_parameters read_image_from_path.

(** The read function for single-channel images of two rows and [width]
    columns. *)
Definition read_row (width : Z) (img_entry : entry) : M (option (Tensor.t Q)) :=
  read img_entry width 2 true 1 "interpolate" true None.

Definition add_feature_data :=
  Vector2D.add_feature_data
    div255 read_image_from_bytes_obj read_image_from_path grayscale resize_image
    gray zero get_abs_path.

(** An image of one channel, two rows and one column. *)
Definition tall_image : tensor := [[[51]; [102]]].

(** An image of one channel, two rows and two columns. *)
Definition square_image : tensor := [[[0; 51]; [102; 255]]].

(** An image of three channels, one row and one column. *)
Definition rgb_pixel : tensor := [[[255]]; [[0]]; [[0]]].

(** The scalar operations of torch read as terms, embeddings as their
    position in the batch: the loss evaluates to the expression it computes. *)
#[warnings="-register-all"]
Inductive term : Type :=
  | Cos (a b : nat)
  | Temperature
  | Div (x y : term)
  | DivInt (x : term) (n : Z)
  | Zero
  | Add (x y : term)
  | CrossEntropy (logits : list term) (label : nat).

Definition forward (batch_size : nat) (z_i z_j : list nat) : result term :=
  Pretrainer.forward Cos Div DivInt Zero Add CrossEntropy
    (Pretrainer.__init__ batch_size Temperature) z_i z_j.

Definition train_loss (anchor_embeddings corrupted_embeddings : list nat) : result term :=
  Pretrainer.train_loss Cos Div DivInt Zero Add CrossEntropy Temperature
    anchor_embeddings corrupted_embeddings.

(** A fixed table of draws for the generator. *)
Definition rand : Pretrainer.rand_oracle :=
  λ i j, N.of_nat ((i * 7 + j * 5 + i * j * 3) mod 11).

(** Corruption rates: the doubles that the literals [0.6] (the default),
    [0.29], [0.3333333333333333], [1.5] and [-0.5] denote. *)
Definition rate_0_6 : Float.t := SpecFloat.S754_finite false 5404319552844595 (-53).
Definition rate_0_29 : Float.t := SpecFloat.S754_finite false 5224175567749775 (-54).
Definition rate_third : Float.t := SpecFloat.S754_finite false 6004799503160661 (-54).
Definition rate_1_5 : Float.t := SpecFloat.S754_finite false 6755399441055744 (-52).
Definition rate_minus_half : Float.t := SpecFloat.S754_finite true 4503599627370496 (-53).

(** The same parameters with the two options the encoder and the user set. *)
Definition options (p : PreprocessingConfigDict) (equal : bool) (standardize : option string)
  : PreprocessingConfigDict :=
  {| height := height p; width := width p; num_channels := num_channels p;
     infer_image_dimensions := infer_image_dimensions p;
     infer_image_sample_size := infer_image_sample_size p;
     infer_image_max_height := infer_image_max_height p;
     infer_image_max_width := infer_image_max_width p;
     requires_equal_dimensions := equal;
     standardize_image := standardize;
     resize_method := resize_method p;
     in_memory := in_memory p |}.

(** A model variant of the torchvision registry: a transform that brings
    the image to three channels and rescales it, a crop size of 2 and three
    channel means. *)
Definition model_variant : TVModelVariant (F := Q) :=
  {| torchvision_transform :=
       λ img, Tensor.map div255
                (Tensor.pad_channels (take 3 img) (3 - length (take 3 img)));
     crop_size := [2];
     mean := [485 # 1000; 456 # 1000; 406 # 1000] |}.

Definition torchvision_feature_config : FeatureConfig (F := Q) :=
  {| fc_in_memory := Some true;
     fc_encoder_type := "resnet";
     fc_torchvision_parameters := Some model_variant |}.

(** Augmentations that are all the same value. *)
Definition sample_augmentations (_ : string) (batch_size : nat) : list Z :=
  replicate batch_size 9.

End Fixture.

(* ===================================================================== *)
(** ** Properties of the size and channel inference *)
(* ===================================================================== *)

Module InferenceProperties.
Import Vector2D Spec.

Lemma round_div_nearest (s n : Z) :
  0 < n → nearest_ties_to_even s n (round_div s n).
Proof.
  intros Hn. unfold nearest_ties_to_even, round_div.
  pose proof (Z.div_mod s n ltac:(lia)) as Hs.
  pose proof (Z.mod_pos_bound s n Hn) as Hr.
  destruct (Z.ltb_spec (2 * (s mod n)) n) as [Hlt | Hge].
  - split; [lia | intros; lia].
  - destruct (Z.ltb_spec n (2 * (s mod n))) as [Hgt | Hle].
    + split; [lia | intros; lia].
    + destruct (Z.even (s / n)) eqn:He.
      * split; [lia | auto].
      * split; [lia | intros _].
        rewrite Z.even_add, He. reflexivity.
Qed.

Lemma nearest_ties_to_even_unique (s n r1 r2 : Z) :
  0 < n → nearest_ties_to_even s n r1 → nearest_ties_to_even s n r2 → r1 = r2.
Proof.
  intros Hn [H1 E1] [H2 E2].
  assert (Hd : Z.abs (r1 - r2) * n ≤ n) by nia.
  assert (Hc : r1 = r2 ∨ r1 = r2 + 1 ∨ r2 = r1 + 1) by nia.
  destruct Hc as [-> | [-> | ->]]; [reflexivity | exfalso | exfalso].
  - assert (Z.even (r2 + 1) = true) by (apply E1; nia).
    assert (Z.even r2 = true) by (apply E2; nia).
    rewrite Z.even_add in *. destruct (Z.even r2); discriminate.
  - assert (Z.even (r1 + 1) = true) by (apply E2; nia).
    assert (Z.even r1 = true) by (apply E1; nia).
    rewrite Z.even_add in *. destruct (Z.even r1); discriminate.
Qed.

Lemma Counter_cons (x k : Z) (xs : list Z) :
  Counter (x :: xs) k = ((if decide (x = k) then 1 else 0) + Counter xs k)%nat.
Proof.
  unfold Counter. rewrite filter_cons. destruct (decide (x = k)); reflexivity.
Qed.

(** Two different depths cannot both be held by more than half of a sample. *)
Lemma Counter_disjoint (xs : list Z) (c1 c2 : Z) :
  c1 ≠ c2 → (Counter xs c1 + Counter xs c2 ≤ length xs)%nat.
Proof.
  intros Hne. induction xs as [| x xs IH]; [reflexivity |].
  rewrite !Counter_cons. cbn [length].
  destruct (decide (x = c1)), (decide (x = c2)); subst; try congruence; lia.
Qed.

(** C8. For a sample that is not empty, channel inference returns the depth
    among 1, 2 and 4 that more than half of the sample has, and 3 when there
    is no such depth.  Ten images of which six have one channel give 1; four
    images of three channels with two each of one, two and four channels
    give 3. *)
Theorem infer_number_of_channels_majority :
  (∀ (x : tensor) (rest : list tensor),
     let image_sample := x :: rest in
     let n_images := length image_sample in
     let frequency := Counter (num_channels_in_image <$> image_sample) in
     ∃ d, _infer_number_of_channels image_sample = Return d
          ∧ (∀ c, c ∈ [1; 2; 4] → (n_images < 2 * frequency c)%nat → d = c)
          ∧ ((∀ c, c ∈ [1; 2; 4] → (2 * frequency c ≤ n_images)%nat) → d = 3))
  ∧ _infer_number_of_channels
      (replicate 6 (image 1 2 2) ++ replicate 4 (image 3 2 2)) = Return 1
  ∧ _infer_number_of_channels
      (replicate 4 (image 3 2 2) ++ replicate 2 (image 1 2 2)
       ++ replicate 2 (image 2 2 2) ++ replicate 2 (image 4 2 2)) = Return 3.
Proof.
  split; [| split; reflexivity].
  intros x rest image_sample n_images frequency.
  unfold _infer_number_of_channels.
  fold image_sample. fold n_images. fold frequency.
  assert (H12 := Counter_disjoint (num_channels_in_image <$> image_sample) 1 2 ltac:(lia)).
  assert (H14 := Counter_disjoint (num_channels_in_image <$> image_sample) 1 4 ltac:(lia)).
  assert (H24 := Counter_disjoint (num_channels_in_image <$> image_sample) 2 4 ltac:(lia)).
  rewrite length_fmap in H12, H14, H24.
  fold n_images frequency in H12, H14, H24.
  subst image_sample. cbv zeta.
  eexists; split; [reflexivity |].
  split.
  - intros c Hc Hmaj.
    repeat (apply elem_of_cons in Hc as [-> | Hc]); [| | | by apply elem_of_nil in Hc].
    all: repeat match goal with
           | |- context [(?a <? ?b)%nat] => destruct (Nat.ltb_spec a b)
           end; try reflexivity; lia.
  - intros Hno.
    pose proof (Hno 1 ltac:(repeat constructor)).
    pose proof (Hno 2 ltac:(repeat constructor)).
    pose proof (Hno 4 ltac:(repeat constructor)).
    repeat match goal with
           | |- context [(?a <? ?b)%nat] => destruct (Nat.ltb_spec a b)
           end; try reflexivity; lia.
Qed.

Lemma set_equal_cases (width height : Z) (p : PreprocessingConfigDict) :
  ∃ p', _set_image_and_height_equal_for_encoder width height p
        = (if requires_equal_dimensions p && negb (height =? width)
           then (Z.min width height, Z.min width height)
           else (width, height), p').
Proof.
  unfold _set_image_and_height_equal_for_encoder.
  destruct (requires_equal_dimensions p && negb (height =? width)); eauto.
Qed.

(** C9. For a sample that is not empty, the inferred height is the mean of
    the sample's heights rounded to the nearest integer and capped at
    [max_height], the inferred width likewise, and both become the smaller
    of the two when the encoder requires equal dimensions.  Heights 10, 20
    and 30 give 20. *)
Theorem infer_image_size_rounded_mean :
  (∀ (x : tensor) (rest : list tensor) (max_height max_width : Z)
     (p : PreprocessingConfigDict),
     let image_sample := x :: rest in
     let n := Z.of_nat (length image_sample) in
     ∃ mean_height mean_width height width p',
       nearest_ties_to_even
         (sum_Z ((λ x, Z.of_nat (Tensor.shape1 x)) <$> image_sample)) n mean_height
       ∧ nearest_ties_to_even
           (sum_Z ((λ x, Z.of_nat (Tensor.shape2 x)) <$> image_sample)) n mean_width
       ∧ _infer_image_size image_sample max_height max_width p = Return (height, width, p')
       ∧ (height, width) =
           let h := Z.min mean_height max_height in
           let w := Z.min mean_width max_width in
           if requires_equal_dimensions p && negb (h =? w)
           then (Z.min w h, Z.min w h) else (h, w))
  ∧ (∀ p, ∃ p',
       _infer_image_size [image 1 10 4; image 1 20 4; image 1 30 4] 256 256 p
       = Return (if requires_equal_dimensions p then 4 else 20, 4, p')).
Proof.
  split.
  - intros x rest max_height max_width p image_sample n.
    assert (Hn : 0 < n) by (subst n image_sample; cbn [length]; lia).
    set (sh := sum_Z ((λ x, Z.of_nat (Tensor.shape1 x)) <$> image_sample)).
    set (sw := sum_Z ((λ x, Z.of_nat (Tensor.shape2 x)) <$> image_sample)).
    destruct (set_equal_cases (Z.min (round_div sw n) max_width)
                (Z.min (round_div sh n) max_height) p) as [p' Hp'].
    exists (round_div sh n), (round_div sw n).
    unfold _infer_image_size, ImageFeatureMixin_set_image_and_height_equal_for_encoder.
    fold n sh sw.
    destruct (Z.eqb_spec n 0) as [? | _]; [lia |].
    rewrite Hp'.
    destruct (requires_equal_dimensions p
              && negb (Z.min (round_div sh n) max_height =? Z.min (round_div sw n) max_width)).
    + eexists _, _, p'. repeat split; try apply round_div_nearest; try assumption.
    + eexists _, _, p'. repeat split; try apply round_div_nearest; try assumption.
  - intros p.
    unfold _infer_image_size, ImageFeatureMixin_set_image_and_height_equal_for_encoder,
      _set_image_and_height_equal_for_encoder.
    destruct (requires_equal_dimensions p); cbn; eauto.
Qed.

End InferenceProperties.

(* ===================================================================== *)
(** ** Properties of the standard read path *)
(* ===================================================================== *)

Module ReadProperties.
Import Vector2D Spec.

Section Reader.

Context {F : Type}.
Variable div255 : Z → F.
Variable read_image_from_bytes_obj : list Byte.byte → option Z → option tensor.
Variable read_image_from_path : string → option Z → option tensor * option Z.
Variable resize_image : tensor → Z * Z → string → tensor.

#[local] Abbreviation decode := (decode read_image_from_bytes_obj read_image_from_path).
#[local] Abbreviation read grayscale :=
  (_read_image_if_bytes_obj_and_resize
     div255 read_image_from_bytes_obj read_image_from_path grayscale resize_image).

(** What the function does with a decoded image of one channel: the
    conversion to grayscale plays no part. *)
Lemma read_single_channel
    (grayscale : tensor → tensor) (img_entry : entry) (img : tensor)
    (img_width img_height : Z) (should_resize : bool) (num_channels : Z)
    (resize_method : string) (user_specified_num_channels : bool)
    (standardize_image : option string) :
  decode img_entry (Some num_channels) = Some img →
  num_channels_in_image img = 1 →
  read grayscale img_entry img_width img_height should_resize num_channels resize_method
       user_specified_num_channels standardize_image
  = (let img :=
       if should_resize then resize_image img (img_height, img_width) resize_method else img in
     img ← reconcile_channels user_specified_num_channels num_channels 1 img;
     if negb (Z.of_nat (Tensor.shape1 img) =? img_height)
        || negb (Z.of_nat (Tensor.shape2 img) =? img_width)
     then raise (ValueError ImagesNotSameSize)
     else mret (Some (Tensor.map div255 img))).
Proof.
  intros Hdec Hone. unfold _read_image_if_bytes_obj_and_resize.
  rewrite Hdec, Hone. cbn [Z.eqb Pos.eqb negb andb].
  rewrite andb_false_r. reflexivity.
Qed.

Lemma read_multi_channel
    (grayscale : tensor → tensor) (img_entry : entry) (img : tensor)
    (img_width img_height : Z) (should_resize : bool) (num_channels : Z)
    (resize_method : string) (user_specified_num_channels : bool)
    (standardize_image : option string) :
  decode img_entry (Some num_channels) = Some img →
  num_channels_in_image img ≠ 1 →
  read grayscale img_entry img_width img_height should_resize num_channels resize_method
       user_specified_num_channels standardize_image
  = raise AssertionError.
Proof.
  intros Hdec Hne. unfold _read_image_if_bytes_obj_and_resize.
  rewrite Hdec. destruct (Z.eqb_spec (num_channels_in_image img) 1); [contradiction | reflexivity].
Qed.

Lemma read_not_a_tensor
    (grayscale : tensor → tensor) (img_entry : entry)
    (img_width img_height : Z) (should_resize : bool) (num_channels : Z)
    (resize_method : string) (user_specified_num_channels : bool)
    (standardize_image : option string) :
  decode img_entry (Some num_channels) = None →
  read grayscale img_entry img_width img_height should_resize num_channels resize_method
       user_specified_num_channels standardize_image
  = ([ImageCannotBeRead], Return None).
Proof.
  intros Hdec. unfold _read_image_if_bytes_obj_and_resize. rewrite Hdec. reflexivity.
Qed.

(** C6. In the standard read path a decoded image that does not have exactly
    one channel fails the assertion before anything else is done or logged,
    and the branch that converts to grayscale is never taken: its guard is
    false for every image that passes the assertion, and the result of the
    read function is the same whatever the conversion would compute. *)
Theorem grayscale_branch_unreachable
    (img_entry : entry) (img_width img_height : Z) (should_resize : bool)
    (num_channels : Z) (resize_method : string) (user_specified_num_channels : bool)
    (standardize_image : option string) :
  (∀ grayscale img,
     decode img_entry (Some num_channels) = Some img →
     num_channels_in_image img ≠ 1 →
     read grayscale img_entry img_width img_height should_resize num_channels resize_method
          user_specified_num_channels standardize_image
     = ([], Raise AssertionError))
  ∧ (∀ grayscale img,
       decode img_entry (Some num_channels) = Some img →
       outcome (read grayscale img_entry img_width img_height should_resize num_channels
                     resize_method user_specified_num_channels standardize_image)
       ≠ Raise AssertionError →
       num_channels_in_image img = 1
       ∧ (num_channels =? 1) && negb (num_channels_in_image img =? 1) = false)
  ∧ (∀ grayscale grayscale',
       read grayscale img_entry img_width img_height should_resize num_channels resize_method
            user_specified_num_channels standardize_image
       = read grayscale' img_entry img_width img_height should_resize num_channels
              resize_method user_specified_num_channels standardize_image).
Proof.
  split; [| split].
  - intros grayscale img Hdec Hne. by apply (read_multi_channel _ _ img).
  - intros grayscale img Hdec Hout.
    destruct (decide (num_channels_in_image img = 1)) as [Hone | Hne].
    + split; [assumption |]. rewrite Hone. apply andb_false_r.
    + rewrite (read_multi_channel _ _ img) in Hout by assumption.
      exfalso. by apply Hout.
  - intros grayscale grayscale'.
    destruct (decode img_entry (Some num_channels)) as [img |] eqn:Hdec.
    + destruct (decide (num_channels_in_image img = 1)) as [Hone | Hne].
      * by rewrite !(read_single_channel _ _ img).
      * by rewrite !(read_multi_channel _ _ img).
    + by rewrite !read_not_a_tensor.
Qed.

Lemma reconcile_user_specified (num_channels img_num_channels : Z) (img : tensor) :
  img_num_channels ≠ num_channels →
  reconcile_channels true num_channels img_num_channels img
  = ([ChannelsPaddedOrDropped img_num_channels num_channels],
     Return (img ++ zero_channels img (num_channels - img_num_channels))).
Proof.
  intros Hne. unfold reconcile_channels, zero_channels, Tensor.pad_channels.
  destruct (Z.eqb_spec img_num_channels num_channels) as [? | _]; [contradiction |].
  destruct (Z.ltb_spec img_num_channels num_channels) as [Hlt | Hge]; cbn.
  - reflexivity.
  - replace (Z.to_nat (num_channels - img_num_channels)) with 0%nat by lia.
    cbn. by rewrite app_nil_r.
Qed.

Lemma reconcile_not_user_specified (num_channels img_num_channels : Z) (img : tensor) :
  img_num_channels ≠ num_channels →
  reconcile_channels false num_channels img_num_channels img
  = ([], Raise (ValueError ChannelsUnlikeFirstImage)).
Proof.
  intros Hne. unfold reconcile_channels.
  destruct (Z.eqb_spec img_num_channels num_channels) as [? | _]; [contradiction | reflexivity].
Qed.

Lemma read_user_specified_mismatch
    (grayscale : tensor → tensor) (img_entry : entry) (img : tensor)
    (img_width img_height : Z) (should_resize : bool) (num_channels : Z)
    (resize_method : string) (standardize_image : option string) :
  decode img_entry (Some num_channels) = Some img →
  num_channels_in_image img = 1 →
  num_channels ≠ 1 →
  let resized :=
    if should_resize then resize_image img (img_height, img_width) resize_method else img in
  let padded := resized ++ zero_channels resized (num_channels - 1) in
  read grayscale img_entry img_width img_height should_resize num_channels
       resize_method true standardize_image
  = ([ChannelsPaddedOrDropped 1 num_channels],
     if negb (Z.of_nat (Tensor.shape1 padded) =? img_height)
        || negb (Z.of_nat (Tensor.shape2 padded) =? img_width)
     then Raise (ValueError ImagesNotSameSize)
     else Return (Some (Tensor.map div255 padded))).
Proof.
  intros Hdec Hone Hne resized padded.
  rewrite (read_single_channel _ _ img) by assumption.
  fold resized. cbv zeta.
  rewrite reconcile_user_specified by congruence. fold padded. cbn.
  destruct (negb (Z.of_nat (Tensor.shape1 padded) =? img_height)
            || negb (Z.of_nat (Tensor.shape2 padded) =? img_width)); reflexivity.
Qed.

Lemma read_not_user_specified_mismatch
    (grayscale : tensor → tensor) (img_entry : entry) (img : tensor)
    (img_width img_height : Z) (should_resize : bool) (num_channels : Z)
    (resize_method : string) (standardize_image : option string) :
  decode img_entry (Some num_channels) = Some img →
  num_channels_in_image img = 1 →
  num_channels ≠ 1 →
  read grayscale img_entry img_width img_height should_resize num_channels
       resize_method false standardize_image
  = ([], Raise (ValueError ChannelsUnlikeFirstImage)).
Proof.
  intros Hdec Hone Hne.
  rewrite (read_single_channel _ _ img) by assumption.
  cbv zeta. by rewrite reconcile_not_user_specified by congruence.
Qed.

(** C7. Channel reconciliation, when the channel count of the image differs
    from [num_channels].  With a user-specified [num_channels] the image
    keeps all its channels, gets as many planes of zeros appended as it has
    too few, and a warning is logged; otherwise [ValueError] is raised.  In
    the read function, for a decoded image that reaches the reconciliation
    (one channel), this gives the warning and the padded image, rescaled,
    unless its size is not the expected one; otherwise the read fails with
    that [ValueError]. *)
Theorem channel_reconciliation
    (num_channels img_num_channels : Z) (img : tensor) :
  img_num_channels ≠ num_channels →
  reconcile_channels true num_channels img_num_channels img
  = ([ChannelsPaddedOrDropped img_num_channels num_channels],
     Return (img ++ zero_channels img (num_channels - img_num_channels)))
  ∧ reconcile_channels false num_channels img_num_channels img
    = ([], Raise (ValueError ChannelsUnlikeFirstImage))
  ∧ (∀ grayscale img_entry img_width img_height (should_resize : bool) resize_method
       standardize_image,
       decode img_entry (Some num_channels) = Some img →
       num_channels_in_image img = img_num_channels →
       img_num_channels = 1 →
       let resized :=
         if should_resize then resize_image img (img_height, img_width) resize_method
         else img in
       let padded := resized ++ zero_channels resized (num_channels - 1) in
       read grayscale img_entry img_width img_height should_resize num_channels
            resize_method true standardize_image
       = ([ChannelsPaddedOrDropped 1 num_channels],
          if negb (Z.of_nat (Tensor.shape1 padded) =? img_height)
             || negb (Z.of_nat (Tensor.shape2 padded) =? img_width)
          then Raise (ValueError ImagesNotSameSize)
          else Return (Some (Tensor.map div255 padded)))
       ∧ read grayscale img_entry img_width img_height should_resize num_channels
              resize_method false standardize_image
         = ([], Raise (ValueError ChannelsUnlikeFirstImage))).
Proof.
  intros Hne.
  split; [by apply reconcile_user_specified |].
  split; [by apply reconcile_not_user_specified |].
  intros grayscale img_entry img_width img_height should_resize resize_method
         standardize_image Hdec Hch Hone resized padded.
  subst img_num_channels. split.
  - apply (read_user_specified_mismatch _ _ img); congruence.
  - apply (read_not_user_specified_mismatch _ _ img); congruence.
Qed.

(** **** Parameter finalization *)

Lemma bind_return_inv {A B} (m : M A) (f : A → M B) (log : list warning) (b : B) :
  m ≫= f = (log, Return b) →
  ∃ l1 a l2, m = (l1, Return a) ∧ f a = (l2, Return b) ∧ log = l1 ++ l2.
Proof.
  destruct m as [l1 [a | e]]; unfold mbind, M_bind.
  - destruct (f a) as [l2 r] eqn:Hf. intros [= <- ->]. eauto 6.
  - intros [= _ ?].
Qed.

(** The adjustment of the two sizes leaves the other keys alone. *)
Lemma set_equal_keeps_flags (w h : Z) (p : PreprocessingConfigDict) :
  infer_image_dimensions (_set_image_and_height_equal_for_encoder w h p).2
  = infer_image_dimensions p.
Proof.
  unfold _set_image_and_height_equal_for_encoder.
  by destruct (requires_equal_dimensions p && negb (h =? w)).
Qed.

Lemma infer_image_size_keeps_flags
    (sample : list tensor) (mh mw h w : Z) (p q : PreprocessingConfigDict) :
  _infer_image_size sample mh mw p = Return (h, w, q) →
  infer_image_dimensions q = infer_image_dimensions p.
Proof.
  unfold _infer_image_size, ImageFeatureMixin_set_image_and_height_equal_for_encoder.
  destruct (Z.of_nat (length sample) =? 0); [discriminate |].
  match goal with
  | |- context [_set_image_and_height_equal_for_encoder ?a ?b p] =>
    pose proof (set_equal_keeps_flags a b p) as Hk;
    destruct (_set_image_and_height_equal_for_encoder a b p) as [[w' h'] p']
  end.
  cbn in Hk |- *. intros Heq. inversion Heq; subst. exact Hk.
Qed.

Lemma infer_image_size_returns (x : tensor) (rest : list tensor) (mh mw : Z)
    (p : PreprocessingConfigDict) :
  ∃ h w q, _infer_image_size (x :: rest) mh mw p = Return (h, w, q).
Proof.
  unfold _infer_image_size, ImageFeatureMixin_set_image_and_height_equal_for_encoder.
  destruct (Z.eqb_spec (Z.of_nat (length (x :: rest))) 0) as [H0 | _];
    [cbn [length] in H0; lia |].
  match goal with
  | |- context [_set_image_and_height_equal_for_encoder ?a ?b p] =>
    destruct (_set_image_and_height_equal_for_encoder a b p) as [[w' h'] p']
  end.
  eauto.
Qed.

(** With a user-specified channel count the read function never raises the
    error about channels that differ from the first image. *)
Lemma read_user_specified_no_channel_error
    (grayscale : tensor → tensor) (img_entry : entry) (img_width img_height : Z)
    (should_resize : bool) (num_channels : Z) (resize_method : string)
    (standardize_image : option string) :
  outcome (read grayscale img_entry img_width img_height should_resize num_channels
                resize_method true standardize_image)
  ≠ Raise (ValueError ChannelsUnlikeFirstImage).
Proof.
  destruct (decode img_entry (Some num_channels)) as [img |] eqn:Hdec.
  - destruct (decide (num_channels_in_image img = 1)) as [Hone | Hne].
    + rewrite (read_single_channel _ _ img) by assumption.
      cbv zeta. unfold reconcile_channels.
      repeat first
        [ progress cbv [outcome mbind M_bind warn mret M_ret raise snd app]
        | match goal with
          | |- context [if ?b then _ else _] => destruct b
          end ];
        discriminate.
    + rewrite (read_multi_channel _ _ img) by assumption. discriminate.
  - rewrite read_not_a_tensor by assumption. discriminate.
Qed.

(** C10. With [infer_image_dimensions] set and no explicit [num_channels],
    parameter finalization returns [user_specified_num_channels = True]
    together with the channel count inferred from the sample (and it does
    return when a sampled entry is readable and the size is left to
    inference).  With these two values the read function never raises the
    [ValueError] of the branch for channels that were not user-specified; an
    image that reaches the reconciliation with another channel count takes
    the padding branch: the call logs the warning of that branch and
    returns the resized image with planes of zeros appended up to the
    inferred count, rescaled (unless its size is not the expected one). *)
Theorem inferred_channel_count_is_user_specified
    (p : PreprocessingConfigDict) (encoder_type : string) (column : list entry) :
  infer_image_dimensions p = true →
  truthy (num_channels p) = false →
  let sample :=
    omap (λ e, (sample_entry read_image_from_path e).1)
         (head (Z.min (Z.of_nat (length column)) (infer_image_sample_size p)) column) in
  let finalize := _finalize_preprocessing_parameters read_image_from_path p encoder_type column in
  (sample ≠ [] → truthy (height p) || truthy (width p) = false →
   is_return (outcome finalize) = true)
  ∧ (∀ log fin p',
       finalize = (log, Return (fin, p')) →
       f_user_specified_num_channels fin = true
       ∧ _infer_number_of_channels sample = Return (f_num_channels fin)
       ∧ ∀ grayscale img_entry img_width img_height should_resize resize_method
           standardize_image,
           let r := read grayscale img_entry img_width img_height should_resize
                         (f_num_channels fin) resize_method
                         (f_user_specified_num_channels fin) standardize_image in
           outcome r ≠ Raise (ValueError ChannelsUnlikeFirstImage)
           ∧ (∀ img, decode img_entry (Some (f_num_channels fin)) = Some img →
                     num_channels_in_image img = 1 →
                     f_num_channels fin ≠ 1 →
                     let resized :=
                       if should_resize
                       then resize_image img (img_height, img_width) resize_method
                       else img in
                     let padded := resized ++ zero_channels resized (f_num_channels fin - 1) in
                     r = ([ChannelsPaddedOrDropped 1 (f_num_channels fin)],
                          if negb (Z.of_nat (Tensor.shape1 padded) =? img_height)
                             || negb (Z.of_nat (Tensor.shape2 padded) =? img_width)
                          then Raise (ValueError ImagesNotSameSize)
                          else Return (Some (Tensor.map div255 padded))))).
Proof.
  intros Hinf Hnc sample finalize. subst finalize.
  unfold _finalize_preprocessing_parameters.
  rewrite Hinf, Hnc. rewrite andb_false_r. cbn [negb andb].
  fold sample. split.
  - intros Hsample Hhw. rewrite Hhw.
    destruct sample as [| x rest] eqn:Hs; [contradiction |]. cbn [length Nat.eqb].
    unfold ImageFeatureMixin_infer_image_size.
    destruct (infer_image_size_returns x rest (infer_image_max_height p)
                (infer_image_max_width p) p) as (h & w & q & Hsz).
    rewrite Hsz.
    pose proof (infer_image_size_keeps_flags _ _ _ _ _ _ _ Hsz) as Hq.
    rewrite Hinf in Hq. cbn. rewrite Hq. cbn.
    destruct (bool_decide _ && negb _); reflexivity.
  - intros log fin p'.
    destruct (length sample =? 0)%nat; [discriminate |].
    intros H.
    apply bind_return_inv in H as (l1 & [[[sr w] h] q] & l2 & H1 & H2 & ->).
    cbn beta iota in H2.
    apply bind_return_inv in H2 as (l3 & [us nc] & l4 & H3 & H4 & ->).
    assert (Hq : infer_image_dimensions q = true).
    { destruct (truthy (height p) || truthy (width p)).
      - apply bind_return_inv in H1 as (? & h0 & ? & _ & H1 & _).
        apply bind_return_inv in H1 as (? & w0 & ? & _ & H1 & _).
        unfold ImageFeatureMixin_set_image_and_height_equal_for_encoder in H1.
        pose proof (set_equal_keeps_flags w0 h0 p) as Hk.
        destruct (_set_image_and_height_equal_for_encoder w0 h0 p) as [[w' h'] p0].
        destruct ((h' <=? 0) || (w' <=? 0)); [discriminate |].
        injection H1 as _ _ _ _ <-. cbn in Hk. congruence.
      - apply bind_return_inv in H1 as (? & [[h0 w0] q0] & ? & H0 & H1 & _).
        injection H0 as _ H0. injection H1 as _ _ _ _ <-.
        apply infer_image_size_keeps_flags in H0. congruence. }
    rewrite Hq in H3.
    apply bind_return_inv in H3 as (? & nc0 & ? & H0 & H3 & _).
    injection H0 as _ H0. injection H3 as _ <- <-.
    apply bind_return_inv in H4 as (? & st & ? & _ & H4 & _).
    injection H4 as _ <- _. cbn [f_user_specified_num_channels f_num_channels].
    split; [reflexivity | split; [exact H0 |]].
    intros grayscale img_entry img_width img_height should_resize resize_method
           standardize_image. cbv zeta. split.
    + apply read_user_specified_no_channel_error.
    + intros img Hdec Hone Hne.
      exact (read_user_specified_mismatch _ _ img _ _ _ _ _ _ Hdec Hone Hne).
Qed.

End Reader.

Lemma grayscale_branch_unreachable_witness :
  Fixture.read (ETensor Fixture.rgb_pixel) 1 1 true 1 "interpolate" true None
  = ([], Raise AssertionError).
Proof.
  destruct (grayscale_branch_unreachable
              Fixture.div255 Fixture.read_image_from_bytes_obj Fixture.read_image_from_path
              Fixture.resize_image (ETensor Fixture.rgb_pixel) 1 1 true 1 "interpolate" true None)
    as [Hassert _].
  apply (Hassert Fixture.grayscale Fixture.rgb_pixel); [reflexivity | discriminate].
Defined.

Lemma channel_reconciliation_witness :
  1 ≠ 3
  ∧ Fixture.read (ETensor Fixture.square_image) 2 2 true 3 "interpolate" true None
    = ([ChannelsPaddedOrDropped 1 3],
       Return (Some [[[0 # 255; 51 # 255]; [102 # 255; 255 # 255]];
                     [[0 # 255; 0 # 255]; [0 # 255; 0 # 255]];
                     [[0 # 255; 0 # 255]; [0 # 255; 0 # 255]]]))
  ∧ Fixture.read (ETensor Fixture.square_image) 2 2 true 3 "interpolate" false None
    = ([], Raise (ValueError ChannelsUnlikeFirstImage)).
Proof.
  split; [discriminate |].
  destruct (channel_reconciliation
              Fixture.div255 Fixture.read_image_from_bytes_obj Fixture.read_image_from_path
              Fixture.resize_image 3 1 Fixture.square_image ltac:(discriminate))
    as (_ & _ & Hread).
  exact (Hread Fixture.grayscale (ETensor Fixture.square_image) 2 2 true
               "interpolate"%string None eq_refl eq_refl eq_refl).
Defined.

Lemma inferred_channel_count_witness :
  let p := Fixture.parameters None None None true in
  let column := [ETensor Fixture.square_image; ETensor Fixture.rgb_pixel] in
  infer_image_dimensions p = true
  ∧ truthy (num_channels p) = false
  ∧ ∃ log fin p',
      Fixture.finalize p "dense" column = (log, Return (fin, p'))
      ∧ f_user_specified_num_channels fin = true
      ∧ f_num_channels fin = 3
      ∧ Fixture.read (ETensor Fixture.square_image) (f_width fin) (f_height fin)
          (f_should_resize fin) (f_num_channels fin) "interpolate"
          (f_user_specified_num_channels fin) (f_standardize_image fin)
        = ([ChannelsPaddedOrDropped 1 3],
           Return (Some [[[0 # 255; 51 # 255]; [102 # 255; 255 # 255]];
                         [[0 # 255; 0 # 255]; [0 # 255; 0 # 255]];
                         [[0 # 255; 0 # 255]; [0 # 255; 0 # 255]]])).
Proof.
  intros p column. split; [reflexivity |]. split; [reflexivity |].
  destruct (inferred_channel_count_is_user_specified
              Fixture.div255 Fixture.read_image_from_bytes_obj Fixture.read_image_from_path
              Fixture.resize_image p "dense" column eq_refl eq_refl) as [_ Hinv].
  eexists _, _, _. split; [reflexivity |].
  edestruct Hinv as (Hus & _ & Hread); [reflexivity |].
  split; [exact Hus |]. split; [reflexivity |].
  destruct (Hread Fixture.grayscale (ETensor Fixture.square_image) 2 2 true
              "interpolate" None) as [_ Hpad].
  exact (Hpad Fixture.square_image eq_refl eq_refl ltac:(discriminate)).
Defined.

End ReadProperties.

(* ===================================================================== *)
(** ** Properties of the parameter finalization *)
(* ===================================================================== *)

Module FinalizeProperties.
Import Vector2D Spec.

Section Finalize.
Variable read_image_from_path : string → option Z → option tensor * option Z.

#[local] Abbreviation finalize := (_finalize_preprocessing_parameters read_image_from_path).

(** X5. [_set_image_and_height_equal_for_encoder] never enlarges a size.
    When the encoder requires equal dimensions both sizes come back as the
    smaller of the two, otherwise nothing changes; the dictionary is
    updated only when the sizes were changed, and then holds the returned
    sizes; no other key of the dictionary is touched; and the function is
    idempotent: applied to its own result it changes nothing. *)
Theorem set_equal_for_encoder_spec (w h : Z) (p : PreprocessingConfigDict) :
  let '(w', h', p') := _set_image_and_height_equal_for_encoder w h p in
  w' ≤ w ∧ h' ≤ h
  ∧ (requires_equal_dimensions p = true → w' = Z.min w h ∧ h' = Z.min w h)
  ∧ (requires_equal_dimensions p = false → (w', h', p') = (w, h, p))
  ∧ (p' = p ∨ (w ≠ h ∧ width p' = Some w' ∧ height p' = Some h'))
  ∧ (num_channels p', infer_image_dimensions p', infer_image_sample_size p',
     infer_image_max_height p', infer_image_max_width p', requires_equal_dimensions p',
     standardize_image p', resize_method p', in_memory p')
    = (num_channels p, infer_image_dimensions p, infer_image_sample_size p,
       infer_image_max_height p, infer_image_max_width p, requires_equal_dimensions p,
       standardize_image p, resize_method p, in_memory p)
  ∧ _set_image_and_height_equal_for_encoder w' h' p' = (w', h', p').
Proof.
  unfold _set_image_and_height_equal_for_encoder.
  destruct (requires_equal_dimensions p) eqn:Hreq; cbn [andb].
  - destruct (Z.eqb_spec h w) as [-> | Hne]; cbn [negb].
    + rewrite Hreq, Z.eqb_refl. cbn.
      repeat split; try lia; auto; try discriminate.
    + cbn. rewrite Hreq, Z.eqb_refl. cbn.
      repeat split; try lia; auto; try discriminate.
  - rewrite Hreq. cbn. repeat split; try lia; auto; try discriminate.
Qed.

Lemma finalize_unfold_sample (p : PreprocessingConfigDict) (enc : string) (column : list entry) :
  (length (sample read_image_from_path p column) =? 0)%nat = true →
  finalize p enc column
  = raise (if forallb is_str (filter (λ e, (sample_entry read_image_from_path e).1 = None)
                                (sampled p column))
           then ValueError DimensionsCannotBeInferred
           else TypeError JoinExpectedStr).
Proof.
  intros H. unfold _finalize_preprocessing_parameters.
  change (omap _ (head _ column)) with (sample read_image_from_path p column) at 1.
  rewrite H. reflexivity.
Qed.

Lemma set_equal_result (w h : Z) (p : PreprocessingConfigDict) :
  ∃ w' h' p',
    _set_image_and_height_equal_for_encoder w h p = (w', h', p')
    ∧ (requires_equal_dimensions p = true → w' = h')
    ∧ w' ≤ w ∧ h' ≤ h
    ∧ (w' ≤ 0 ∨ h' ≤ 0 ↔ w ≤ 0 ∨ h ≤ 0)
    ∧ infer_image_dimensions p' = infer_image_dimensions p
    ∧ standardize_image p' = standardize_image p
    ∧ num_channels p' = num_channels p.
Proof.
  unfold _set_image_and_height_equal_for_encoder.
  destruct (requires_equal_dimensions p) eqn:Hreq; cbn [andb].
  - destruct (Z.eqb_spec h w) as [-> | Hne]; cbn [negb];
      eexists _, _, _; (split; [reflexivity |]); cbn; repeat split; intros; lia.
  - eexists _, _, _; (split; [reflexivity |]); cbn; repeat split; intros; try lia; discriminate.
Qed.

Lemma finalize_returns (p : PreprocessingConfigDict) (enc : string) (column : list entry) :
  sample read_image_from_path p column ≠ [] →
  (if explicit_size p
   then ∃ h w, height p = Some h ∧ width p = Some w ∧ 0 < h ∧ 0 < w
   else infer_image_dimensions p = true) →
  is_return (outcome (finalize p enc column)) = true.
Proof.
  intros Hs Hcond. unfold _finalize_preprocessing_parameters.
  change (omap (λ e, (sample_entry read_image_from_path e).1) (head _ column))
    with (sample read_image_from_path p column).
  fold (explicit_size p).
  destruct (sample read_image_from_path p column) as [| x rest]; [contradiction |].
  cbn [length Nat.eqb].
  unfold ImageFeatureMixin_infer_number_of_channels, _infer_number_of_channels,
    ImageFeatureMixin_infer_image_size, _infer_image_size,
    ImageFeatureMixin_set_image_and_height_equal_for_encoder.
  destruct (explicit_size p).
  - destruct Hcond as (h & w & Hh & Hw & Hhp & Hwp). rewrite Hh, Hw.
    cbn [int mbind M_bind mret M_ret app].
    destruct (set_equal_result w h p) as (w' & h' & p0 & Hse & _ & _ & _ & Hpos & _).
    rewrite Hse.
    destruct (Z.leb_spec h' 0); [lia |]. destruct (Z.leb_spec w' 0); [lia |].
    cbv zeta.
    repeat first
      [ progress cbn [mbind M_bind mret M_ret lift warn raise outcome snd fst app is_return orb]
      | match goal with |- context [if ?b then _ else _] => destruct b end ];
      reflexivity.
  - rewrite Hcond.
    destruct (Z.eqb_spec (Z.of_nat (length (x :: rest))) 0) as [H0 | _];
      [cbn [length] in H0; lia |].
    cbv zeta.
    match goal with
    | |- context [_set_image_and_height_equal_for_encoder ?a ?b p] =>
      destruct (set_equal_result a b p) as (w' & h' & p0 & Hse & _); rewrite Hse
    end.
    repeat first
      [ progress cbn [mbind M_bind mret M_ret lift warn raise outcome snd fst app is_return orb]
      | match goal with |- context [if ?b then _ else _] => destruct b end ];
      reflexivity.
Qed.

(** X8. The outcomes of the parameter finalization.  Without a readable
    image among the sampled rows it raises: the [ValueError] about
    dimensions that cannot be inferred when every failed entry is a path
    (as for an empty column), and otherwise the [TypeError] of the
    [str.join] that builds the message.  With a readable image it raises
    [TypeError] when a size is given and one of the two is [None] ([int(None)]),
    [ValueError] when a given size is not positive, and [ValueError] when
    no size is given and inference is off.  In every other case it
    returns. *)
Theorem finalize_outcomes (p : PreprocessingConfigDict) (enc : string) (column : list entry) :
  let failed := filter (λ e, (sample_entry read_image_from_path e).1 = None) (sampled p column) in
  (sample read_image_from_path p column = [] →
   finalize p enc column
   = raise (if forallb is_str failed then ValueError DimensionsCannotBeInferred
            else TypeError JoinExpectedStr))
  ∧ finalize p enc [] = raise (ValueError DimensionsCannotBeInferred)
  ∧ (sample read_image_from_path p column ≠ [] → explicit_size p = true →
     height p = None ∨ width p = None →
     finalize p enc column = raise (TypeError IntOfNone))
  ∧ (∀ h w, sample read_image_from_path p column ≠ [] → explicit_size p = true →
       height p = Some h → width p = Some w → h ≤ 0 ∨ w ≤ 0 →
       finalize p enc column = raise (ValueError HeightWidthNotPositive))
  ∧ (sample read_image_from_path p column ≠ [] → explicit_size p = false → infer_image_dimensions p = false →
     finalize p enc column = raise (ValueError HeightWidthUnknown))
  ∧ (is_return (outcome (finalize p enc column)) = true ↔
     sample read_image_from_path p column ≠ []
     ∧ if explicit_size p
       then ∃ h w, height p = Some h ∧ width p = Some w ∧ 0 < h ∧ 0 < w
       else infer_image_dimensions p = true).
Proof.
  intros failed.
  cut ((sample read_image_from_path p column = [] →
        finalize p enc column
        = raise (if forallb is_str failed then ValueError DimensionsCannotBeInferred
                 else TypeError JoinExpectedStr))
       ∧ finalize p enc [] = raise (ValueError DimensionsCannotBeInferred)
       ∧ (sample read_image_from_path p column ≠ [] → explicit_size p = true →
          height p = None ∨ width p = None →
          finalize p enc column = raise (TypeError IntOfNone))
       ∧ (∀ h w, sample read_image_from_path p column ≠ [] → explicit_size p = true →
            height p = Some h → width p = Some w → h ≤ 0 ∨ w ≤ 0 →
            finalize p enc column = raise (ValueError HeightWidthNotPositive))
       ∧ (sample read_image_from_path p column ≠ [] → explicit_size p = false → infer_image_dimensions p = false →
          finalize p enc column = raise (ValueError HeightWidthUnknown))).
  { intros (H1 & H2 & H3 & H4 & H5).
    do 5 (split; [assumption |]). split.
    - intros Hret.
      destruct (decide (sample read_image_from_path p column = [])) as [Hs | Hs];
        [rewrite (H1 Hs) in Hret; discriminate |].
      split; [exact Hs |].
      destruct (explicit_size p) eqn:Hex.
      + destruct (height p) as [h |] eqn:Hh;
          [| rewrite (H3 Hs eq_refl (or_introl eq_refl)) in Hret; discriminate].
        destruct (width p) as [w |] eqn:Hw;
          [| rewrite (H3 Hs eq_refl (or_intror eq_refl)) in Hret; discriminate].
        exists h, w. do 2 (split; [reflexivity |]).
        destruct (decide (h ≤ 0 ∨ w ≤ 0)) as [Hbad | Hok]; [| lia].
        rewrite (H4 h w Hs eq_refl eq_refl eq_refl Hbad) in Hret. discriminate.
      + destruct (infer_image_dimensions p) eqn:Hinf; [reflexivity |].
        rewrite (H5 Hs eq_refl eq_refl) in Hret. discriminate.
    - intros [Hs Hcond]. by apply finalize_returns. }
  assert (Hne : ∀ P : Prop, sample read_image_from_path p column ≠ [] →
            (length (omap (λ e, (sample_entry read_image_from_path e).1)
                          (head (sample_size p column) column)) =? 0)%nat = false).
  { intros _ Hs. fold (sampled p column). fold (sample read_image_from_path p column).
    destruct (sample read_image_from_path p column); [contradiction | reflexivity]. }
  split; [| split; [| split; [| split]]].
  - intros Hs. apply finalize_unfold_sample. by rewrite Hs.
  - rewrite finalize_unfold_sample.
    + unfold sampled, head. by destruct (0 <=? sample_size p []); rewrite take_nil.
    + unfold sample, sampled, head. by destruct (0 <=? sample_size p []); rewrite take_nil.
  - intros Hs Hex Hnone. specialize (Hne True Hs).
    unfold _finalize_preprocessing_parameters. unfold sample_size, explicit_size in *.
    rewrite Hne, Hex.
    destruct Hnone as [-> | Hw]; [reflexivity |].
    rewrite Hw. by destruct (height p).
  - intros h w Hs Hex Hh Hw Hbad. specialize (Hne True Hs).
    unfold _finalize_preprocessing_parameters. unfold sample_size, explicit_size in *.
    rewrite Hne, Hex, Hh, Hw.
    cbn [int mbind M_bind mret M_ret app].
    unfold ImageFeatureMixin_set_image_and_height_equal_for_encoder,
      _set_image_and_height_equal_for_encoder.
    destruct (requires_equal_dimensions p && negb (h =? w)).
    + destruct (Z.leb_spec (Z.min w h) 0); [reflexivity | lia].
    + destruct (Z.leb_spec h 0), (Z.leb_spec w 0); try reflexivity; lia.
  - intros Hs Hex Hinf. specialize (Hne True Hs).
    unfold _finalize_preprocessing_parameters. unfold sample_size, explicit_size in *.
    rewrite Hne, Hex, Hinf. reflexivity.
Qed.

(** What a call of the parameter finalization that returns went through:
    the three steps (size, channel count, standardization), each with what
    it leaves behind. *)
Lemma finalize_returns_inv
    (p : PreprocessingConfigDict) (enc : string) (column : list entry)
    (log : list warning) (fin : finalized) (p' : PreprocessingConfigDict) :
  finalize p enc column = (log, Return (fin, p')) →
  f_should_resize fin = true
  ∧ sample read_image_from_path p column ≠ []
  ∧ (requires_equal_dimensions p = true → f_width fin = f_height fin)
  ∧ (explicit_size p = true →
     0 < f_width fin ∧ 0 < f_height fin
     ∧ f_width fin ≤ default 0 (width p) ∧ f_height fin ≤ default 0 (height p))
  ∧ (explicit_size p = false →
     f_width fin ≤ infer_image_max_width p ∧ f_height fin ≤ infer_image_max_height p)
  ∧ (f_standardize_image fin = Some IMAGENET1K → f_num_channels fin = 3)
  ∧ (f_standardize_image fin = standardize_image p
     ∧ log = []
     ∨ f_standardize_image fin = None
       ∧ standardize_image p = Some IMAGENET1K
       ∧ log = [StandardizeOnlyFor3Channels (f_num_channels fin)])
  ∧ (f_user_specified_num_channels fin = false →
     infer_image_dimensions p = false
     ∧ ∃ x, sample read_image_from_path p column !! 0%nat = Some x ∧ f_num_channels fin = num_channels_in_image x)
  ∧ (f_user_specified_num_channels fin = true →
     num_channels p = Some (f_num_channels fin) ∧ f_num_channels fin ≠ 0
     ∨ truthy (num_channels p) = false ∧ infer_image_dimensions p = true
       ∧ ImageFeatureMixin_infer_number_of_channels (sample read_image_from_path p column)
         = Return (f_num_channels fin)
       ∧ 1 ≤ f_num_channels fin ≤ 4).
Proof.
  intros H. unfold _finalize_preprocessing_parameters in H.
  change (omap (λ e, (sample_entry read_image_from_path e).1) (head _ column))
    with (sample read_image_from_path p column) in H.
  fold (explicit_size p) in H.
  destruct (sample read_image_from_path p column) as [| x rest] eqn:Hs; [discriminate |].
  cbn [length Nat.eqb] in H.
  apply ReadProperties.bind_return_inv in H as (l1 & [[[sr w] h] q] & l2 & H1 & H2 & ->).
  cbn beta iota in H2.
  apply ReadProperties.bind_return_inv in H2 as (l3 & [us nc] & l4 & H3 & H4 & ->).
  apply ReadProperties.bind_return_inv in H4 as (l5 & st & l6 & H5 & H6 & ->).
  injection H6 as <- <- <-. cbn [f_should_resize f_width f_height f_num_channels
    f_user_specified_num_channels f_standardize_image].
  (* the size step *)
  assert (Hsize :
    sr = true ∧ l1 = []
    ∧ infer_image_dimensions q = infer_image_dimensions p
    ∧ standardize_image q = standardize_image p
    ∧ num_channels q = num_channels p
    ∧ (requires_equal_dimensions p = true → w = h)
    ∧ (explicit_size p = true →
       0 < w ∧ 0 < h ∧ w ≤ default 0 (width p) ∧ h ≤ default 0 (height p))
    ∧ (explicit_size p = false →
       w ≤ infer_image_max_width p ∧ h ≤ infer_image_max_height p)).
  { destruct (explicit_size p) eqn:Hex.
    - apply ReadProperties.bind_return_inv in H1 as (? & h0 & ? & Hh & H1 & ->).
      apply ReadProperties.bind_return_inv in H1 as (? & w0 & ? & Hw & H1 & ->).
      destruct (height p) as [hh |]; [| discriminate].
      destruct (width p) as [ww |]; [| discriminate].
      injection Hh as <- <-. injection Hw as <- <-.
      unfold ImageFeatureMixin_set_image_and_height_equal_for_encoder in H1.
      destruct (set_equal_result ww hh p) as (w' & h' & p0 & Hse & Heq & Hw' & Hh' & Hpos & Hi & Hst & Hnc).
      rewrite Hse in H1.
      destruct (Z.leb_spec h' 0), (Z.leb_spec w' 0); try discriminate.
      cbn in H1. injection H1 as <- <- <- <- <-. cbn.
      repeat split; auto; try lia; discriminate.
    - destruct (infer_image_dimensions p) eqn:Hinf; [| discriminate].
      apply ReadProperties.bind_return_inv in H1 as (? & [[h0 w0] q0] & ? & H0 & H1 & ->).
      injection H1 as <- <- <- <- <-. injection H0 as <- H0.
      unfold ImageFeatureMixin_infer_image_size, _infer_image_size,
        ImageFeatureMixin_set_image_and_height_equal_for_encoder in H0.
      destruct (Z.of_nat (length (x :: rest)) =? 0); [discriminate |].
      match type of H0 with
      | context [_set_image_and_height_equal_for_encoder ?a ?b p] =>
        destruct (set_equal_result a b p) as (w' & h' & p0 & Hse & Heq & Hw' & Hh' & _ & Hi & Hst & Hnc);
        rewrite Hse in H0
      end.
      injection H0 as <- <- <-. cbn.
      repeat split; auto; try lia; try discriminate; congruence. }
  destruct Hsize as (-> & -> & Hqi & Hqs & Hqn & Heq & Hexp & Hinfd).
  split; [reflexivity |]. split; [discriminate |]. split; [exact Heq |].
  split; [exact Hexp |]. split; [exact Hinfd |].
  (* the standardize step *)
  assert (Hstd :
    (st = Some IMAGENET1K → nc = 3)
    ∧ (st = standardize_image p ∧ l5 = []
       ∨ st = None ∧ standardize_image p = Some IMAGENET1K
         ∧ l5 = [StandardizeOnlyFor3Channels nc])).
  { rewrite Hqs in H5.
    destruct (bool_decide (standardize_image p = Some IMAGENET1K)) eqn:Hbd.
    - apply bool_decide_eq_true_1 in Hbd.
      destruct (Z.eqb_spec nc 3) as [-> | Hnc]; cbn in H5; injection H5 as <- <-.
      + split; [reflexivity | left; split; reflexivity].
      + split; [discriminate | right; auto].
    - apply bool_decide_eq_false_1 in Hbd. cbn in H5. injection H5 as <- <-.
      split; [intros; contradiction | left; split; reflexivity]. }
  destruct Hstd as [Hst3 Hstlog].
  (* the channel step *)
  assert (Hch : l3 = []
    ∧ (us = false → infer_image_dimensions p = false ∧ nc = num_channels_in_image x)
    ∧ (us = true →
       num_channels p = Some nc ∧ nc ≠ 0
       ∨ truthy (num_channels p) = false ∧ infer_image_dimensions p = true
         ∧ ImageFeatureMixin_infer_number_of_channels (x :: rest) = Return nc
         ∧ 1 ≤ nc ≤ 4)).
  { rewrite Hqi, Hqn in H3.
    destruct (truthy (num_channels p)) eqn:Htr.
    - injection H3 as <- <- <-. split; [reflexivity |]. split; [discriminate |].
      intros _. left. unfold truthy in Htr.
      destruct (num_channels p) as [z |]; [| discriminate]. cbn.
      destruct (Z.eqb_spec z 0); [discriminate | by split].
    - destruct (infer_image_dimensions p).
      + apply ReadProperties.bind_return_inv in H3 as (? & nc0 & ? & H0 & H3 & ->).
        injection H3 as <- <- <-. split.
        { by injection H0 as <- _. }
        split; [discriminate |]. intros _. right.
        injection H0 as _ H0. rewrite <- H0. do 3 (split; [reflexivity |]).
        repeat match goal with |- context [if ?b then _ else _] => destruct b end; lia.
      + injection H3 as <- <- <-. split; [reflexivity |]. split; [auto | discriminate]. }
  destruct Hch as (-> & Hus & Hust).
  split; [exact Hst3 |]. split; [| split].
  - cbn [app]. rewrite app_nil_r. exact Hstlog.
  - intros Hf. destruct (Hus Hf) as [Hi Hn]. split; [exact Hi |].
    exists x. split; [reflexivity | exact Hn].
  - exact Hust.
Qed.

Lemma head_take {A} (k : Z) (n : nat) (l : list A) :
  0 ≤ k ≤ Z.of_nat n → head k (take n l) = head k l.
Proof.
  intros Hk. unfold head. destruct (Z.leb_spec 0 k); [| lia].
  rewrite take_take. f_equal. lia.
Qed.

Lemma sampled_take (p : PreprocessingConfigDict) (n : nat) (column : list entry) :
  0 ≤ infer_image_sample_size p →
  sample_cap p ≤ Z.of_nat n →
  sampled p (take n column) = sampled p column.
Proof.
  intros H0 Hcap. unfold sampled, sample_size, sample_cap in *.
  destruct (infer_image_dimensions p && negb (explicit_size p && truthy (num_channels p))).
  - rewrite length_take.
    replace (Z.min (Z.of_nat (n `min` length column)) (infer_image_sample_size p))
      with (Z.min (Z.of_nat (length column)) (infer_image_sample_size p)) by lia.
    apply head_take. lia.
  - apply head_take. lia.
Qed.

(** X9. The parameter finalization reads only the head of the column: at
    most [infer_image_sample_size] rows when it infers something, at most one
    row otherwise; rows beyond that bound do not change its result.  (A
    negative [infer_image_sample_size] makes [column.head] count from the
    end of the column, hence the first hypothesis.) *)
Theorem finalize_reads_only_the_sample
    (p : PreprocessingConfigDict) (enc : string) (n : nat) (column : list entry) :
  0 ≤ infer_image_sample_size p →
  sample_cap p ≤ Z.of_nat n →
  (length (sampled p column) ≤ Z.to_nat (sample_cap p))%nat
  ∧ finalize p enc (take n column) = finalize p enc column.
Proof.
  intros H0 Hcap. split.
  - unfold sampled, sample_size, sample_cap, head.
    destruct (infer_image_dimensions p && negb (explicit_size p && truthy (num_channels p)));
      match goal with |- context [0 <=? ?x] => destruct (Z.leb_spec 0 x) end;
      rewrite length_take; lia.
  - pose proof (sampled_take p n column H0 Hcap) as Hs.
    unfold sampled, sample_size, explicit_size in Hs.
    unfold _finalize_preprocessing_parameters. rewrite Hs. reflexivity.
Qed.

(** X6. The sizes the parameter finalization returns.  It always asks for a
    resize, and it has read at least one image.  When the encoder requires
    equal dimensions the two sizes are equal.  Sizes taken from the
    dictionary are positive and not larger than the given ones; inferred
    sizes are not larger than [infer_image_max_width] and
    [infer_image_max_height]. *)
Theorem finalize_size_guarantees
    (p : PreprocessingConfigDict) (enc : string) (column : list entry)
    (log : list warning) (fin : finalized) (p' : PreprocessingConfigDict) :
  finalize p enc column = (log, Return (fin, p')) →
  f_should_resize fin = true
  ∧ sample read_image_from_path p column ≠ []
  ∧ (requires_equal_dimensions p = true → f_width fin = f_height fin)
  ∧ (explicit_size p = true →
     0 < f_width fin ∧ 0 < f_height fin
     ∧ f_width fin ≤ default 0 (width p) ∧ f_height fin ≤ default 0 (height p))
  ∧ (explicit_size p = false →
     f_width fin ≤ infer_image_max_width p ∧ f_height fin ≤ infer_image_max_height p).
Proof.
  intros H.
  destruct (finalize_returns_inv _ _ _ _ _ _ H) as (H1 & H2 & H3 & H4 & H5 & _).
  auto.
Qed.

(** X7. The channel count and the standardization the parameter
    finalization returns.  [imagenet1k] standardization is only kept for 3
    channels; for another count it is dropped with one warning, the only
    warning the function logs.  The channel count is flagged as not
    user-specified only with inference off and no count given, and is then
    the channel count of the first image read.  A count flagged as
    user-specified is the given one, which is not 0, or the one inferred
    from the sample, which lies between 1 and 4. *)
Theorem finalize_channel_guarantees
    (p : PreprocessingConfigDict) (enc : string) (column : list entry)
    (log : list warning) (fin : finalized) (p' : PreprocessingConfigDict) :
  finalize p enc column = (log, Return (fin, p')) →
  (f_standardize_image fin = Some IMAGENET1K → f_num_channels fin = 3)
  ∧ (f_standardize_image fin = standardize_image p
     ∧ log = []
     ∨ f_standardize_image fin = None
       ∧ standardize_image p = Some IMAGENET1K
       ∧ log = [StandardizeOnlyFor3Channels (f_num_channels fin)])
  ∧ (f_user_specified_num_channels fin = false →
     infer_image_dimensions p = false
     ∧ ∃ x, sample read_image_from_path p column !! 0%nat = Some x ∧ f_num_channels fin = num_channels_in_image x)
  ∧ (f_user_specified_num_channels fin = true →
     num_channels p = Some (f_num_channels fin) ∧ f_num_channels fin ≠ 0
     ∨ truthy (num_channels p) = false ∧ infer_image_dimensions p = true
       ∧ ImageFeatureMixin_infer_number_of_channels (sample read_image_from_path p column)
         = Return (f_num_channels fin)
       ∧ 1 ≤ f_num_channels fin ≤ 4).
Proof.
  intros H.
  destruct (finalize_returns_inv _ _ _ _ _ _ H) as (_ & _ & _ & _ & _ & H6 & H7 & H8 & H9).
  auto.
Qed.

End Finalize.

Lemma finalize_size_witness :
  let p := Fixture.options (Fixture.parameters (Some 3) (Some 2) (Some 1) false) true None in
  let fin := {| f_should_resize := true; f_width := 2; f_height := 2; f_num_channels := 1;
                f_user_specified_num_channels := true; f_average_file_size := None;
                f_standardize_image := None |} in
  Fixture.finalize p "dense" [ETensor Fixture.square_image]
  = ([], Return (fin, set_width_height p 2 2))
  ∧ (requires_equal_dimensions p = true → f_width fin = f_height fin)
  ∧ (explicit_size p = true →
     0 < f_width fin ∧ 0 < f_height fin ∧ f_width fin ≤ 2 ∧ f_height fin ≤ 3).
Proof.
  intros p fin.
  assert (H : Fixture.finalize p "dense" [ETensor Fixture.square_image]
              = ([], Return (fin, set_width_height p 2 2))) by reflexivity.
  split; [exact H |].
  destruct (finalize_size_guarantees Fixture.read_image_from_path p "dense" _ _ _ _ H)
    as (_ & _ & H3 & H4 & _).
  split; [exact H3 | exact H4].
Defined.

Lemma finalize_channel_witness :
  let p := Fixture.options (Fixture.parameters (Some 2) (Some 2) (Some 1) false)
             false (Some IMAGENET1K) in
  let fin := {| f_should_resize := true; f_width := 2; f_height := 2; f_num_channels := 1;
                f_user_specified_num_channels := true; f_average_file_size := None;
                f_standardize_image := None |} in
  Fixture.finalize p "dense" [ETensor Fixture.square_image]
  = ([StandardizeOnlyFor3Channels 1], Return (fin, p))
  ∧ (f_standardize_image fin = Some IMAGENET1K → f_num_channels fin = 3)
  ∧ (f_user_specified_num_channels fin = true →
     num_channels p = Some (f_num_channels fin) ∧ f_num_channels fin ≠ 0
     ∨ truthy (num_channels p) = false ∧ infer_image_dimensions p = true
       ∧ ImageFeatureMixin_infer_number_of_channels
           (sample Fixture.read_image_from_path p [ETensor Fixture.square_image])
         = Return (f_num_channels fin)
       ∧ 1 ≤ f_num_channels fin ≤ 4).
Proof.
  intros p fin.
  assert (H : Fixture.finalize p "dense" [ETensor Fixture.square_image]
              = ([StandardizeOnlyFor3Channels 1], Return (fin, p))) by reflexivity.
  split; [exact H |].
  destruct (finalize_channel_guarantees Fixture.read_image_from_path p "dense" _ _ _ _ H)
    as (H1 & _ & _ & H4).
  split; [exact H1 | exact H4].
Defined.

Lemma finalize_reads_witness :
  let p := Fixture.parameters (Some 2) (Some 2) (Some 1) false in
  let column := [ETensor Fixture.square_image; EOther; ETensor Fixture.tall_image] in
  0 ≤ infer_image_sample_size p
  ∧ sample_cap p ≤ Z.of_nat 1
  ∧ Fixture.finalize p "dense" (take 1 column) = Fixture.finalize p "dense" column.
Proof.
  intros p column.
  assert (H0 : 0 ≤ infer_image_sample_size p) by (vm_compute; discriminate).
  assert (H1 : sample_cap p ≤ Z.of_nat 1) by (vm_compute; discriminate).
  split; [exact H0 |]. split; [exact H1 |].
  destruct (finalize_reads_only_the_sample Fixture.read_image_from_path p "dense" 1 column
              H0 H1) as [_ H].
  exact H.
Defined.

Lemma finalize_outcomes_witness :
  let p := Fixture.parameters (Some 2) None (Some 1) false in
  let column := [ETensor Fixture.square_image] in
  sample Fixture.read_image_from_path p column ≠ []
  ∧ explicit_size p = true
  ∧ (height p = None ∨ width p = None)
  ∧ Fixture.finalize p "dense" column = raise (TypeError IntOfNone).
Proof.
  intros p column.
  assert (Hs : sample Fixture.read_image_from_path p column ≠ []) by discriminate.
  assert (Hex : explicit_size p = true) by reflexivity.
  assert (Hnone : height p = None ∨ width p = None) by (right; reflexivity).
  split; [exact Hs |]. split; [exact Hex |]. split; [exact Hnone |].
  destruct (finalize_outcomes Fixture.read_image_from_path p "dense" column)
    as (_ & _ & H3 & _).
  exact (H3 Hs Hex Hnone).
Defined.

End FinalizeProperties.

(* ===================================================================== *)
(** ** Properties of the cache writer *)
(* ===================================================================== *)

Module CacheProperties.
Import Vector2D Spec.



Section Writer.
Context {F : Type}.
Variable gray zero : F.
Variable read : entry → M (option (Tensor.t F)).

Lemma for_each_returns (column : list entry) :
  Forall (λ e, is_return (outcome (read e)) = true) column →
  for_each read column
  = (concat ((λ e, log_of (read e)) <$> column), Return ((λ e, returned (read e)) <$> column)).
Proof.
  induction 1 as [| e column He _ IH]; [reflexivity |].
  cbn [for_each fmap list_fmap concat]. rewrite IH.
  unfold returned, log_of, outcome in *.
  destruct (read e) as [l [v | ex]]; [| discriminate].
  cbn. by rewrite app_nil_r.
Qed.

Lemma Forall_stretch_same {A} (count : nat) (src : list A) :
  length src = count → H5.stretch count src = src.
Proof.
  intros <-. by destruct src as [| x [| y src]].
Qed.

Lemma assign_axis_same {A B} (count : nat) (f : B → A → A) (g : B → A)
    (src : list B) (dst : list A) :
  length src = count → length dst = count →
  (∀ s d, s ∈ src → d ∈ dst → f s d = g s) →
  H5.assign_axis count f src dst = g <$> src.
Proof.
  intros Hs Hd Hf. unfold H5.assign_axis.
  rewrite Forall_stretch_same by assumption.
  rewrite take_ge, drop_ge, app_nil_r by lia.
  subst count. revert dst Hd Hf.
  induction src as [| s src IH]; intros [| d dst] Hd Hf; try discriminate; [reflexivity |].
  cbn. rewrite Hf by constructor. f_equal.
  apply IH; [by injection Hd |].
  intros s' d' Hs' Hd'. apply Hf; by constructor.
Qed.

Lemma has_shape_channel {A} (c h w : nat) (x : Tensor.t A) (ch : list (list A)) :
  Tensor.has_shape c h w x → ch ∈ x →
  length ch = h ∧ Forall (λ row, length row = w) ch.
Proof. intros [_ Hx] Hch. by eapply Forall_forall in Hx. Qed.

(** Writing a value of the dataset's row shape over a whole row. *)
Lemma assign_whole_row (c h w : nat) (val old : Tensor.t F) :
  Tensor.has_shape c h w val → Tensor.has_shape c h w old →
  H5.assign_axis c (H5.assign_axis h (H5.assign_axis w (λ v _, v))) val old = val.
Proof.
  intros Hval Hold.
  rewrite (assign_axis_same c _ id); [apply list_fmap_id | apply Hval | apply Hold |].
  intros ch och Hch Hoch.
  destruct (has_shape_channel _ _ _ _ _ Hval Hch) as [Hlen Hrows].
  destruct (has_shape_channel _ _ _ _ _ Hold Hoch) as [Holen Horows].
  rewrite (assign_axis_same h _ id); [apply list_fmap_id | assumption | assumption |].
  intros row orow Hrow Horow.
  rewrite (assign_axis_same w _ id); [apply list_fmap_id | | | reflexivity].
  - by eapply Forall_forall in Hrows.
  - by eapply Forall_forall in Horows.
Qed.

Lemma Forall_eq_replicate {A} (l : list A) (v : A) :
  Forall (λ x, x = v) l → l = replicate (length l) v.
Proof. induction 1 as [| x l -> _ IH]; [reflexivity |]. cbn. by rewrite <- IH. Qed.

(** An array without entries is determined by its shape. *)
Lemma has_shape_empty {A} (c h w : nat) (x y : Tensor.t A) :
  Tensor.has_shape c h w x → Tensor.has_shape c h w y →
  (c * h * w = 0)%nat → x = y.
Proof.
  intros [Hxc Hx] [Hyc Hy] Hvol.
  destruct c as [| c'].
  { destruct x, y; try discriminate. reflexivity. }
  assert (Hhw : (h = 0 ∨ w = 0)%nat) by nia.
  destruct Hhw as [-> | ->].
  - transitivity (replicate (S c') ([] : list (list A))).
    + rewrite <- Hxc. apply Forall_eq_replicate.
      eapply Forall_impl; [exact Hx |]. intros ch [Hlen _]. by destruct ch.
    + rewrite <- Hyc. symmetry. apply Forall_eq_replicate.
      eapply Forall_impl; [exact Hy |]. intros ch [Hlen _]. by destruct ch.
  - transitivity (replicate (S c') (replicate h ([] : list A))).
    + rewrite <- Hxc. apply Forall_eq_replicate.
      eapply Forall_impl; [exact Hx |]. intros ch [Hlen Hrows].
      rewrite <- Hlen. apply Forall_eq_replicate.
      eapply Forall_impl; [exact Hrows |]. intros row Hrow. by destruct row.
    + rewrite <- Hyc. symmetry. apply Forall_eq_replicate.
      eapply Forall_impl; [exact Hy |]. intros ch [Hlen Hrows].
      rewrite <- Hlen. apply Forall_eq_replicate.
      eapply Forall_impl; [exact Hrows |]. intros row Hrow. by destruct row.
Qed.

Lemma has_shape_full {A} (c h w : nat) (v : A) : Tensor.has_shape c h w (Tensor.full c h w v).
Proof.
  unfold Tensor.has_shape, Tensor.full. split; [apply length_replicate |].
  apply Forall_replicate. split; [apply length_replicate |].
  apply Forall_replicate. apply length_replicate.
Qed.

Lemma has_shape_shape {A} (c h w : nat) (x : Tensor.t A) :
  Tensor.has_shape c h w x → (c * h * w ≠ 0)%nat → Tensor.shape x = (c, h, w).
Proof.
  intros [Hc Hx] Hvol. unfold Tensor.shape, Tensor.shape0, Tensor.shape1, Tensor.shape2.
  destruct x as [| ch x]; cbn in *; [subst; lia |].
  apply Forall_cons in Hx as [[Hh Hrows] _].
  destruct ch as [| row ch]; cbn in *; [subst; lia |].
  apply Forall_cons in Hrows as [Hw _]. congruence.
Qed.

Lemma alter_as_insert {A} (f : A → A) (l : list A) (i : nat) (x : A) :
  l !! i = Some x → alter f i l = <[i := f x]> l.
Proof.
  intros Hi. apply list_eq. intros j.
  destruct (decide (i = j)) as [<- | Hne].
  - rewrite list_lookup_alter_eq, Hi.
    by rewrite list_lookup_insert_eq by (by eapply lookup_lt_Some).
  - by rewrite list_lookup_alter_ne, list_lookup_insert_ne.
Qed.

Lemma slice_stop_covers (stop len : nat) :
  (len ≤ stop)%nat → slice_stop (Z.of_nat stop) len = len.
Proof.
  intros Hle. unfold slice_stop.
  destruct (Z.ltb_spec (Z.of_nat stop) 0); lia.
Qed.

(** When [num_channels <= height <= width] the slice
    [i, :height, :width, :] covers row [i], and writing an array of the
    row's shape replaces the row. *)
Lemma setitem_whole_row
    (ds : H5.dataset F) (n c h w i : nat) (val old : Tensor.t F) :
  H5.shape ds = (n, c, h, w) →
  (c ≤ h)%nat → (h ≤ w)%nat →
  H5.data ds !! i = Some old → (i < n)%nat →
  Tensor.has_shape c h w old → Tensor.has_shape c h w val →
  H5.setitem ds i (Z.of_nat h) (Z.of_nat w) val
  = Return {| H5.shape := H5.shape ds; H5.data := <[i := val]> (H5.data ds) |}.
Proof.
  intros Hshape Hch Hhw Hold Hi Hso Hsv. unfold H5.setitem. rewrite Hshape.
  destruct (Nat.leb_spec n i); [lia |].
  rewrite !slice_stop_covers by assumption.
  destruct (Nat.eqb_spec (c * h * w) 0) as [Hvol | Hvol].
  - rewrite (has_shape_empty c h w val old) by assumption.
    rewrite list_insert_id by assumption.
    destruct ds as [sh dt]. cbn in Hshape. by subst sh.
  - pose proof (has_shape_shape c h w val Hsv Hvol) as Hv.
    injection Hv as -> -> ->.
    unfold H5.fits. rewrite !Nat.eqb_refl, !orb_true_r. cbn [andb].
    rewrite (alter_as_insert _ _ _ old) by assumption.
    rewrite assign_whole_row; [reflexivity | |]; unfold Tensor.has_shape in *; tauto.
Qed.

#[local] Abbreviation stored := (Spec.stored read).
#[local] Abbreviation failures := (Spec.failures read).

Lemma write_rows_all (c h w : nat) (height width : Z) (default_image : Tensor.t F) :
  height = Z.of_nat h → width = Z.of_nat w →
  (c ≤ h)%nat → (h ≤ w)%nat →
  Tensor.has_shape c h w default_image →
  ∀ (es : list entry) (k n cnt : nat) (done rest : list (Tensor.t F)),
    Forall (λ e, is_return (outcome (read e)) = true
                 ∧ ∀ a, returned (read e) = Some a → Tensor.has_shape c h w a) es →
    length done = k → length rest = length es → n = (k + length es)%nat →
    Forall (Tensor.has_shape c h w) rest →
    ∃ log,
      write_rows read default_image height width
        (zip (seq k (length es)) es)
        ({| H5.shape := (n, c, h, w); H5.data := done ++ rest |}, cnt)
      = (log, Return ({| H5.shape := (n, c, h, w);
                         H5.data := done ++ (stored default_image <$> es) |},
                      (cnt + failures es)%nat)).
Proof.
  intros -> -> Hch Hhw Hdef es.
  induction es as [| e es IH]; intros k n cnt done rest Hes Hdone Hrest Hn Hshapes.
  - destruct rest; [| discriminate]. cbn. rewrite Nat.add_0_r. eauto.
  - destruct rest as [| old rest]; [discriminate |].
    apply Forall_cons in Hes as [[Hret Hval] Hes].
    apply Forall_cons in Hshapes as [Hold Hshapes].
    cbn [length seq zip zip_with write_rows].
    unfold Spec.failures, Spec.stored. cbn [fmap list_fmap]. rewrite filter_cons.
    unfold returned, outcome in *.
    destruct (read e) as [l [[a |] | ex]] eqn:Hread; [| | discriminate]; cbn [snd] in *.
    + specialize (Hval a eq_refl).
      destruct (IH (S k) n cnt (done ++ [a]) rest) as [log Hlog]; try assumption.
      { rewrite length_app. cbn. lia. }
      { by injection Hrest. }
      { cbn in Hn. lia. }
      rewrite <- !app_assoc in Hlog. cbn [app] in Hlog.
      unfold Spec.failures, Spec.stored, returned, outcome in Hlog.
      cbn [mbind M_bind fst snd lift mret M_ret].
      erewrite (setitem_whole_row _ n c h w k a old); try eassumption; try reflexivity.
      2: { cbn. rewrite lookup_app_r by lia. by rewrite Hdone, Nat.sub_diag. }
      2: { cbn in Hn. lia. }
      cbn [H5.shape H5.data app mbind M_bind fst snd lift mret M_ret].
      rewrite insert_app_r_alt by lia. rewrite Hdone, Nat.sub_diag. cbn [insert list_insert].
      rewrite Hlog. destruct (decide (Some a = None)); [discriminate |].
      eexists. cbn [default]. reflexivity.
    + destruct (IH (S k) n (S cnt) (done ++ [default_image]) rest) as [log Hlog]; try assumption.
      { rewrite length_app. cbn. lia. }
      { by injection Hrest. }
      { cbn in Hn. lia. }
      rewrite <- !app_assoc in Hlog. cbn [app] in Hlog.
      unfold Spec.failures, Spec.stored, returned, outcome in Hlog.
      cbn [mbind M_bind fst snd lift mret M_ret warn].
      erewrite (setitem_whole_row _ n c h w k default_image old); try eassumption; try reflexivity.
      2: { cbn. rewrite lookup_app_r by lia. by rewrite Hdone, Nat.sub_diag. }
      2: { cbn in Hn. lia. }
      cbn [H5.shape H5.data app mbind M_bind fst snd lift mret M_ret].
      rewrite insert_app_r_alt by lia. rewrite Hdone, Nat.sub_diag. cbn [insert list_insert].
      rewrite Hlog. destruct (decide (@None (Tensor.t F) = None)); [| congruence].
      eexists. cbn [default length]. do 3 f_equal. lia.
Qed.


Lemma length_failed_rows (column : list entry) :
  length (filter (λ row, row = None) ((λ e, returned (read e)) <$> column))
  = failures column.
Proof.
  unfold Spec.failures. induction column as [| e column IH]; [reflexivity |].
  cbn [fmap list_fmap]. rewrite !filter_cons.
  destruct (decide (returned (read e) = None)); cbn [length]; by rewrite IH.
Qed.

(** X1. The in-memory path. When the read function returns for every row, the
    processed column has one array per row of the input, the array the read
    function returned or else the default image; the number of rows without
    an array is counted, and reported in one warning after the pass when it
    is not zero. *)
Theorem in_memory_path_keeps_every_row (C H W : Z) (column : list entry) :
  0 ≤ C → 0 ≤ H → 0 ≤ W →
  Forall (λ e, is_return (outcome (read e)) = true) column →
  let default_image := Tensor.full (Z.to_nat C) (Z.to_nat H) (Z.to_nat W) gray in
  let rows := stored default_image <$> column in
  let failed := failures column in
  length rows = length column
  ∧ process_column gray zero read C H W true column
    = (concat ((λ e, log_of (read e)) <$> column)
         ++ (if (0 <? failed)%nat then [FailedToReadImages failed] else []),
       Return {| proc_column := Arrays rows;
                 image_dataset := None;
                 reshape := (C, H, W);
                 num_failed_image_reads := failed |}).
Proof.
  intros HC HH HW Hret default_image rows failed.
  split; [subst rows; apply length_fmap |].
  unfold process_column, get_gray_default_image, read_binary_files.
  destruct (Z.ltb_spec C 0); [lia |]. destruct (Z.ltb_spec H 0); [lia |].
  destruct (Z.ltb_spec W 0); [lia |]. cbn [orb].
  rewrite for_each_returns by assumption.
  cbn [lift mbind M_bind mret M_ret app]. rewrite app_nil_r.
  rewrite length_failed_rows. fold failed default_image.
  rewrite <- list_fmap_compose.
  destruct (0 <? failed)%nat; cbn; reflexivity.
Qed.

(** X2. The on-disk path, when [num_channels <= height <= width] and the read
    function returns arrays of the finalized shape: the processed column is
    the indices 0..n-1, the same failures are counted, and row [i] of the
    dataset is the array the in-memory path holds for row [i]. *)
Theorem on_disk_path_agrees_when_slice_covers (C H W : Z) (column : list entry) :
  0 ≤ C ≤ H → H ≤ W →
  let shape := (Z.to_nat C, Z.to_nat H, Z.to_nat W) in
  Forall (λ e, is_return (outcome (read e)) = true
               ∧ ∀ a, returned (read e) = Some a
                      → Tensor.has_shape (Z.to_nat C) (Z.to_nat H) (Z.to_nat W) a) column →
  let default_image := Tensor.full (Z.to_nat C) (Z.to_nat H) (Z.to_nat W) gray in
  let rows := stored default_image <$> column in
  ∃ log,
    process_column gray zero read C H W false column
    = (log,
       Return {| proc_column := Indices (seq 0 (length column));
                 image_dataset :=
                   Some {| H5.shape := (length column, Z.to_nat C, Z.to_nat H, Z.to_nat W);
                           H5.data := rows |};
                 reshape := (C, H, W);
                 num_failed_image_reads := failures column |}).
Proof.
  intros HC HW shape Hret default_image rows.
  unfold process_column, get_gray_default_image, H5.create_dataset.
  destruct (Z.ltb_spec C 0); [lia |]. destruct (Z.ltb_spec H 0); [lia |].
  destruct (Z.ltb_spec W 0); [lia |]. cbn [orb].
  cbn [lift mbind M_bind mret M_ret app]. fold default_image.
  destruct (write_rows_all (Z.to_nat C) (Z.to_nat H) (Z.to_nat W) H W default_image
              ltac:(lia) ltac:(lia) ltac:(lia) ltac:(lia) (has_shape_full _ _ _ _)
              column 0%nat (length column) 0%nat []
              (replicate (length column)
                         (Tensor.full (Z.to_nat C) (Z.to_nat H) (Z.to_nat W) zero))
              Hret eq_refl (length_replicate _ _) eq_refl
              (Forall_replicate _ _ _ (has_shape_full _ _ _ _))) as [log Hlog].
  cbn [app] in Hlog. rewrite Hlog. cbn [Nat.add]. fold rows.
  destruct (failures column); cbn; eauto.
Qed.


(** When the slice does not cover the row, writing an array of the row's
    shape is refused. *)
Lemma setitem_partial_row
    (ds : H5.dataset F) (n c h w i : nat) (val : Tensor.t F) :
  H5.shape ds = (n, c, h, w) →
  (i < n)%nat →
  (0 < c)%nat → (0 < h)%nat → (0 < w)%nat →
  (h < c ∨ w < h)%nat →
  Tensor.has_shape c h w val →
  H5.setitem ds i (Z.of_nat h) (Z.of_nat w) val = Raise (TypeError CannotBroadcast).
Proof.
  intros Hshape Hi Hc Hh Hw Hbad Hsv. unfold H5.setitem. rewrite Hshape.
  destruct (Nat.leb_spec n i); [lia |].
  assert (Hvol : (c * h * w ≠ 0)%nat) by nia.
  pose proof (has_shape_shape c h w val Hsv Hvol) as Hv.
  injection Hv as Hv0 Hv1 Hv2. rewrite Hv0, Hv1, Hv2.
  unfold slice_stop.
  destruct (Z.ltb_spec (Z.of_nat h) 0); [lia |].
  destruct (Z.ltb_spec (Z.of_nat w) 0); [lia |].
  replace (Z.to_nat (Z.min (Z.of_nat h) (Z.of_nat c))) with (Nat.min h c) by lia.
  replace (Z.to_nat (Z.min (Z.of_nat w) (Z.of_nat h))) with (Nat.min w h) by lia.
  destruct (Nat.eqb_spec (Nat.min h c * Nat.min w h * w) 0) as [Hzero | _]; [nia |].
  unfold H5.fits.
  repeat match goal with
         | |- context [(?a =? ?b)%nat] => destruct (Nat.eqb_spec a b)
         end; cbn; try reflexivity; lia.
Qed.

(** X3. The on-disk path, when the height is less than the number of channels
    or the width less than the height: the write of the first row raises,
    whether the row was read or is replaced by the default image. *)
Theorem on_disk_path_raises_when_slice_does_not_cover
    (C H W : Z) (e : entry) (column : list entry) :
  0 < C → 0 < H → 0 < W →
  H < C ∨ W < H →
  is_return (outcome (read e)) = true →
  (∀ a, returned (read e) = Some a
        → Tensor.has_shape (Z.to_nat C) (Z.to_nat H) (Z.to_nat W) a) →
  outcome (process_column gray zero read C H W false (e :: column))
  = Raise (TypeError CannotBroadcast).
Proof.
  intros HC HH HW Hbad Hret Hshape.
  unfold process_column, get_gray_default_image, H5.create_dataset.
  destruct (Z.ltb_spec C 0); [lia |]. destruct (Z.ltb_spec H 0); [lia |].
  destruct (Z.ltb_spec W 0); [lia |]. cbn [orb].
  cbn [lift mbind M_bind mret M_ret app length seq zip zip_with write_rows].
  set (ds := {| H5.shape := _; H5.data := _ |}).
  assert (Hset : ∀ val,
            Tensor.has_shape (Z.to_nat C) (Z.to_nat H) (Z.to_nat W) val →
            H5.setitem ds 0 H W val = Raise (TypeError CannotBroadcast)).
  { intros val Hval.
    rewrite <- (Z2Nat.id H), <- (Z2Nat.id W) by lia.
    apply (setitem_partial_row ds (S (length column)) (Z.to_nat C)); try assumption;
      try reflexivity; lia. }
  unfold returned, outcome in *.
  destruct (read e) as [l [[a |] | ex]]; [| | discriminate]; cbn [snd fst] in *.
  - cbn [mbind M_bind lift fst snd]. rewrite (Hset a) by auto. reflexivity.
  - cbn [warn mbind M_bind lift fst snd]. rewrite (Hset _ (has_shape_full _ _ _ _)). reflexivity.
Qed.

End Writer.

Lemma in_memory_path_witness :
  let column := [ETensor Fixture.tall_image; EOther] in
  Forall (λ e, is_return (outcome (Fixture.read_row 1 e)) = true) column
  ∧ process_column Fixture.gray Fixture.zero (Fixture.read_row 1) 1 2 1 true column
    = ([ImageCannotBeRead; FailedToReadImages 1],
       Return {| proc_column := Arrays [[[[51 # 255]; [102 # 255]]];
                                        [[[Fixture.gray]; [Fixture.gray]]]];
                 image_dataset := None;
                 reshape := (1, 2, 1);
                 num_failed_image_reads := 1 |}).
Proof.
  intros column.
  assert (Hret : Forall (λ e, is_return (outcome (Fixture.read_row 1 e)) = true) column)
    by (repeat constructor).
  split; [exact Hret |].
  destruct (in_memory_path_keeps_every_row
              Fixture.gray Fixture.zero (Fixture.read_row 1) 1 2 1 column
              ltac:(discriminate) ltac:(discriminate) ltac:(discriminate) Hret) as [_ Heq].
  exact Heq.
Defined.

Lemma on_disk_path_agrees_witness :
  let column := [ETensor Fixture.square_image; EOther] in
  0 ≤ 1 ≤ 2
  ∧ 2 ≤ 2
  ∧ ∃ log,
      process_column Fixture.gray Fixture.zero (Fixture.read_row 2) 1 2 2 false column
      = (log,
         Return {| proc_column := Indices [0%nat; 1%nat];
                   image_dataset :=
                     Some {| H5.shape := (2%nat, 1%nat, 2%nat, 2%nat);
                             H5.data := [[[[0 # 255; 51 # 255]; [102 # 255; 255 # 255]]];
                                         [[[Fixture.gray; Fixture.gray];
                                           [Fixture.gray; Fixture.gray]]]] |};
                   reshape := (1, 2, 2);
                   num_failed_image_reads := 1 |}).
Proof.
  intros column.
  assert (H1 : 0 ≤ 1 ≤ 2) by (split; discriminate).
  assert (H2 : 2 ≤ 2) by discriminate.
  split; [exact H1 |]. split; [exact H2 |].
  apply (on_disk_path_agrees_when_slice_covers
           Fixture.gray Fixture.zero (Fixture.read_row 2) 1 2 2 column H1 H2).
  apply Forall_cons. split; [split; [reflexivity | intros a [= <-]; repeat constructor] |].
  apply Forall_cons. split; [split; [reflexivity | intros a [=]] | constructor].
Defined.

Lemma on_disk_path_raises_witness :
  0 < 1 ∧ 0 < 2 ∧ 0 < 1 ∧ (2 < 1 ∨ 1 < 2)
  ∧ outcome (process_column Fixture.gray Fixture.zero (Fixture.read_row 1) 1 2 1 false
               [ETensor Fixture.tall_image; EOther])
    = Raise (TypeError CannotBroadcast).
Proof.
  repeat (split; [reflexivity || (right; reflexivity) |]).
  apply (on_disk_path_raises_when_slice_does_not_cover
           Fixture.gray Fixture.zero (Fixture.read_row 1) 1 2 1
           (ETensor Fixture.tall_image) [EOther]);
    try reflexivity; [right; reflexivity |].
  intros a [= <-]. repeat constructor.
Defined.


(** C1. The on-disk path does not store what the in-memory path stores: with
    height 2 and width 1 the in-memory path keeps the rescaled image, while
    the on-disk path selects [image_dataset[i, :2, :1, :]] in a dataset of
    shape (1, 1, 2, 1), a region of shape (1, 1, 1) that the image of shape
    (1, 2, 1) does not fit, and the write raises. *)
Theorem on_disk_path_rejects_tall_image :
  let column := [ETensor Fixture.tall_image] in
  let p := Fixture.parameters (Some 2) (Some 1) (Some 1) false in
  Fixture.add_feature_data (Fixture.feature_config true) column p false
  = ([], Return {| proc_column := Arrays [[[[51 # 255]; [102 # 255]]]];
                   image_dataset := None;
                   reshape := (1, 2, 1);
                   num_failed_image_reads := 0 |})
  ∧ Fixture.add_feature_data (Fixture.feature_config false) column p false
    = ([], Raise (TypeError CannotBroadcast)).
Proof. split; vm_compute; reflexivity. Qed.

(** C2. On the on-disk path a column of three rows, the second unreadable,
    does not come back as three indices with one failure reported: with
    height 2 and width 1 the first write raises.  The in-memory path returns
    three arrays, the second the default image, and reports one failure. *)
Theorem on_disk_path_drops_the_column :
  let column := [ETensor Fixture.tall_image; EOther; ETensor Fixture.tall_image] in
  let p := Fixture.parameters (Some 2) (Some 1) (Some 1) false in
  Fixture.add_feature_data (Fixture.feature_config false) column p false
  = ([], Raise (TypeError CannotBroadcast))
  ∧ Fixture.add_feature_data (Fixture.feature_config true) column p false
    = ([ImageCannotBeRead; FailedToReadImages 1],
       Return {| proc_column := Arrays [[[[51 # 255]; [102 # 255]]];
                                        [[[Fixture.gray]; [Fixture.gray]]];
                                        [[[51 # 255]; [102 # 255]]]];
                 image_dataset := None;
                 reshape := (1, 2, 1);
                 num_failed_image_reads := 1 |}).
Proof. split; vm_compute; reflexivity. Qed.

End CacheProperties.

(* ===================================================================== *)
(** ** Properties of the preprocessing pipeline as a whole *)
(* ===================================================================== *)

Module PipelineProperties.
Import Vector2D Spec.

Lemma has_shape_map {A B} (f : A → B) (c h w : nat) (x : Tensor.t A) :
  Tensor.has_shape c h w x → Tensor.has_shape c h w (Tensor.map f x).
Proof.
  intros [Hc Hx]. unfold Tensor.map. split; [by rewrite length_fmap |].
  apply Forall_fmap. eapply Forall_impl; [exact Hx |].
  intros ch [Hh Hrows]. cbn. split; [by rewrite length_fmap |].
  apply Forall_fmap. eapply Forall_impl; [exact Hrows |].
  intros row Hrow. cbn. by rewrite length_fmap.
Qed.

(** An array of at least one channel whose first channel has [h'] rows and
    whose first row has [w'] entries. *)
Lemma has_shape_measured {A} (c h w h' w' : nat) (x : Tensor.t A) :
  Tensor.has_shape c h w x → (0 < c)%nat →
  Tensor.shape1 x = h' → Tensor.shape2 x = w' →
  Tensor.has_shape c h' w' x.
Proof.
  intros [Hc Hx] Hpos H1 H2.
  unfold Tensor.shape1, Tensor.shape2 in *.
  destruct x as [| ch x]; cbn in *; [lia |].
  pose proof Hx as Hx'. apply Forall_cons in Hx' as [[Hh Hrows] _].
  assert (h = h') by congruence. subst h'.
  split; [exact Hc |].
  destruct ch as [| row ch]; cbn in *.
  - subst h. eapply Forall_impl; [exact Hx |].
    intros ch' [Hlen _]. destruct ch'; [| discriminate]. split; [reflexivity | apply Forall_nil_2].
  - apply Forall_cons in Hrows as [Hw _]. assert (w = w') by congruence. subst. exact Hx.
Qed.

Lemma has_shape_pad (c h w extra : nat) (x : tensor) :
  Tensor.has_shape c h w x → (0 < c)%nat →
  Tensor.has_shape (c + extra) h w (Tensor.pad_channels x extra).
Proof.
  intros Hx Hpos. unfold Tensor.pad_channels.
  destruct (decide (h = 0%nat)) as [-> | Hh].
  - destruct Hx as [Hc Hx]. split; [rewrite length_app, length_replicate; lia |].
    apply Forall_app. split; [exact Hx |].
    apply Forall_replicate.
    assert (Tensor.shape1 x = 0%nat) as ->.
    { unfold Tensor.shape1. destruct x as [| ch x]; [reflexivity |].
      apply Forall_cons in Hx as [[Hlen _] _]. exact Hlen. }
    split; [reflexivity | apply Forall_nil_2].
  - destruct (decide (w = 0%nat)) as [-> | Hw].
    + destruct Hx as [Hc Hx]. split; [rewrite length_app, length_replicate; lia |].
      apply Forall_app. split; [exact Hx |].
      apply Forall_replicate.
      assert (Tensor.shape1 x = h ∧ Tensor.shape2 x = 0%nat) as [-> ->].
      { unfold Tensor.shape1, Tensor.shape2. destruct x as [| ch x]; cbn in *; [lia |].
        apply Forall_cons in Hx as [[Hlen Hrows] _]. split; [exact Hlen |].
        destruct ch as [| row ch]; [reflexivity |].
        by apply Forall_cons in Hrows as [Hrow _]. }
      split; [apply length_replicate |]. apply Forall_replicate. reflexivity.
    + pose proof (CacheProperties.has_shape_shape c h w x Hx) as Hs.
      unfold Tensor.shape in Hs.
      assert (Hvol : (c * h * w ≠ 0)%nat) by nia.
      specialize (Hs Hvol). injection Hs as _ -> ->.
      destruct Hx as [Hc Hx]. split; [rewrite length_app, length_replicate; lia |].
      apply Forall_app. split; [exact Hx |].
      apply Forall_replicate. split; [apply length_replicate |].
      apply Forall_replicate. apply length_replicate.
Qed.

Lemma for_each_return_all {A B} (body : A → M B) (xs : list A) (log : list warning) (bs : list B) :
  for_each body xs = (log, Return bs) →
  Forall (λ x, is_return (outcome (body x)) = true) xs.
Proof.
  revert log bs. induction xs as [| x xs IH]; intros log bs H; [constructor |].
  cbn [for_each] in H.
  apply ReadProperties.bind_return_inv in H as (l1 & b & l2 & Hb & H & ->).
  apply ReadProperties.bind_return_inv in H as (l3 & bs' & l4 & Hbs & H & ->).
  constructor; [by rewrite Hb | by eapply IH].
Qed.


Section Pipeline.
Context {F : Type}.
Variable gray zero : F.
Variable div255 : Z → F.
Variable read_image_from_bytes_obj : list Byte.byte → option Z → option tensor.
Variable read_image_from_path : string → option Z → option tensor * option Z.
Variable grayscale : tensor → tensor.
Variable resize_image : tensor → Z * Z → string → tensor.
Variable get_abs_path : string → string.

#[local] Abbreviation decode := (decode read_image_from_bytes_obj read_image_from_path).
#[local] Abbreviation read :=
  (_read_image_if_bytes_obj_and_resize
     div255 read_image_from_bytes_obj read_image_from_path grayscale resize_image).
#[local] Abbreviation add_feature_data :=
  (add_feature_data div255 read_image_from_bytes_obj read_image_from_path grayscale
     resize_image gray zero get_abs_path).

(** What a call of the standard read function that returns an array went
    through. *)
Lemma read_returns_inv
    (img_entry : entry) (W H C : Z) (resize_method : string)
    (user_specified_num_channels : bool) (standardize_image : option string)
    (log : list warning) (a : Tensor.t F) :
  (∀ img, decode img_entry (Some C) = Some img →
          ∃ h w, Tensor.has_shape (Tensor.shape0 img) h w
                   (resize_image img (H, W) resize_method)) →
  (user_specified_num_channels = true → 1 ≤ C) →
  read img_entry W H true C resize_method user_specified_num_channels standardize_image
  = (log, Return (Some a)) →
  1 ≤ C ∧ 0 ≤ H ∧ 0 ≤ W
  ∧ Tensor.has_shape (Z.to_nat C) (Z.to_nat H) (Z.to_nat W) a
  ∧ (log = [] ∧ C = 1
     ∨ log = [ChannelsPaddedOrDropped 1 C] ∧ user_specified_num_channels = true ∧ 1 < C)
  ∧ ∃ img, decode img_entry (Some C) = Some img
           ∧ num_channels_in_image img = 1
           ∧ a = Tensor.map div255
                   (Tensor.pad_channels (resize_image img (H, W) resize_method)
                                        (Z.to_nat (C - 1))).
Proof.
  intros Hresize HC Hread. unfold _read_image_if_bytes_obj_and_resize in Hread.
  destruct (decode img_entry (Some C)) as [img |] eqn:Hdec; [| discriminate].
  destruct (Z.eqb_spec (num_channels_in_image img) 1) as [Hone | Hne]; [| discriminate].
  cbn [negb] in Hread. rewrite Hone in Hread. rewrite andb_false_r in Hread.
  set (resized := resize_image img (H, W) resize_method) in *.
  destruct (Hresize img eq_refl) as (h & w & Hres).
  fold resized in Hres.
  assert (Hc1 : Tensor.shape0 img = 1%nat) by (unfold num_channels_in_image in Hone; lia).
  rewrite Hc1 in Hres.
  pose proof (has_shape_pad 1 h w (Z.to_nat (C - 1)) resized Hres ltac:(lia)) as Hpad.
  set (padded := Tensor.pad_channels resized (Z.to_nat (C - 1))) in *.
  assert (Hrec : ∃ l, reconcile_channels user_specified_num_channels C 1 resized
                      = (l, Return padded)
                 ∧ 1 ≤ C
                 ∧ (l = [] ∧ C = 1
                    ∨ l = [ChannelsPaddedOrDropped 1 C] ∧ user_specified_num_channels = true ∧ 1 < C)
                 ∨ is_return (outcome (reconcile_channels user_specified_num_channels C 1 resized)) = false).
  { unfold reconcile_channels.
    destruct (Z.eqb_spec 1 C) as [<- | HneC].
    - exists []. left. cbn.
      assert (padded = resized) as ->.
      { subst padded. unfold Tensor.pad_channels. cbn. apply app_nil_r. }
      split; [by destruct user_specified_num_channels | split; [lia | left; done]].
    - destruct user_specified_num_channels.
      + specialize (HC eq_refl). exists [ChannelsPaddedOrDropped 1 C]. left.
        destruct (Z.ltb_spec 1 C); [| lia]. cbn. split; [reflexivity |].
        split; [lia |]. right. repeat split; lia.
      + exists []. right. reflexivity. }
  destruct Hrec as (l & [(Hrec & HC1 & Hl) | Hfail]).
  2: { destruct (reconcile_channels user_specified_num_channels C 1 resized) as [l' [v | e]];
         [discriminate | discriminate]. }
  replace (1 + Z.to_nat (C - 1))%nat with (Z.to_nat C) in Hpad by lia.
  rewrite Hrec in Hread. cbn [mbind M_bind] in Hread.
  destruct (Z.eqb_spec (Z.of_nat (Tensor.shape1 padded)) H) as [H1 | ?]; [| discriminate].
  destruct (Z.eqb_spec (Z.of_nat (Tensor.shape2 padded)) W) as [H2 | ?]; [| discriminate].
  cbn in Hread. rewrite app_nil_r in Hread. injection Hread as <- <-.
  split; [lia |]. split; [lia |]. split; [lia |]. split.
  - apply has_shape_map.
    apply (has_shape_measured _ h w _ _ _ Hpad); lia.
  - split; [exact Hl |]. exists img. repeat split; assumption.
Qed.

(** X10. An array the standard read function returns has the finalized
    shape.  For a channel count of at least 1 and a [resize_image] that
    gives an array with the channels of its argument: a call that returns
    an array decoded an image of one channel, resized it, appended planes of
    zeros up to [num_channels] channels and rescaled it; the array has
    [num_channels] channels of [img_height] rows and [img_width] columns;
    and the log holds the warning about padding exactly when a plane was
    appended, which happens only with a user-specified channel count. *)
Theorem read_returns_the_finalized_shape
    (img_entry : entry) (W H C : Z) (resize_method : string)
    (user_specified_num_channels : bool) (standardize_image : option string)
    (log : list warning) (a : Tensor.t F) :
  (∀ img, decode img_entry (Some C) = Some img →
          ∃ h w, Tensor.has_shape (Tensor.shape0 img) h w
                   (resize_image img (H, W) resize_method)) →
  1 ≤ C →
  read img_entry W H true C resize_method user_specified_num_channels standardize_image
  = (log, Return (Some a)) →
  0 ≤ H ∧ 0 ≤ W
  ∧ Tensor.has_shape (Z.to_nat C) (Z.to_nat H) (Z.to_nat W) a
  ∧ (log = [] ∧ C = 1
     ∨ log = [ChannelsPaddedOrDropped 1 C] ∧ user_specified_num_channels = true ∧ 1 < C)
  ∧ ∃ img, decode img_entry (Some C) = Some img
           ∧ num_channels_in_image img = 1
           ∧ a = Tensor.map div255
                   (Tensor.pad_channels (resize_image img (H, W) resize_method)
                                        (Z.to_nat (C - 1))).
Proof.
  intros Hresize HC Hread.
  by destruct (read_returns_inv _ _ _ _ _ _ _ _ _ Hresize (λ _, HC) Hread) as (_ & ? & ? & ? & ? & ?).
Qed.

Lemma process_column_in_memory_inv
    (read : entry → M (option (Tensor.t F))) (C H W : Z) (column : list entry)
    (log : list warning) (out : Processed) :
  process_column gray zero read C H W true column = (log, Return out) →
  0 ≤ C ∧ 0 ≤ H ∧ 0 ≤ W
  ∧ Forall (λ e, is_return (outcome (read e)) = true) column
  ∧ out = {| proc_column :=
               Arrays (stored read (Tensor.full (Z.to_nat C) (Z.to_nat H) (Z.to_nat W) gray)
                         <$> column);
             image_dataset := None;
             reshape := (C, H, W);
             num_failed_image_reads := failures read column |}.
Proof.
  intros Hp. unfold process_column, get_gray_default_image, read_binary_files in Hp.
  destruct (Z.ltb_spec C 0); [discriminate |].
  destruct (Z.ltb_spec H 0); [discriminate |].
  destruct (Z.ltb_spec W 0); [discriminate |].
  cbn [orb lift] in Hp.
  apply ReadProperties.bind_return_inv in Hp as (l1 & d & l2 & Hd & Hp & ->).
  injection Hd as <- <-.
  apply ReadProperties.bind_return_inv in Hp as (l3 & [[pc ds] nf] & l4 & Hrows & Hp & ->).
  apply ReadProperties.bind_return_inv in Hrows as (l5 & rows & l6 & Hfe & Hrows & ->).
  pose proof (for_each_return_all _ _ _ _ Hfe) as Hret.
  rewrite (CacheProperties.for_each_returns read column Hret) in Hfe.
  injection Hfe as <- <-. injection Hrows as <- <- <- <-.
  apply ReadProperties.bind_return_inv in Hp as (l7 & u & l8 & _ & Hp & ->).
  injection Hp as <- <-.
  repeat (split; [assumption |]).
  rewrite CacheProperties.length_failed_rows.
  rewrite <- list_fmap_compose. reflexivity.
Qed.


(** X11. Whenever [add_feature_data] returns on the standard path with
    the images kept in memory, and [resize_image] keeps the number of
    channels of an image and returns a rectangular one, the processed column
    has one array per row of the input and every array has the shape
    recorded under [reshape]: the finalized channel count, height and width,
    none of them negative.  No more rows are counted as failed than the
    column has. *)
Theorem in_memory_rows_have_the_recorded_shape
    (feature_config : FeatureConfig) (column : list entry) (p : PreprocessingConfigDict)
    (skip_save_processed_input : bool) (log : list warning) (out : Processed) :
  fc_torchvision_parameters feature_config = None →
  default (in_memory p) (fc_in_memory feature_config) || skip_save_processed_input = true →
  (∀ e C img size method,
     e ∈ abs_path_column get_abs_path column → decode e (Some C) = Some img →
     ∃ h w, Tensor.has_shape (Tensor.shape0 img) h w (resize_image img size method)) →
  add_feature_data feature_config column p skip_save_processed_input = (log, Return out) →
  ∃ C H W rows,
    reshape out = (C, H, W) ∧ 0 ≤ C ∧ 0 ≤ H ∧ 0 ≤ W
    ∧ proc_column out = Arrays rows
    ∧ image_dataset out = None
    ∧ length rows = length column
    ∧ Forall (Tensor.has_shape (Z.to_nat C) (Z.to_nat H) (Z.to_nat W)) rows
    ∧ (num_failed_image_reads out ≤ length column)%nat.
Proof.
  intros Htv Hmem Hresize Hrun. unfold Vector2D.add_feature_data in Hrun.
  rewrite Htv, Hmem in Hrun. fold (abs_path_column get_abs_path column) in Hrun.
  set (abs := abs_path_column get_abs_path column) in *.
  apply ReadProperties.bind_return_inv in Hrun as (l1 & [[[rd C] H] W] & l2 & Hfin & Hrun & ->).
  apply ReadProperties.bind_return_inv in Hfin as (l3 & [fin p'] & l4 & Hfin & Hret & ->).
  injection Hret as <- <- <- <- <-.
  apply process_column_in_memory_inv in Hrun as (HC & HH & HW & Hret & ->).
  unfold ImageFeatureMixin_finalize_preprocessing_parameters in Hfin.
  destruct (FinalizeProperties.finalize_returns_inv _ _ _ _ _ _ _ Hfin)
    as (Hresz & _ & _ & _ & _ & _ & _ & _ & Hus).
  eexists _, _, _, _. split; [reflexivity |].
  do 3 (split; [assumption |]). split; [reflexivity |]. split; [reflexivity |].
  split; [subst abs; unfold abs_path_column; by rewrite !length_fmap |].
  split.
  - apply Forall_fmap, Forall_forall. intros e He.
    unfold compose, stored, returned, outcome.
    rewrite Forall_forall in Hret. specialize (Hret e He). unfold outcome in Hret.
    match goal with
    | |- context [snd ?m] => destruct m as [l [[a |] | ex]] eqn:Hrd
    end; cbn in Hret |- *; try discriminate; [| apply CacheProperties.has_shape_full].
    unfold ImageFeatureMixin_read_image_if_bytes_obj_and_resize in Hrd.
    rewrite Hresz in Hrd.
    eapply read_returns_inv in Hrd as (_ & _ & _ & Hshape & _); [exact Hshape | |].
    + intros img Hdec. by eapply Hresize.
    + intros Hu. destruct (Hus Hu) as [[_ ?] | (_ & _ & _ & ?)]; lia.
  - unfold failures. etransitivity; [apply length_filter |].
    subst abs. unfold abs_path_column. by rewrite length_fmap.
Qed.


Lemma concat_failure_logs {A} (P : A → Prop) `{!∀ x, Decision (P x)} (xs : list A) :
  concat ((λ x, if decide (P x) then [ImageCannotBeRead] else []) <$> xs)
  = replicate (length (filter P xs)) ImageCannotBeRead.
Proof.
  induction xs as [| x xs IH]; [reflexivity |].
  cbn [fmap list_fmap concat]. rewrite IH.
  destruct (decide (P x)) as [Hx | Hx].
  - by rewrite filter_cons_True by assumption.
  - by rewrite filter_cons_False by assumption.
Qed.

(** X12. With a torchvision model variant and the images kept in memory,
    [add_feature_data] always returns, whatever the preprocessing
    parameters say about sizes, channels or inference, which it does not
    read.  The shape recorded under [reshape] is that of the model: as many
    channels as the transform has means, and the crop size for both height
    and width.  Every row holds the transformed image, or the default image
    of that shape when the entry cannot be decoded; each such row is logged
    once and counted. *)
Theorem torchvision_path_ignores_the_preprocessing_parameters
    (feature_config : FeatureConfig) (tv : TVModelVariant) (c : Z) (rest : list Z)
    (column : list entry) (p : PreprocessingConfigDict) (skip_save_processed_input : bool) :
  fc_torchvision_parameters feature_config = Some tv →
  crop_size tv = c :: rest →
  0 ≤ c →
  default (in_memory p) (fc_in_memory feature_config) || skip_save_processed_input = true →
  let channels := length (mean tv) in
  let default_image := Tensor.full channels (Z.to_nat c) (Z.to_nat c) gray in
  let abs := abs_path_column get_abs_path column in
  let failed := length (filter (λ e, decode e None = None) abs) in
  add_feature_data feature_config column p skip_save_processed_input
  = (UsingTorchvisionTransforms
       :: replicate failed ImageCannotBeRead
       ++ (if (0 <? failed)%nat then [FailedToReadImages failed] else []),
     Return {| proc_column :=
                 Arrays ((λ e, default default_image
                                 (torchvision_transform tv <$> decode e None)) <$> abs);
               image_dataset := None;
               reshape := (Z.of_nat channels, c, c);
               num_failed_image_reads := failed |}).
Proof.
  intros Htv Hcrop Hc Hmem channels default_image abs failed.
  unfold Vector2D.add_feature_data. rewrite Htv, Hmem.
  fold (abs_path_column get_abs_path column). fold abs.
  unfold _get_torchvision_transform. rewrite Hcrop.
  cbn [nth tm_num_channels tm_height tm_width]. fold channels.
  cbn [warn mbind M_bind mret M_ret app].
  set (rd := λ img_entry, ImageFeatureMixin_read_image_with_pretrained_transform
                            read_image_from_bytes_obj read_image_from_path img_entry
                            (torchvision_transform tv)).
  assert (Hrd : ∀ e, rd e = (if decide (decode e None = None)
                              then [ImageCannotBeRead] else [],
                             Return (torchvision_transform tv <$> decode e None))).
  { intros e. subst rd. cbv beta.
    unfold ImageFeatureMixin_read_image_with_pretrained_transform,
      _read_image_with_pretrained_transform.
    destruct (decode e None) as [img |]; [| reflexivity].
    by destruct (decide (Some img = None)). }
  unfold process_column, get_gray_default_image, read_binary_files.
  destruct (Z.ltb_spec (Z.of_nat channels) 0); [lia |].
  destruct (Z.ltb_spec c 0); [lia |]. cbn [orb].
  rewrite Nat2Z.id. fold default_image.
  rewrite (CacheProperties.for_each_returns rd abs).
  2: { apply Forall_forall. intros e _. by rewrite Hrd. }
  cbn [lift mbind M_bind mret M_ret app]. rewrite app_nil_r.
  rewrite CacheProperties.length_failed_rows.
  assert (Hfailed : failures rd abs = failed).
  { unfold failures, failed. f_equal. apply list_filter_iff. intros e.
    unfold returned, outcome. rewrite Hrd. cbn.
    by destruct (decode e None). }
  rewrite Hfailed.
  assert (Hlog : concat ((λ e, log_of (rd e)) <$> abs) = replicate failed ImageCannotBeRead).
  { unfold failed. rewrite <- concat_failure_logs.
    f_equal. apply list_fmap_ext. intros _ e _. by rewrite Hrd. }
  rewrite Hlog, <- list_fmap_compose.
  match goal with
  | |- context [Arrays (?f <$> abs)] =>
    rewrite (list_fmap_ext f
               (λ e, default default_image (torchvision_transform tv <$> decode e None)) abs)
  end.
  2: { intros _ e _. unfold compose, returned, outcome. by rewrite Hrd. }
  destruct (0 <? failed)%nat; cbn; rewrite ?app_nil_r; reflexivity.
Qed.

End Pipeline.

Lemma read_shape_witness :
  let img_entry := ETensor Fixture.square_image in
  let a := [[[0 # 255; 51 # 255]; [102 # 255; 255 # 255]];
            [[0 # 255; 0 # 255]; [0 # 255; 0 # 255]];
            [[0 # 255; 0 # 255]; [0 # 255; 0 # 255]]] in
  (∀ img, decode Fixture.read_image_from_bytes_obj Fixture.read_image_from_path
            img_entry (Some 3) = Some img →
          ∃ h w, Tensor.has_shape (Tensor.shape0 img) h w
                   (Fixture.resize_image img (2, 2) "interpolate"))
  ∧ 1 ≤ 3
  ∧ Fixture.read img_entry 2 2 true 3 "interpolate" true None
    = ([ChannelsPaddedOrDropped 1 3], Return (Some a))
  ∧ Tensor.has_shape 3 2 2 a.
Proof.
  intros img_entry a.
  assert (Hresize : ∀ img,
            decode Fixture.read_image_from_bytes_obj Fixture.read_image_from_path
              img_entry (Some 3) = Some img →
            ∃ h w, Tensor.has_shape (Tensor.shape0 img) h w
                     (Fixture.resize_image img (2, 2) "interpolate")).
  { intros img [= <-]. exists 2%nat, 2%nat. repeat constructor. }
  assert (HC : 1 ≤ 3) by discriminate.
  assert (Hread : Fixture.read img_entry 2 2 true 3 "interpolate" true None
                  = ([ChannelsPaddedOrDropped 1 3], Return (Some a))) by reflexivity.
  split; [exact Hresize |]. split; [exact HC |]. split; [exact Hread |].
  destruct (read_returns_the_finalized_shape
              Fixture.div255 Fixture.read_image_from_bytes_obj Fixture.read_image_from_path
              Fixture.grayscale Fixture.resize_image
              img_entry 2 2 3 "interpolate" true None _ a Hresize HC Hread)
    as (_ & _ & Hshape & _).
  exact Hshape.
Defined.

Lemma in_memory_rows_witness :
  let column := [ETensor Fixture.square_image; EOther] in
  let p := Fixture.parameters (Some 2) (Some 2) (Some 1) false in
  let out := {| proc_column := Arrays [[[[0 # 255; 51 # 255]; [102 # 255; 255 # 255]]];
                                       [[[Fixture.gray; Fixture.gray];
                                         [Fixture.gray; Fixture.gray]]]];
                image_dataset := None;
                reshape := (1, 2, 2);
                num_failed_image_reads := 1 |} in
  fc_torchvision_parameters (Fixture.feature_config true) = None
  ∧ default (in_memory p) (fc_in_memory (Fixture.feature_config true)) || false = true
  ∧ (∀ e C img size method,
       e ∈ abs_path_column Fixture.get_abs_path column →
       decode Fixture.read_image_from_bytes_obj Fixture.read_image_from_path e (Some C)
       = Some img →
       ∃ h w, Tensor.has_shape (Tensor.shape0 img) h w (Fixture.resize_image img size method))
  ∧ Fixture.add_feature_data (Fixture.feature_config true) column p false
    = ([ImageCannotBeRead; FailedToReadImages 1], Return out)
  ∧ ∃ C H W rows,
      reshape out = (C, H, W) ∧ 0 ≤ C ∧ 0 ≤ H ∧ 0 ≤ W
      ∧ proc_column out = Arrays rows
      ∧ image_dataset out = None
      ∧ length rows = length column
      ∧ Forall (Tensor.has_shape (Z.to_nat C) (Z.to_nat H) (Z.to_nat W)) rows
      ∧ (num_failed_image_reads out ≤ length column)%nat.
Proof.
  intros column p out.
  assert (Htv : fc_torchvision_parameters (Fixture.feature_config true) = None)
    by reflexivity.
  assert (Hmem : default (in_memory p) (fc_in_memory (Fixture.feature_config true)) || false
                 = true) by reflexivity.
  assert (Hresize : ∀ e C img size method,
            e ∈ abs_path_column Fixture.get_abs_path column →
            decode Fixture.read_image_from_bytes_obj Fixture.read_image_from_path e (Some C)
            = Some img →
            ∃ h w, Tensor.has_shape (Tensor.shape0 img) h w
                     (Fixture.resize_image img size method)).
  { intros e C img size method He Hdec.
    apply elem_of_cons in He as [-> | He].
    - injection Hdec as <-. exists 2%nat, 2%nat. repeat constructor.
    - apply elem_of_cons in He as [-> | He]; [discriminate |].
      by apply elem_of_nil in He. }
  assert (Hrun : Fixture.add_feature_data (Fixture.feature_config true) column p false
                 = ([ImageCannotBeRead; FailedToReadImages 1], Return out)) by reflexivity.
  split; [exact Htv |]. split; [exact Hmem |]. split; [exact Hresize |].
  split; [exact Hrun |].
  exact (in_memory_rows_have_the_recorded_shape
           Fixture.gray Fixture.zero Fixture.div255 Fixture.read_image_from_bytes_obj
           Fixture.read_image_from_path Fixture.grayscale Fixture.resize_image
           Fixture.get_abs_path (Fixture.feature_config true) column p false _ out
           Htv Hmem Hresize Hrun).
Defined.

Lemma torchvision_path_witness :
  let column := [ETensor Fixture.square_image; EOther] in
  let p := Fixture.parameters None None None false in
  fc_torchvision_parameters Fixture.torchvision_feature_config = Some Fixture.model_variant
  ∧ crop_size Fixture.model_variant = [2]
  ∧ 0 ≤ 2
  ∧ default (in_memory p) (fc_in_memory Fixture.torchvision_feature_config) || false = true
  ∧ Fixture.add_feature_data Fixture.torchvision_feature_config column p false
    = ([UsingTorchvisionTransforms; ImageCannotBeRead; FailedToReadImages 1],
       Return {| proc_column :=
                   Arrays [[[[0 # 255; 51 # 255]; [102 # 255; 255 # 255]];
                            [[0 # 255; 0 # 255]; [0 # 255; 0 # 255]];
                            [[0 # 255; 0 # 255]; [0 # 255; 0 # 255]]];
                           Tensor.full 3 2 2 Fixture.gray];
                 image_dataset := None;
                 reshape := (3, 2, 2);
                 num_failed_image_reads := 1 |}).
Proof.
  intros column p.
  assert (H0 : 0 ≤ 2) by discriminate.
  split; [reflexivity |]. split; [reflexivity |]. split; [exact H0 |]. split; [reflexivity |].
  exact (torchvision_path_ignores_the_preprocessing_parameters
           Fixture.gray Fixture.zero Fixture.div255 Fixture.read_image_from_bytes_obj
           Fixture.read_image_from_path Fixture.grayscale Fixture.resize_image
           Fixture.get_abs_path Fixture.torchvision_feature_config Fixture.model_variant
           2 [] column p false eq_refl eq_refl H0 eq_refl).
Defined.

End PipelineProperties.

(* ===================================================================== *)
(** ** Rounding of doubles *)
(* ===================================================================== *)

Module FloatProperties.
Import Py Pretrainer Spec SpecFloat Float.

Lemma shr_1_spec (rec : shr_record) :
  0 <= shr_m rec ->
  0 <= shr_m (shr_1 rec)
  /\ shr_m (shr_1 rec) = shr_m rec / 2
  /\ (shr_exact (shr_1 rec) <-> shr_exact rec /\ shr_m rec mod 2 = 0).
Proof.
  destruct rec as [m r s]. unfold shr_exact. cbn [shr_m shr_r shr_s]. intros Hm.
  assert (Hdiv : forall q b, (b = 0 \/ b = 1) -> (2 * q + b) / 2 = q /\ (2 * q + b) mod 2 = b).
  { intros q b Hb. split.
    - symmetry. apply Z.div_unique with (r := b); lia.
    - symmetry. apply Z.mod_unique with (q := q); lia. }
  destruct m as [| [p | p |] | p]; try lia; cbn [shr_1 shr_m shr_r shr_s].
  - split; [lia |]. split; [reflexivity |].
    destruct r, s; cbn; split; intros H; try discriminate; try (destruct H; discriminate);
      try (split; reflexivity); reflexivity.
  - destruct (Hdiv (Z.pos p) 1 ltac:(lia)) as [Hq Hr].
    change (Z.pos p~1) with (2 * Z.pos p + 1). rewrite Hq, Hr.
    split; [lia |]. split; [reflexivity |].
    split; intros H; [discriminate | destruct H; discriminate].
  - destruct (Hdiv (Z.pos p) 0 ltac:(lia)) as [Hq Hr]. rewrite Z.add_0_r in Hq, Hr.
    change (Z.pos p~0) with (2 * Z.pos p). rewrite Hq, Hr.
    split; [lia |]. split; [reflexivity |].
    destruct r, s; cbn; split; intros H; try discriminate; try (destruct H; discriminate);
      try (split; reflexivity); reflexivity.
  - split; [lia |]. split; [reflexivity |].
    split; intros H; [discriminate | destruct H; discriminate].
Qed.

Lemma mod_mul_zero (m a b : Z) :
  0 < a -> 0 < b ->
  (m mod a = 0 /\ (m / a) mod b = 0) <-> m mod (a * b) = 0.
Proof.
  intros Ha Hb. rewrite (Z.rem_mul_r m a b) by lia.
  pose proof (Z.mod_pos_bound m a Ha). pose proof (Z.mod_pos_bound (m / a) b Hb).
  split; [intros [-> ->]; lia | nia].
Qed.

Lemma iter_shr_1 (p : positive) : forall rec : shr_record,
  0 <= shr_m rec ->
  0 <= shr_m (iter_pos shr_1 p rec)
  /\ shr_m (iter_pos shr_1 p rec) = shr_m rec / 2 ^ Z.pos p
  /\ (shr_exact (iter_pos shr_1 p rec) <-> shr_exact rec /\ shr_m rec mod 2 ^ Z.pos p = 0).
Proof.
  induction p as [p IH | p IH |]; intros rec Hm; cbn [iter_pos].
  - destruct (shr_1_spec rec Hm) as (H0 & H1 & H2).
    destruct (IH _ H0) as (H3 & H4 & H5).
    destruct (IH _ H3) as (H6 & H7 & H8).
    assert (Hp : 0 < 2 ^ Z.pos p) by (apply Z.pow_pos_nonneg; lia).
    assert (Hpow : 2 ^ Z.pos p~1 = 2 * (2 ^ Z.pos p * 2 ^ Z.pos p)).
    { rewrite Pos2Z.inj_xI, Z.pow_add_r, Z.pow_mul_r, Z.pow_1_r by lia.
      rewrite Z.pow_2_r, <- Z.pow_mul_l. change (2 * 2) with (2 ^ 2).
      rewrite <- Z.pow_mul_r by lia. rewrite (Z.mul_comm 2), Z.pow_mul_r by lia.
      rewrite Z.pow_2_r. lia. }
    split; [exact H6 |]. split.
    + rewrite H7, H4, H1, Hpow. rewrite !Z.div_div by lia. reflexivity.
    + rewrite H8, H5, H2, H4, H1, Hpow.
      rewrite <- (mod_mul_zero (shr_m rec) 2) by lia.
      rewrite <- (mod_mul_zero (shr_m rec / 2)) by lia. tauto.
  - destruct (IH _ Hm) as (H3 & H4 & H5).
    destruct (IH _ H3) as (H6 & H7 & H8).
    assert (Hp : 0 < 2 ^ Z.pos p) by (apply Z.pow_pos_nonneg; lia).
    assert (Hpow : 2 ^ Z.pos p~0 = 2 ^ Z.pos p * 2 ^ Z.pos p).
    { rewrite Pos2Z.inj_xO, <- Z.pow_add_r by lia. f_equal. lia. }
    split; [exact H6 |]. split.
    + rewrite H7, H4, Hpow. rewrite Z.div_div by lia. reflexivity.
    + rewrite H8, H5, H4, Hpow. rewrite <- mod_mul_zero by lia. tauto.
  - apply shr_1_spec. exact Hm.
Qed.

Lemma digits2_pos_spec (p : positive) :
  2 ^ (Z.pos (digits2_pos p) - 1) <= Z.pos p < 2 ^ Z.pos (digits2_pos p).
Proof.
  assert (Hstep : forall D x b, 0 < D -> (b = 0 \/ b = 1) ->
            2 ^ (D - 1) <= x < 2 ^ D -> 2 ^ (Z.succ D - 1) <= 2 * x + b < 2 ^ Z.succ D).
  { intros D x b HD Hb H. replace (Z.succ D - 1) with D by lia.
    rewrite Z.pow_succ_r by lia.
    assert (2 ^ D = 2 * 2 ^ (D - 1)) by (rewrite <- Z.pow_succ_r by lia; f_equal; lia).
    lia. }
  induction p as [p IH | p IH |]; cbn [digits2_pos].
  - rewrite Pos2Z.inj_succ. apply (Hstep _ (Z.pos p) 1); [lia | lia | exact IH].
  - rewrite Pos2Z.inj_succ.
    replace (Z.pos p~0) with (2 * Z.pos p + 0) by lia.
    apply (Hstep _ (Z.pos p) 0); [lia | lia | exact IH].
  - cbn. lia.
Qed.

Lemma shr_m_of_loc (m : Z) (l : location) : shr_m (shr_record_of_loc m l) = m.
Proof. destruct l as [| []]; reflexivity. Qed.

Lemma shr_fexp_spec (m e : Z) (l : location) :
  0 <= m ->
  let n := fexp prec emax (Zdigits2 m + e) - e in
  (n <= 0 /\ shr_fexp prec emax m e l = (shr_record_of_loc m l, e))
  \/ (0 < n
      /\ exists rec,
           shr_fexp prec emax m e l = (rec, e + n)
           /\ 0 <= shr_m rec
           /\ shr_m rec = m / 2 ^ n
           /\ (shr_exact rec <-> shr_exact (shr_record_of_loc m l) /\ m mod 2 ^ n = 0)).
Proof.
  intros Hm n. unfold shr_fexp, shr. fold n.
  destruct n as [| p | p] eqn:Hn.
  - left. split; [lia | reflexivity].
  - right. split; [lia |].
    pose proof (iter_shr_1 p (shr_record_of_loc m l)) as H.
    rewrite shr_m_of_loc in H. destruct (H Hm) as (H0 & H1 & H2).
    eexists. split; [reflexivity |]. auto.
  - left. split; [lia | reflexivity].
Qed.

Lemma round_nearest_even_spec (rec : shr_record) :
  shr_m rec <= round_nearest_even (shr_m rec) (loc_of_shr_record rec) <= shr_m rec + 1
  /\ (shr_exact rec -> round_nearest_even (shr_m rec) (loc_of_shr_record rec) = shr_m rec).
Proof.
  destruct rec as [m [] []]; unfold shr_exact; cbn; try (destruct (Z.even m)); split;
    try lia; try discriminate; reflexivity.
Qed.

Lemma fexp_eq (x : Z) : fexp prec emax x = Z.max (x - 53) (-1074).
Proof. reflexivity. Qed.

Lemma Zdigits2_pos (p : positive) : Zdigits2 (Z.pos p) = Z.pos (digits2_pos p).
Proof. reflexivity. Qed.

Lemma pow2_le_inv (a b : Z) : 0 <= b -> 2 ^ a <= 2 ^ b -> a <= b.
Proof.
  intros Hb H. destruct (Z_lt_le_dec b a) as [Hlt | ?]; [| assumption].
  assert (2 ^ b < 2 ^ a) by (apply Z.pow_lt_mono_r; lia). lia.
Qed.

Lemma pow2_lt_inv (a b : Z) : 0 <= b -> 2 ^ a < 2 ^ b -> a < b.
Proof.
  intros Hb H. destruct (Z_lt_le_dec a b) as [? | Hle]; [assumption |].
  assert (2 ^ b <= 2 ^ a) by (apply Z.pow_le_mono_r; lia). lia.
Qed.

(** Rounding the dyadic [m * 2^e], below [2^(52 - G)], to a double: either
    nothing is lost, or the result lies, with [m * 2^e], between the same
    multiples of [2^(-G)]. *)
Lemma binary_round_aux_spec (G : Z) (s : bool) (m : positive) (e : Z) :
  0 <= G <= 1073 ->
  Z.pos (digits2_pos m) + e <= 52 - G ->
  binary_round_aux prec emax s (Z.pos m) e loc_Exact = S754_finite s m e
  \/ (e < - G
      /\ exists m3 e3,
           e <= e3 <= - G /\ 0 <= m3
           /\ binary_round_aux prec emax s (Z.pos m) e loc_Exact
              = match m3 with Z.pos p => S754_finite s p e3 | _ => S754_zero s end
           /\ forall N,
                (N * 2 ^ (- e - G) <= Z.pos m -> N * 2 ^ (- e3 - G) <= m3)
                /\ (Z.pos m <= N * 2 ^ (- e - G) -> m3 <= N * 2 ^ (- e3 - G))).
Proof.
  intros HG Hd. set (d := Z.pos (digits2_pos m)) in *.
  pose proof (digits2_pos_spec m) as Hdig. fold d in Hdig.
  assert (Hdpos : 0 < d) by (subst d; lia).
  unfold binary_round_aux.
  destruct (shr_fexp_spec (Z.pos m) e loc_Exact ltac:(lia)) as [[Hn1 Heq1] | (Hn1 & rec1 & Heq1 & Hm1 & Hdiv1 & Hex1)];
    rewrite Zdigits2_pos, fexp_eq in Hn1; fold d in Hn1; rewrite Heq1.
  - (* nothing is shifted out *)
    left. cbn [shr_record_of_loc shr_m loc_of_shr_record round_nearest_even].
    destruct (shr_fexp_spec (Z.pos m) e loc_Exact ltac:(lia)) as [[_ Heq2] | (Hn2 & _)].
    2: { rewrite Zdigits2_pos, fexp_eq in Hn2. fold d in Hn2. lia. }
    rewrite Heq2. cbn [shr_record_of_loc shr_m].
    destruct (Z.leb_spec e (emax - prec)) as [_ | Hbig]; [reflexivity |].
    unfold emax, prec in Hbig. lia.
  - right. rewrite Zdigits2_pos, fexp_eq in Heq1, Hdiv1, Hex1. fold d in Heq1, Hdiv1, Hex1.
    set (n1 := Z.max (d + e - 53) (-1074) - e) in *.
    set (e1 := e + n1) in *.
    change (e + (fexp prec emax (Zdigits2 (Z.pos m) + e) - e)) with e1.
    assert (He1 : e1 <= -1 - G) by (subst e1 n1; lia).
    split; [lia |].
    pose proof (round_nearest_even_spec rec1) as [Hrne Hrne_exact].
    set (m1 := shr_m rec1) in *.
    set (m2 := round_nearest_even m1 (loc_of_shr_record rec1)) in *.
    clearbody m2 m1.
    assert (Hp1 : 0 < 2 ^ n1) by (apply Z.pow_pos_nonneg; lia).
    assert (Hpow1 : 2 ^ (- e - G) = 2 ^ (- e1 - G) * 2 ^ n1).
    { rewrite <- Z.pow_add_r by lia. f_equal. subst e1. lia. }
    assert (Hm1m : m1 * 2 ^ n1 <= Z.pos m < (m1 + 1) * 2 ^ n1).
    { rewrite Hdiv1.
      pose proof (Z.div_mod (Z.pos m) (2 ^ n1) ltac:(lia)).
      pose proof (Z.mod_pos_bound (Z.pos m) (2 ^ n1) Hp1). lia. }
    (* the first conclusions, on [m2] and [e1] *)
    assert (Hlow : forall N, N * 2 ^ (- e - G) <= Z.pos m -> N * 2 ^ (- e1 - G) <= m2).
    { intros N HN. rewrite Hpow1 in HN.
      assert (N * 2 ^ (- e1 - G) <= m1); [| lia].
      rewrite Hdiv1. apply Z.div_le_lower_bound; lia. }
    assert (Hupp : forall N, Z.pos m <= N * 2 ^ (- e - G) -> m2 <= N * 2 ^ (- e1 - G)).
    { intros N HN. rewrite Hpow1 in HN.
      destruct (shr_r rec1 || shr_s rec1) eqn:Hexact.
      - (* something was lost: [m1 * 2^n1 < m] *)
        assert (Hne : Z.pos m mod 2 ^ n1 <> 0).
        { intros H0. assert (shr_exact rec1) as Hx by (apply Hex1; split; [reflexivity | exact H0]).
          unfold shr_exact in Hx. congruence. }
        assert (m1 < N * 2 ^ (- e1 - G)); [| lia].
        destruct (Z_lt_le_dec m1 (N * 2 ^ (- e1 - G))) as [? | Hge]; [assumption | exfalso].
        apply Hne.
        assert (Z.pos m = m1 * 2 ^ n1) as -> by nia.
        apply Z.mod_mul. lia.
      - rewrite (Hrne_exact Hexact).
        destruct (Z_le_gt_dec m1 (N * 2 ^ (- e1 - G))) as [? | Hgt]; [assumption | exfalso]. nia. }
    assert (Hm2 : 0 <= m2) by lia.
    destruct (shr_fexp_spec m2 e1 loc_Exact Hm2)
      as [[Hn2 Heq2] | (Hn2 & rec2 & Heq2 & Hm3 & Hdiv2 & _)];
      rewrite fexp_eq in Hn2; rewrite Heq2.
    + (* no second shift *)
      exists m2, e1. split; [lia |]. split; [exact Hm2 |].
      cbn [shr_record_of_loc shr_m]. split.
      * destruct m2 as [| p2 | p2]; [reflexivity | | lia].
        destruct (Z.leb_spec e1 (emax - prec)) as [_ | Hbig]; [reflexivity |].
        unfold emax, prec in Hbig. lia.
      * intros N. split; [apply Hlow | apply Hupp].
    + (* the rounded mantissa has one digit too many *)
      rewrite fexp_eq in Heq2, Hdiv2.
      set (n2 := Z.max (Zdigits2 m2 + e1 - 53) (-1074) - e1) in *.
      set (e3 := e1 + n2) in *.
      change (e1 + (fexp prec emax (Zdigits2 m2 + e1) - e1)) with e3.
      assert (Hm2pos : 0 < m2).
      { destruct m2 as [| p2 | p2]; [| lia | lia]. cbn [Zdigits2] in n2. subst n2. lia. }
      assert (He3 : e3 <= - G).
      { subst e3 n2. destruct m2 as [| p2 | p2]; try lia. cbn [Zdigits2].
        pose proof (digits2_pos_spec p2) as Hdig2.
        set (d2 := Z.pos (digits2_pos p2)) in *.
        assert (d2 + e1 <= 53 - G); [| lia].
        destruct (Z_le_gt_dec d2 1) as [? | Hd2]; [lia |].
        assert (H2 : 2 ^ (d2 - 2) <= m1).
        { assert (2 ^ (d2 - 1) = 2 * 2 ^ (d2 - 2)) as Hs.
          { rewrite <- Z.pow_succ_r by lia. f_equal. lia. }
          pose proof (Z.pow_pos_nonneg 2 (d2 - 2) ltac:(lia) ltac:(lia)). lia. }
        assert (H3 : 2 ^ (d2 - 2 + n1) < 2 ^ d).
        { rewrite Z.pow_add_r by lia. nia. }
        apply pow2_lt_inv in H3; [| lia]. subst e1. lia. }
      assert (Hp2 : 0 < 2 ^ n2) by (apply Z.pow_pos_nonneg; lia).
      assert (Hpow2 : 2 ^ (- e1 - G) = 2 ^ (- e3 - G) * 2 ^ n2).
      { rewrite <- Z.pow_add_r by lia. f_equal. subst e3. lia. }
      exists (shr_m rec2), e3. split; [lia |]. split; [exact Hm3 |]. split.
      * destruct (shr_m rec2) as [| p3 | p3]; [reflexivity | | lia].
        destruct (Z.leb_spec e3 (emax - prec)) as [_ | Hbig]; [reflexivity |].
        unfold emax, prec in Hbig. lia.
      * intros N. rewrite Hdiv2. split; intros HN.
        -- apply Hlow in HN. rewrite Hpow2 in HN.
           apply Z.div_le_lower_bound; lia.
        -- apply Hupp in HN. rewrite Hpow2 in HN.
           apply Z.div_le_upper_bound; lia.
Qed.

Lemma Qpow2_nonpos (e : Z) :
  e <= 0 -> (2 ^ e == 1 # Z.to_pos (2 ^ (- e)))%Q.
Proof.
  intros He. replace e with (- - e) at 1 by lia.
  rewrite Qpower_opp.
  change 2%Q with (inject_Z 2). rewrite <- Zpower_Qpower by lia.
  assert (Hp : 0 < 2 ^ (- e)) by (apply Z.pow_pos_nonneg; lia).
  destruct (2 ^ (- e)) as [| c | c] eqn:Hc; try lia.
  reflexivity.
Qed.

Lemma Qpow2_nonneg (e : Z) :
  0 <= e -> (2 ^ e == inject_Z (2 ^ e))%Q.
Proof. intros He. change 2%Q with (inject_Z 2). by rewrite Zpower_Qpower. Qed.

(** Comparing a dyadic with a non-positive exponent and an integer. *)
Lemma dyadic_le_int (a N e : Z) :
  e <= 0 -> ((inject_Z a * 2 ^ e <= inject_Z N)%Q <-> a <= N * 2 ^ (- e)).
Proof.
  intros He. rewrite Qpow2_nonpos by assumption.
  assert (Hp : 0 < 2 ^ (- e)) by (apply Z.pow_pos_nonneg; lia).
  unfold Qle, Qmult, inject_Z. cbn [Qnum Qden].
  rewrite Pos.mul_1_l, !Z.mul_1_r, Z2Pos.id by assumption. reflexivity.
Qed.

Lemma int_le_dyadic (a N e : Z) :
  e <= 0 -> ((inject_Z N <= inject_Z a * 2 ^ e)%Q <-> N * 2 ^ (- e) <= a).
Proof.
  intros He. rewrite Qpow2_nonpos by assumption.
  assert (Hp : 0 < 2 ^ (- e)) by (apply Z.pow_pos_nonneg; lia).
  unfold Qle, Qmult, inject_Z. cbn [Qnum Qden].
  rewrite Pos.mul_1_l, !Z.mul_1_r, Z2Pos.id by assumption. reflexivity.
Qed.

(** [math.floor] is the floor of the value. *)
Lemma floor_value (x : spec_float) (k : Z) :
  floor x = Return k -> k = Qfloor (value x).
Proof.
  destruct x as [s | s | | s m e]; cbn [floor value]; intros [= <-]; [reflexivity |].
  set (a := cond_Zopp s (Z.pos m)).
  destruct (Z_le_gt_dec 0 e) as [He | He].
  - rewrite Z.shiftl_mul_pow2 by assumption.
    rewrite (Qfloor_comp _ (inject_Z (a * 2 ^ e))); [by rewrite Qfloor_Z |].
    rewrite Qpow2_nonneg by assumption. by rewrite inject_Z_mult.
  - rewrite Z.shiftl_div_pow2 by lia.
    assert (Hp : 0 < 2 ^ (- e)) by (apply Z.pow_pos_nonneg; lia).
    rewrite (Qfloor_comp _ (a # Z.to_pos (2 ^ (- e)))).
    + cbn [Qfloor]. by rewrite Z2Pos.id.
    + rewrite Qpow2_nonpos by lia. unfold Qeq, Qmult, inject_Z. cbn [Qnum Qden].
      rewrite Pos.mul_1_l. lia.
Qed.

(** A positive dyadic below [2^K] has at most [K] digits before the point. *)
Lemma dyadic_lt_pow2 (m : positive) (e K : Z) :
  (inject_Z (Z.pos m) * 2 ^ e < 2 ^ K)%Q -> Z.pos (digits2_pos m) + e <= K.
Proof.
  intros Hlt. pose proof (digits2_pos_spec m) as [Hlo _].
  set (d := Z.pos (digits2_pos m)) in *.
  assert (H1 : (2 ^ (d - 1 + e) <= inject_Z (Z.pos m) * 2 ^ e)%Q).
  { rewrite Qpower_plus by discriminate.
    apply Qmult_le_compat_r; [| apply Qpower_0_le; discriminate].
    rewrite Qpow2_nonneg by (subst d; lia). by rewrite <- Zle_Qle. }
  assert (H2 : (2 ^ (d - 1 + e) < 2 ^ K)%Q) by (eapply Qle_lt_trans; eassumption).
  apply Qpower_lt_compat_l_inv in H2; [lia | reflexivity].
Qed.

Lemma digits2_pos_le (m : positive) (K : Z) :
  0 <= K -> Z.pos m < 2 ^ K -> Z.pos (digits2_pos m) <= K.
Proof.
  intros HK Hlt. pose proof (digits2_pos_spec m) as [Hlo _].
  assert (H : 2 ^ (Z.pos (digits2_pos m) - 1) < 2 ^ K) by lia.
  apply pow2_lt_inv in H; lia.
Qed.

(** Rounding never crosses an integer: the floor of the rounded value lies
    on the same side of every integer as the exact value. *)
Lemma round_floor_spec (s : bool) (m : positive) (e : Z) :
  Z.pos (digits2_pos m) + e <= 52 ->
  exists k,
    floor (binary_round_aux prec emax s (Z.pos m) e loc_Exact) = Return k
    /\ forall N,
         ((inject_Z N <= inject_Z (cond_Zopp s (Z.pos m)) * 2 ^ e)%Q -> N <= k)
         /\ ((inject_Z (cond_Zopp s (Z.pos m)) * 2 ^ e <= inject_Z N)%Q -> k <= N).
Proof.
  intros Hd. destruct (binary_round_aux_spec 0 s m e ltac:(lia) Hd) as [-> | (He & m3 & e3 & He3 & Hm3 & -> & Hb)].
  - eexists. split; [reflexivity |]. intros N.
    rewrite (floor_value (S754_finite s m e) _ eq_refl). cbn [value].
    split; intros H.
    + rewrite <- (Qfloor_Z N). by apply Qfloor_resp_le.
    + rewrite <- (Qfloor_Z N). by apply Qfloor_resp_le.
  - assert (Hp : 0 < 2 ^ (- e3)) by (apply Z.pow_pos_nonneg; lia).
    assert (Hb' : ∀ N, (N * 2 ^ (- e) <= Z.pos m -> N * 2 ^ (- e3) <= m3)
                       /\ (Z.pos m <= N * 2 ^ (- e) -> m3 <= N * 2 ^ (- e3))).
    { intros N. specialize (Hb N). by rewrite !Z.sub_0_r in Hb. }
    clear Hb. rename Hb' into Hb.
    exists (cond_Zopp s m3 / 2 ^ (- e3)). split.
    + destruct m3 as [| p | p]; [| | lia].
      * cbn [floor]. by destruct s.
      * cbn [floor]. rewrite Z.shiftl_div_pow2 by lia. reflexivity.
    + intros N. destruct s; cbn [cond_Zopp].
      * change (Z.neg m) with (- Z.pos m). split; intros H.
        -- apply int_le_dyadic in H; [| lia].
           apply Z.div_le_lower_bound; [assumption |].
           destruct (Hb (- N)) as [_ Hb2]. specialize (Hb2 ltac:(lia)). lia.
        -- apply dyadic_le_int in H; [| lia].
           apply Z.div_le_upper_bound; [assumption |].
           destruct (Hb (- N)) as [Hb1 _]. specialize (Hb1 ltac:(lia)). lia.
      * split; intros H.
        -- apply int_le_dyadic in H; [| lia].
           apply Z.div_le_lower_bound; [assumption |].
           destruct (Hb N) as [Hb1 _]. specialize (Hb1 H). lia.
        -- apply dyadic_le_int in H; [| lia].
           apply Z.div_le_upper_bound; [assumption |].
           destruct (Hb N) as [_ Hb2]. specialize (Hb2 H). lia.
Qed.

(** Converting an integer below [2^52] to a double is exact. *)
Lemma of_int_spec (p : positive) :
  Z.pos p < 2 ^ 52 ->
  exists m e,
    binary_normalize prec emax (Z.pos p) 0 false = S754_finite false m e
    /\ e <= 0 /\ Z.pos m = Z.pos p * 2 ^ (- e).
Proof.
  intros Hp. cbn [binary_normalize]. unfold binary_round, shl_align.
  pose proof (digits2_pos_le p 52 ltac:(lia) Hp) as Hd.
  rewrite fexp_eq.
  set (d := Z.pos (digits2_pos p)) in *.
  assert (Hd1 : 1 <= d) by (subst d; lia).
  replace (Z.max (d + 0 - 53) (-1074) - 0) with (d - 53) by lia.
  destruct (d - 53) as [| q | q] eqn:Hq; try lia.
  replace (Z.max (d + 0 - 53) (-1074)) with (Z.neg q) by lia.
  set (mz := Pos.iter xO p q).
  assert (Hmz : Z.pos mz = Z.pos p * 2 ^ Z.pos q).
  { subst mz. change (Pos.iter xO p q) with (shift_pos q p).
    rewrite shift_pos_correct. change (Z.pow_pos 2 q) with (2 ^ Z.pos q). lia. }
  assert (Hdz : Z.pos (digits2_pos mz) + Z.neg q <= 52).
  { assert (Z.pos (digits2_pos mz) <= 52 + Z.pos q); [| lia].
    apply digits2_pos_le; [lia |]. rewrite Hmz, Z.pow_add_r by lia.
    apply Z.mul_lt_mono_pos_r; [apply Z.pow_pos_nonneg; lia | assumption]. }
  destruct (binary_round_aux_spec 0 false mz (Z.neg q) ltac:(lia) Hdz)
    as [-> | (He & m3 & e3 & He3 & Hm3 & -> & Hb)].
  - exists mz, (Z.neg q). split; [reflexivity |]. split; [lia |].
    rewrite Hmz. reflexivity.
  - destruct (Hb (Z.pos p)) as [Hb1 Hb2]. rewrite !Z.sub_0_r in Hb1, Hb2.
    change (- Z.neg q) with (Z.pos q) in Hb1, Hb2.
    specialize (Hb1 ltac:(lia)). specialize (Hb2 ltac:(lia)).
    assert (H3 : m3 = Z.pos p * 2 ^ (- e3)) by lia.
    assert (0 < 2 ^ (- e3)) by (apply Z.pow_pos_nonneg; lia).
    destruct m3 as [| p3 | p3]; try lia.
    exists p3, e3. split; [reflexivity |]. split; [lia | exact H3].
Qed.

Lemma value_of_int (p m : positive) (e : Z) :
  e <= 0 -> Z.pos m = Z.pos p * 2 ^ (- e) ->
  (inject_Z (Z.pos m) * 2 ^ e == inject_Z (Z.pos p))%Q.
Proof.
  intros He Hm. apply Qle_antisym.
  - apply dyadic_le_int; [assumption | lia].
  - apply int_le_dyadic; [assumption | lia].
Qed.

Lemma value_mul (s : bool) (mr mn : positive) (er en : Z) (n : Q) :
  (inject_Z (Z.pos mn) * 2 ^ en == n)%Q ->
  (inject_Z (cond_Zopp s (Z.pos (mr * mn))) * 2 ^ (er + en)
   == inject_Z (cond_Zopp s (Z.pos mr)) * 2 ^ er * n)%Q.
Proof.
  intros <-. rewrite Qpower_plus by discriminate.
  assert (cond_Zopp s (Z.pos (mr * mn)) = cond_Zopp s (Z.pos mr) * Z.pos mn) as ->
    by (destruct s; cbn; lia).
  rewrite inject_Z_mult. ring.
Qed.


(** Line 138 on a finite rate, when the product stays below [2^52] in
    size: the call returns, and its result lies on the same side of every
    integer as the exact product. *)
Lemma num_corrupted_features_spec (rate : Float.t) (num_features : nat) :
  is_finite rate = true →
  Z.of_nat num_features < 2 ^ 52 →
  (- (2 ^ 52) < value rate * inject_Z (Z.of_nat num_features))%Q →
  (value rate * inject_Z (Z.of_nat num_features) < 2 ^ 52)%Q →
  ∃ k, num_corrupted_features rate num_features = Return k
       ∧ ∀ N, ((inject_Z N <= value rate * inject_Z (Z.of_nat num_features))%Q → N ≤ k)
              ∧ ((value rate * inject_Z (Z.of_nat num_features) <= inject_Z N)%Q → k ≤ N).
Proof.
  intros Hfin Hn Hlo Hhi.
  assert (Hzero : ∀ P : Q, (P == 0)%Q →
            ∀ N, ((inject_Z N <= P)%Q → N ≤ 0) ∧ ((P <= inject_Z N)%Q → 0 ≤ N)).
  { intros P HP N. rewrite HP. change 0%Q with (inject_Z 0). by rewrite <- !Zle_Qle. }
  unfold num_corrupted_features.
  destruct (Z.of_nat num_features) as [| p | p] eqn:Hp; [| | lia].
  - exists 0. split.
    + by destruct rate.
    + apply Hzero. apply Qmult_0_r.
  - destruct (of_int_spec p Hn) as (m & e & Hof & He & Hm).
    unfold of_int. rewrite Hof. cbn [mbind result_bind].
    pose proof (value_of_int p m e He Hm) as Hval.
    destruct rate as [s | s | | s mr er]; try discriminate.
    + exists 0. split; [reflexivity |]. apply Hzero. apply Qmult_0_l.
    + cbn [mul SFmul]. rewrite xorb_false_r.
      cbn [value] in *.
      pose proof (value_mul s mr m er e _ Hval) as Hprod.
      assert (Hd : Z.pos (digits2_pos (mr * m)) + (er + e) ≤ 52).
      { apply dyadic_lt_pow2.
        pose proof (value_mul false mr m er e _ Hval) as Hpos. cbn [cond_Zopp] in Hpos.
        rewrite Hpos. destruct s; cbn [cond_Zopp] in Hlo, Hhi; [| exact Hhi].
        change (inject_Z (Z.neg mr)) with (- inject_Z (Z.pos mr))%Q in Hlo.
        apply Qopp_lt_compat in Hlo. rewrite Qopp_involutive in Hlo.
        eapply Qle_lt_trans; [| exact Hlo]. apply Qle_lteq. right.
        rewrite inject_Z_opp. generalize (2 ^ er)%Q (inject_Z (Z.pos mr)) (inject_Z (Z.pos p)).
        intros c a b. ring. }
      destruct (round_floor_spec s (mr * m) (er + e) Hd) as (k & Hk & Hb).
      exists k. split; [exact Hk |].
      intros N. rewrite <- Hprod. apply Hb.
Qed.

Lemma value_negative (m : positive) (e : Z) :
  (value (S754_finite true m e) < 0)%Q.
Proof.
  cbn [value cond_Zopp]. change (Z.neg m) with (- Z.pos m). rewrite inject_Z_opp.
  assert (H : (0 < inject_Z (Z.pos m) * 2 ^ e)%Q).
  { apply Qmult_lt_0_compat; [reflexivity | by apply Qpower_0_lt]. }
  apply Qopp_lt_compat in H. eapply Qle_lt_trans; [| exact H].
  apply Qle_lteq. right. generalize (2 ^ e)%Q (inject_Z (Z.pos m)). intros c a. ring.
Qed.

(** Line 138 when the exact product is at most [1 - 2^(-52)]: the double
    product is below 1 and its floor is 0. *)
Lemma num_corrupted_features_zero (rate : Float.t) (num_features : nat) :
  is_finite rate = true →
  (0 <= value rate)%Q →
  Z.of_nat num_features < 2 ^ 52 →
  (value rate * inject_Z (Z.of_nat num_features) <= 1 - 2 ^ (-52))%Q →
  num_corrupted_features rate num_features = Return 0.
Proof.
  intros Hfin H0 Hn Hhi. unfold num_corrupted_features.
  destruct (Z.of_nat num_features) as [| p | p] eqn:Hp; [| | lia].
  - by destruct rate.
  - destruct (of_int_spec p Hn) as (m & e & Hof & He & Hm).
    unfold of_int. rewrite Hof. cbn [mbind result_bind].
    pose proof (value_of_int p m e He Hm) as Hval.
    destruct rate as [s | s | | s mr er]; try discriminate; [reflexivity |].
    destruct s.
    { pose proof (value_negative mr er) as Hneg. exfalso.
      apply (Qlt_irrefl 0). eapply Qle_lt_trans; eassumption. }
    cbn [mul SFmul xorb]. cbn [value cond_Zopp] in Hhi.
    pose proof (value_mul false mr m er e _ Hval) as Hprod. cbn [cond_Zopp] in Hprod.
    rewrite <- Hprod in Hhi.
    set (M := (mr * m)%positive) in *. set (E := er + e) in *.
    assert (Hd : Z.pos (digits2_pos M) + E ≤ 0).
    { apply dyadic_lt_pow2. eapply Qle_lt_trans; [exact Hhi |]. reflexivity. }
    pose proof (digits2_pos_spec M) as [_ HM].
    assert (HE : E < 0) by lia.
    destruct (binary_round_aux_spec 52 false M E ltac:(lia) ltac:(lia))
      as [-> | (HE' & m3 & e3 & He3 & Hm3 & -> & Hb)].
    + cbn [floor cond_Zopp]. rewrite Z.shiftl_div_pow2 by lia. f_equal.
      apply Z.div_small. split; [lia |].
      eapply Z.lt_le_trans; [exact HM |]. apply Z.pow_le_mono_r; lia.
    + assert (HM' : Z.pos M ≤ (2 ^ 52 - 1) * 2 ^ (- E - 52)).
      { replace (- E - 52) with (- (E + 52)) by lia.
        apply dyadic_le_int; [lia |].
        rewrite Qpower_plus by discriminate. rewrite Qmult_assoc.
        assert (H52 : ((1 - 2 ^ (-52)) * 2 ^ 52 == inject_Z (2 ^ 52 - 1))%Q) by reflexivity.
        rewrite <- H52. apply Qmult_le_compat_r; [exact Hhi | discriminate]. }
      destruct (Hb (2 ^ 52 - 1)) as [_ Hb2]. specialize (Hb2 HM').
      assert (Hp3 : 0 < 2 ^ (- e3 - 52)) by (apply Z.pow_pos_nonneg; lia).
      assert (Hpow : 2 ^ (- e3) = 2 ^ 52 * 2 ^ (- e3 - 52)).
      { rewrite <- Z.pow_add_r by lia. f_equal. lia. }
      assert (Hlt : m3 < 2 ^ (- e3)) by (rewrite Hpow; nia).
      destruct m3 as [| p3 | p3]; [reflexivity | | lia].
      cbn [floor cond_Zopp]. rewrite Z.shiftl_div_pow2 by lia. f_equal.
      apply Z.div_small. lia.
Qed.

End FloatProperties.

(* ===================================================================== *)
(** ** Properties of the corruption mask *)
(* ===================================================================== *)

Module CorruptionProperties.
Import Pretrainer Spec.


Lemma insert_by_Permutation (key : nat → N) (i : nat) (l : list nat) :
  insert_by key i l ≡ₚ i :: l.
Proof.
  induction l as [| j l IH]; cbn; [reflexivity |].
  destruct (key i <=? key j)%N; [reflexivity |].
  rewrite IH. apply Permutation_swap.
Qed.

Lemma argsort_Permutation (keys : list N) :
  argsort keys ≡ₚ seq 0 (length keys).
Proof.
  unfold argsort. generalize (seq 0 (length keys)) as l.
  induction l as [| i l IH]; cbn; [reflexivity |].
  by rewrite insert_by_Permutation, IH.
Qed.




Lemma leading_ones_app (k m : nat) :
  (k ≤ m)%nat → replicate k 1 ++ replicate (m - k) 0 = leading_ones k m.
Proof.
  intros Hk. apply list_eq. intros i. unfold leading_ones.
  rewrite list_lookup_fmap.
  destruct (decide (i < m)%nat) as [Hi | Hi].
  - rewrite lookup_seq_lt by assumption. cbn -[Nat.ltb].
    destruct (Nat.ltb_spec i k).
    + rewrite lookup_app_l by (rewrite length_replicate; lia).
      by rewrite lookup_replicate_2 by lia.
    + rewrite lookup_app_r by (rewrite length_replicate; lia).
      rewrite length_replicate. rewrite lookup_replicate_2 by lia. reflexivity.
  - rewrite (lookup_ge_None_2 (seq 0 m)) by (rewrite length_seq; lia).
    apply lookup_ge_None_2. rewrite length_app, !length_replicate. lia.
Qed.

Lemma nth_leading_ones (k m j : nat) :
  (k ≤ m)%nat → nth j (leading_ones k m) 0 = if (j <? k)%nat then 1 else 0.
Proof.
  intros Hk. rewrite nth_lookup. unfold leading_ones. rewrite list_lookup_fmap.
  destruct (decide (j < m)%nat) as [Hj | Hj].
  - by rewrite lookup_seq_lt.
  - rewrite (lookup_ge_None_2 (seq 0 m)) by (rewrite length_seq; lia). cbn -[Nat.ltb].
    destruct (Nat.ltb_spec j k); [lia | reflexivity].
Qed.

Lemma count_set_leading_ones (k m : nat) :
  (k ≤ m)%nat → count_set (leading_ones k m) = k.
Proof.
  intros Hk. rewrite <- leading_ones_app by assumption.
  unfold count_set. rewrite filter_app, length_app.
  assert (H1 : ∀ n, length (filter (λ v : Z, v ≠ 0) (replicate n 1)) = n).
  { induction n as [| n IH]; [reflexivity |]. cbn [replicate].
    rewrite filter_cons_True by lia. cbn. by rewrite IH. }
  assert (H0 : ∀ n, length (filter (λ v : Z, v ≠ 0) (replicate n 0)) = 0%nat).
  { induction n as [| n IH]; [reflexivity |]. cbn [replicate].
    by rewrite filter_cons_False by lia. }
  rewrite H1, H0. lia.
Qed.

Lemma count_set_Permutation (l1 l2 : list Z) :
  l1 ≡ₚ l2 → count_set l1 = count_set l2.
Proof. intros H. unfold count_set. by rewrite H. Qed.



Lemma insert_by_elem_of (key : nat → N) (i x : nat) (l : list nat) :
  x ∈ insert_by key i l ↔ x = i ∨ x ∈ l.
Proof. rewrite (insert_by_Permutation key i l). apply elem_of_cons. Qed.

Lemma insert_by_sorted (key : nat → N) (i : nat) (l : list nat) :
  StronglySorted (λ a b, (key a < key b)%N) l →
  (∀ y, y ∈ l → key i ≠ key y) →
  StronglySorted (λ a b, (key a < key b)%N) (insert_by key i l).
Proof.
  induction 1 as [| j l Hl IH Hj]; intros Hne; cbn.
  - repeat constructor.
  - destruct (N.leb_spec (key i) (key j)) as [Hle | Hgt].
    + constructor; [by constructor |].
      assert (Hij : (key i < key j)%N).
      { pose proof (Hne j ltac:(constructor)). lia. }
      constructor; [assumption |].
      eapply Forall_impl; [exact Hj |]. cbn. intros y Hy. lia.
    + constructor.
      * apply IH. intros y Hy. apply Hne. by constructor.
      * apply Forall_forall. intros y Hy. apply insert_by_elem_of in Hy as [-> | Hy].
        -- assumption.
        -- by eapply Forall_forall in Hj.
Qed.

Lemma foldr_insert_sorted (key : nat → N) (l : list nat) :
  NoDup l →
  (∀ x y, x ∈ l → y ∈ l → key x = key y → x = y) →
  StronglySorted (λ a b, (key a < key b)%N) (foldr (insert_by key) [] l).
Proof.
  induction 1 as [| x l Hx Hnd IH]; intros Hinj; cbn; [constructor |].
  apply insert_by_sorted.
  - apply IH. intros a b Ha Hb. apply Hinj; by constructor.
  - intros y Hy Hk.
    assert (Hyl : y ∈ l).
    { revert Hy. generalize l. clear. intros l.
      induction l as [| z l IH]; cbn; [inversion 1 |].
      intros Hy. apply insert_by_elem_of in Hy as [-> | Hy]; [constructor | constructor; auto]. }
    apply Hx. rewrite (Hinj x y); [assumption | constructor | by constructor | assumption].
Qed.

Lemma index_of_cons_ne (j x : nat) (l : list nat) :
  x ≠ j → index_of j (x :: l) = S (index_of j l).
Proof. intros Hne. cbn. by destruct (decide (x = j)). Qed.

Lemma index_of_inj (l : list nat) (x y : nat) :
  x ∈ l → y ∈ l → index_of x l = index_of y l → x = y.
Proof.
  induction l as [| z l IH]; [inversion 1 |].
  intros Hx Hy. cbn.
  destruct (decide (z = x)), (decide (z = y)); try congruence; try discriminate.
  intros [= Heq]. apply IH; [| | assumption].
  - apply elem_of_cons in Hx as [? | ?]; congruence.
  - apply elem_of_cons in Hy as [? | ?]; congruence.
Qed.

Lemma index_of_sorted (l : list nat) :
  NoDup l → StronglySorted (λ a b, (index_of a l < index_of b l)%nat) l.
Proof.
  induction 1 as [| x l Hx Hnd IH]; constructor.
  - assert (Hmono : ∀ l', (∀ y, y ∈ l' → y ∈ l) →
                StronglySorted (λ a b, (index_of a l < index_of b l)%nat) l' →
                StronglySorted (λ a b, (index_of a (x :: l) < index_of b (x :: l))%nat) l').
    { intros l' Hsub. induction 1 as [| a l' Hl' IH' Ha]; constructor.
      - apply IH'. intros y Hy. apply Hsub. by constructor.
      - apply Forall_forall. intros b Hb.
        assert (Hal : a ∈ l) by (apply Hsub; constructor).
        assert (Hbl : b ∈ l) by (apply Hsub; by constructor).
        assert (Hxa : x ≠ a) by (intros Heq; apply Hx; by rewrite Heq).
        assert (Hxb : x ≠ b) by (intros Heq; apply Hx; by rewrite Heq).
        rewrite (index_of_cons_ne a x l Hxa), (index_of_cons_ne b x l Hxb).
        eapply Forall_forall in Ha; [| exact Hb]. lia. }
    by apply Hmono.
  - apply Forall_forall. intros y Hy.
    assert (Hxy : x ≠ y) by (intros Heq; apply Hx; by rewrite Heq).
    rewrite (index_of_cons_ne y x l Hxy).
    cbn. destruct (decide (x = x)); [lia | congruence].
Qed.

(** X4. Every arrangement of the positions is the [argsort] of some draws: those
    that rank the positions in the order of the arrangement. *)
Theorem argsort_reaches_every_permutation (σ : list nat) :
  σ ≡ₚ seq 0 (length σ) →
  length (ranks σ) = length σ ∧ argsort (ranks σ) = σ.
Proof.
  intros Hperm.
  assert (Hlen : length (ranks σ) = length σ) by (unfold ranks; by rewrite length_fmap, length_seq).
  split; [exact Hlen |].
  set (key := λ i, nth i (ranks σ) 0%N).
  assert (Hkey : ∀ i, i ∈ σ → key i = N.of_nat (index_of i σ)).
  { intros i Hi. rewrite Hperm in Hi. apply elem_of_seq in Hi.
    subst key. cbn. rewrite nth_lookup. unfold ranks.
    rewrite list_lookup_fmap, lookup_seq_lt by lia. reflexivity. }
  assert (Hnd : NoDup σ) by (rewrite Hperm; apply NoDup_seq).
  apply (StronglySorted_unique_strong (λ a b, (key a < key b)%N)).
  - intros x1 x2 _ _ H1 H2. lia.
  - unfold argsort. fold key. rewrite Hlen.
    apply foldr_insert_sorted; [apply NoDup_seq |].
    intros x y Hx Hy. rewrite <- Hperm in Hx, Hy.
    rewrite !Hkey by assumption. intros Heq.
    apply (index_of_inj σ); [assumption | assumption | lia].
  - pose proof (index_of_sorted σ Hnd) as Hs.
    assert (Hgen : ∀ l', (∀ y, y ∈ l' → y ∈ σ) →
               StronglySorted (λ a b, (index_of a σ < index_of b σ)%nat) l' →
               StronglySorted (λ a b, (key a < key b)%N) l').
    { intros l' Hsub. induction 1 as [| a l' Hl' IH' Ha]; constructor.
      - apply IH'. intros y Hy. apply Hsub. by constructor.
      - apply Forall_forall. intros b Hb.
        rewrite !Hkey by (apply Hsub; by (constructor || (constructor; assumption))).
        eapply Forall_forall in Ha; [| exact Hb]. lia. }
    by apply Hgen.
  - rewrite argsort_Permutation. by rewrite Hlen.
Qed.

Lemma argsort_reaches_witness :
  [2; 0; 1]%nat ≡ₚ seq 0 3
  ∧ ranks [2; 0; 1]%nat = [1; 2; 0]%N
  ∧ argsort [1; 2; 0]%N = [2; 0; 1]%nat.
Proof.
  assert (Hperm : [2; 0; 1]%nat ≡ₚ seq 0 (length [2; 0; 1]%nat)).
  { cbn. etransitivity; [apply Permutation_swap |]. apply Permutation_skip, Permutation_swap. }
  split; [exact Hperm |]. split; [reflexivity |].
  destruct (argsort_reaches_every_permutation [2; 0; 1]%nat Hperm) as [_ Heq].
  exact Heq.
Defined.

(** *** The arrangement of a row is the order of its draws *)







(** *** Every arrangement is as likely as any other *)
















(** Line 138 at some rates: the floor is that of the double product.  The
    doubles written [0.6], [0.29] and [0.3333333333333333] give 6 of 10, 28
    of 100 and 1 of 3 features; a product beyond the doubles, or a NaN,
    makes [math.floor] raise. *)
Lemma num_corrupted_features_examples :
  num_corrupted_features Fixture.rate_0_6 10 = Return 6
  ∧ num_corrupted_features Fixture.rate_0_6 5 = Return 3
  ∧ num_corrupted_features Fixture.rate_0_29 100 = Return 28
  ∧ num_corrupted_features Fixture.rate_third 3 = Return 1
  ∧ num_corrupted_features Fixture.rate_1_5 2 = Return 3
  ∧ num_corrupted_features Fixture.rate_minus_half 5 = Return (-3)
  ∧ num_corrupted_features (SpecFloat.S754_finite false 9007199254740991 971) 2
    = Raise (OverflowError CannotConvertInfinity)
  ∧ num_corrupted_features SpecFloat.S754_nan 2 = Raise (ValueError CannotConvertNaN).
Proof. repeat split; by vm_compute. Qed.

(** *** The number of corrupted features *)




End CorruptionProperties.

(* ===================================================================== *)
(** ** Properties of the contrastive loss *)
(* ===================================================================== *)

Module LossProperties.
Import Pretrainer Spec.



Section Matrix.
Context {A : Type}.
Implicit Types g : nat → nat → A.

Lemma length_mat n g : length (mat n g) = n.
Proof. unfold mat. by rewrite length_fmap, length_seq. Qed.

Lemma mat_lookup n g i : (i < n)%nat → mat n g !! i = Some (g i <$> seq 0 n).
Proof. intros Hi. unfold mat. by rewrite list_lookup_fmap, lookup_seq_lt. Qed.

Lemma mat_lookup_ge n g i : (n ≤ i)%nat → mat n g !! i = None.
Proof. intros Hi. apply lookup_ge_None_2. by rewrite length_mat. Qed.

Lemma fmap_seq_ext {C} (f f' : nat → C) (s n : nat) :
  (∀ i, (s ≤ i < s + n)%nat → f i = f' i) → f <$> seq s n = f' <$> seq s n.
Proof.
  intros H. apply list_eq. intros i. rewrite !list_lookup_fmap.
  destruct (decide (i < n)%nat) as [Hi | Hi].
  - rewrite lookup_seq_lt by assumption. cbn. f_equal. apply H. lia.
  - by rewrite lookup_ge_None_2 by (rewrite length_seq; lia).
Qed.

Lemma mat_ext n g g' :
  (∀ i j, (i < n)%nat → (j < n)%nat → g i j = g' i j) → mat n g = mat n g'.
Proof.
  intros H. unfold mat. apply fmap_seq_ext. intros i Hi.
  apply fmap_seq_ext. intros j Hj. apply H; lia.
Qed.

Lemma set2_mat n g i j v :
  (i < n)%nat → (j < n)%nat →
  set2 (mat n g) i j v
  = mat n (λ i' j', if bool_decide (i' = i ∧ j' = j) then v else g i' j').
Proof.
  intros Hi Hj. unfold set2. apply list_eq. intros i'.
  destruct (decide (i' < n)%nat) as [Hi' | Hi'].
  - rewrite mat_lookup by assumption.
    destruct (decide (i' = i)) as [-> | Hne].
    + rewrite list_lookup_alter_eq, mat_lookup by assumption. cbn. f_equal.
      apply list_eq. intros j'. rewrite list_lookup_fmap.
      destruct (decide (j' < n)%nat) as [Hj' | Hj'].
      * rewrite lookup_seq_lt by assumption. cbn.
        destruct (decide (j' = j)) as [-> | Hnej].
        -- rewrite list_lookup_insert_eq by (by rewrite length_fmap, length_seq).
           by rewrite bool_decide_eq_true_2.
        -- rewrite list_lookup_insert_ne by congruence.
           rewrite list_lookup_fmap, lookup_seq_lt by assumption. cbn.
           rewrite bool_decide_eq_false_2; [reflexivity | intros [_ ?]; congruence].
      * rewrite (lookup_ge_None_2 (seq 0 n)) by (rewrite length_seq; lia).
        apply lookup_ge_None_2. rewrite length_insert, length_fmap, length_seq. lia.
    + rewrite list_lookup_alter_ne, mat_lookup by congruence. f_equal.
      apply fmap_seq_ext. intros j' _.
      rewrite bool_decide_eq_false_2; [reflexivity | intros [? _]; congruence].
  - rewrite mat_lookup_ge by lia.
    apply lookup_ge_None_2. rewrite length_alter, length_mat. lia.
Qed.

Lemma fill_diagonal_mat n g v :
  fill_diagonal_ (mat n g) v = mat n (λ i j, if bool_decide (i = j) then v else g i j).
Proof.
  unfold fill_diagonal_. apply list_eq. intros i. rewrite list_lookup_imap.
  destruct (decide (i < n)%nat) as [Hi | Hi].
  - rewrite !mat_lookup by assumption. cbn. f_equal.
    apply list_eq. intros j. rewrite list_lookup_fmap.
    destruct (decide (j < n)%nat) as [Hj | Hj].
    + rewrite lookup_seq_lt by assumption. cbn.
      destruct (decide (i = j)) as [-> | Hne].
      * rewrite list_lookup_insert_eq by (by rewrite length_fmap, length_seq).
        by rewrite bool_decide_eq_true_2.
      * rewrite list_lookup_insert_ne by congruence.
        rewrite list_lookup_fmap, lookup_seq_lt by assumption. cbn.
        by rewrite bool_decide_eq_false_2.
    + rewrite (lookup_ge_None_2 (seq 0 n)) by (rewrite length_seq; lia).
      apply lookup_ge_None_2. rewrite length_insert, length_fmap, length_seq. lia.
  - by rewrite !mat_lookup_ge by lia.
Qed.

Lemma replicate_mat n (v : A) : replicate n (replicate n v) = mat n (λ _ _, v).
Proof.
  unfold mat. apply list_eq. intros i.
  destruct (decide (i < n)%nat) as [Hi | Hi].
  - rewrite lookup_replicate_2, list_lookup_fmap, lookup_seq_lt by assumption. cbn. f_equal.
    apply list_eq. intros j.
    destruct (decide (j < n)%nat) as [Hj | Hj].
    + by rewrite lookup_replicate_2, list_lookup_fmap, lookup_seq_lt by assumption.
    + rewrite !lookup_ge_None_2; [reflexivity | |].
      * rewrite length_fmap, length_seq. lia.
      * rewrite length_replicate. lia.
  - rewrite !lookup_ge_None_2; [reflexivity | |].
    + rewrite length_fmap, length_seq. lia.
    + rewrite length_replicate. lia.
Qed.

End Matrix.

Lemma mask_loop (B : nat) (t d : nat) (m0 : nat → nat → bool) :
  (t + d = B)%nat →
  foldl (λ mask i, set2 (set2 mask i (B + i) false) (B + i) i false)
        (mat (2 * B) m0) (seq t d)
  = mat (2 * B)
        (λ i j, if bool_decide ((t ≤ i < B ∧ j = B + i) ∨ (t ≤ j < B ∧ i = B + j))%nat
                then false else m0 i j).
Proof.
  revert t m0. induction d as [| d IH]; intros t m0 Htd; cbn [seq foldl].
  - apply mat_ext. intros i j _ _. rewrite bool_decide_eq_false_2; [reflexivity | lia].
  - rewrite !set2_mat by lia. rewrite IH by lia.
    apply mat_ext. intros i j _ _.
    repeat case_bool_decide; try reflexivity; lia.
Qed.

Lemma mask_correlated_samples_mat (B : nat) :
  mask_correlated_samples B = mat (2 * B) (mask_bit B).
Proof.
  unfold mask_correlated_samples.
  rewrite replicate_mat, fill_diagonal_mat, (mask_loop B 0 B) by lia.
  apply mat_ext. intros i j Hi Hj. unfold mask_bit.
  repeat case_bool_decide;
    repeat match goal with
           | |- context [(?a =? ?b)%nat] => destruct (Nat.eqb_spec a b)
           end; cbn; try reflexivity; lia.
Qed.

Lemma mat_lookup2 {A} n (g : nat → nat → A) i j :
  mat n g !! i ≫= (.!! j) = if bool_decide (i < n ∧ j < n)%nat then Some (g i j) else None.
Proof.
  destruct (decide (i < n)%nat) as [Hi | Hi].
  - rewrite mat_lookup by assumption. cbn. rewrite list_lookup_fmap.
    destruct (decide (j < n)%nat) as [Hj | Hj].
    + rewrite lookup_seq_lt by assumption. by rewrite bool_decide_eq_true_2.
    + rewrite (lookup_ge_None_2 (seq 0 n)) by (rewrite length_seq; lia).
      rewrite bool_decide_eq_false_2; [reflexivity | lia].
  - rewrite mat_lookup_ge by lia. rewrite bool_decide_eq_false_2; [reflexivity | lia].
Qed.

Lemma omap_all_None {A C} (f : C → option A) (l : list C) :
  (∀ x, x ∈ l → f x = None) → omap f l = [].
Proof.
  induction l as [| x l IH]; intros H; [reflexivity |].
  cbn. rewrite H by constructor. apply IH. intros y Hy. apply H. by constructor.
Qed.

Lemma omap_all_Some {A C} (f : C → option A) (g : C → A) (l : list C) :
  (∀ x, x ∈ l → f x = Some (g x)) → omap f l = g <$> l.
Proof.
  induction l as [| x l IH]; intros H; [reflexivity |].
  cbn. rewrite H by constructor. cbn. f_equal.
  apply IH. intros y Hy. apply H. by constructor.
Qed.

Lemma omap_seq_prefix {A} (f : nat → option A) (g : nat → A) (m n : nat) :
  (m ≤ n)%nat →
  (∀ i, (i < m)%nat → f i = Some (g i)) →
  (∀ i, (m ≤ i < n)%nat → f i = None) →
  omap f (seq 0 n) = g <$> seq 0 m.
Proof.
  intros Hmn Hsome Hnone.
  replace n with (m + (n - m))%nat by lia.
  rewrite seq_app, omap_app.
  rewrite (omap_all_None f (seq (0 + m) (n - m))).
  - rewrite app_nil_r. apply omap_all_Some.
    intros i Hi. apply elem_of_seq in Hi. apply Hsome. lia.
  - intros i Hi. apply elem_of_seq in Hi. apply Hnone. lia.
Qed.

Lemma diag_mat_pos {A} n (g : nat → nat → A) (k : nat) :
  diag (mat n g) (Z.of_nat k) = (λ i, g i (i + k)%nat) <$> seq 0 (n - k).
Proof.
  unfold diag. destruct (Z.leb_spec 0 (Z.of_nat k)); [| lia].
  rewrite length_mat, Nat2Z.id.
  apply omap_seq_prefix; [lia | |]; intros i Hi; rewrite mat_lookup2.
  - rewrite bool_decide_eq_true_2; [reflexivity | lia].
  - rewrite bool_decide_eq_false_2; [reflexivity | lia].
Qed.

Lemma diag_mat_neg {A} n (g : nat → nat → A) (k : nat) :
  (0 < k)%nat →
  diag (mat n g) (- Z.of_nat k) = (λ i, g (i + k)%nat i) <$> seq 0 (n - k).
Proof.
  intros Hk. unfold diag. destruct (Z.leb_spec 0 (- Z.of_nat k)); [lia |].
  rewrite length_mat, Z.opp_involutive, Nat2Z.id.
  apply omap_seq_prefix; [lia | |]; intros i Hi; rewrite mat_lookup2.
  - rewrite bool_decide_eq_true_2; [reflexivity | lia].
  - rewrite bool_decide_eq_false_2; [reflexivity | lia].
Qed.

Lemma shape2d_mat {A} n (g : nat → nat → A) : shape2d (mat n g) = (n, n).
Proof.
  unfold shape2d. rewrite length_mat. f_equal.
  destruct n; [reflexivity |]. cbn. by rewrite length_fmap, length_seq.
Qed.

Lemma filter_zip_fmap_seq {A} (f : nat → A) (m : nat → bool) (l : list nat) :
  (filter (λ vb : A * bool, vb.2 = true) (zip (f <$> l) (m <$> l))).*1
  = f <$> filter (λ j, m j = true) l.
Proof.
  induction l as [| x l IH]; [reflexivity |]. cbn [fmap list_fmap zip zip_with].
  rewrite !filter_cons. cbn [snd].
  destruct (decide (m x = true)); cbn; by rewrite IH.
Qed.

Lemma masked_select_mat {A} n (g : nat → nat → A) (m : nat → nat → bool) :
  masked_select (mat n g) (mat n m)
  = Return (concat ((λ i, g i <$> filter (λ j, m i j = true) (seq 0 n)) <$> seq 0 n)).
Proof.
  unfold masked_select. rewrite !shape2d_mat, bool_decide_eq_true_2 by reflexivity.
  f_equal. f_equal. unfold mat.
  rewrite zip_with_fmap_l, zip_with_fmap_r, zip_with_diag.
  apply list_fmap_ext. intros _ i _. apply filter_zip_fmap_seq.
Qed.

Lemma chunks_concat {A} (size : nat) (rows : list (list A)) :
  Forall (λ r, length r = size) rows →
  chunks (length rows) size (concat rows) = rows.
Proof.
  induction 1 as [| r rows Hr _ IH]; [reflexivity |]. cbn.
  rewrite take_app_length', drop_app_length' by congruence. by rewrite IH.
Qed.

Lemma length_concat_uniform {A} (size : nat) (rows : list (list A)) :
  Forall (λ r, length r = size) rows → length (concat rows) = (length rows * size)%nat.
Proof.
  induction 1 as [| r rows Hr _ IH]; [reflexivity |]. cbn.
  rewrite length_app, IH, Hr. lia.
Qed.

Lemma reshape_n_auto_rows {A} (size : nat) (rows : list (list A)) :
  rows ≠ [] →
  Forall (λ r, length r = size) rows →
  reshape_n_auto (length rows) (concat rows) = Return rows.
Proof.
  intros Hne Hrows. unfold reshape_n_auto.
  destruct (Nat.eqb_spec (length rows) 0) as [H0 | H0].
  { destruct rows; [contradiction | discriminate]. }
  rewrite (length_concat_uniform size) by assumption.
  rewrite (Nat.mul_comm (length rows) size).
  rewrite Nat.Div0.mod_mul, Nat.div_mul by assumption. cbn.
  by rewrite chunks_concat.
Qed.

Lemma length_filter_two_out (a b s n : nat) :
  a ≠ b →
  (length (filter (λ j, j ≠ a ∧ j ≠ b) (seq s n))
   + (if decide (s ≤ a < s + n)%nat then 1 else 0)
   + (if decide (s ≤ b < s + n)%nat then 1 else 0) = n)%nat.
Proof.
  intros Hab. revert s. induction n as [| n IH]; intros s; cbn [seq].
  - rewrite filter_nil. cbn. repeat case_decide; lia.
  - specialize (IH (S s)). rewrite filter_cons.
    destruct (decide (s ≠ a ∧ s ≠ b)) as [Hs | Hs]; cbn [length];
      repeat case_decide; lia.
Qed.

Lemma filter_ext_in {A} (P Q : A → Prop) `{!∀ x, Decision (P x), !∀ x, Decision (Q x)}
    (l : list A) :
  (∀ x, x ∈ l → P x ↔ Q x) → filter P l = filter Q l.
Proof.
  induction l as [| x l IH]; intros Hall; [reflexivity |].
  rewrite !filter_cons.
  assert (Hx : P x ↔ Q x) by (apply Hall; constructor).
  assert (Hl : filter P l = filter Q l) by (apply IH; intros y Hy; apply Hall; by constructor).
  destruct (decide (P x)), (decide (Q x)); try tauto; by rewrite Hl.
Qed.

Lemma twin_lt (B i : nat) : (i < 2 * B)%nat → (twin B i < 2 * B)%nat.
Proof. unfold twin. destruct (Nat.ltb_spec i B); lia. Qed.

Lemma mask_bit_true_iff (B i j : nat) :
  (0 < B)%nat → (i < 2 * B)%nat → (j < 2 * B)%nat →
  mask_bit B i j = true ↔ j ≠ i ∧ j ≠ twin B i.
Proof.
  intros HB Hi Hj. unfold mask_bit, twin.
  destruct (Nat.ltb_spec i B);
    repeat match goal with
           | |- context [(?a =? ?b)%nat] => destruct (Nat.eqb_spec a b)
           end; cbn; split; intros; try lia; try discriminate; try reflexivity.
Qed.

Lemma length_negatives (B i : nat) :
  (0 < B)%nat → (i < 2 * B)%nat →
  length (filter (λ j, mask_bit B i j = true) (seq 0 (2 * B))) = (2 * B - 2)%nat.
Proof.
  intros HB Hi.
  rewrite (filter_ext_in _ (λ j, j ≠ i ∧ j ≠ twin B i)).
  - pose proof (length_filter_two_out i (twin B i) 0 (2 * B)) as H.
    pose proof (twin_lt B i Hi) as Ht.
    assert (Hne : i ≠ twin B i) by (unfold twin; destruct (Nat.ltb_spec i B); lia).
    specialize (H Hne).
    repeat case_decide; lia.
  - intros j Hj. apply elem_of_seq in Hj. apply mask_bit_true_iff; lia.
Qed.

Lemma fmap_seq_shift {A} (f : nat → A) (s n : nat) :
  f <$> seq s n = (λ i, f (i + s)%nat) <$> seq 0 n.
Proof.
  apply list_eq. intros i. rewrite !list_lookup_fmap.
  destruct (decide (i < n)%nat) as [Hi | Hi].
  - rewrite !lookup_seq_lt by assumption. cbn. do 2 f_equal. lia.
  - by rewrite !lookup_ge_None_2 by (rewrite length_seq; lia).
Qed.

Section Forward.
Context {T E : Type}.
Variable cosine_similarity : E → E → T.
Variable div : T → T → T.
Variable div_int : T → Z → T.
Variable zero : T.
Variable add : T → T → T.
Variable cross_entropy : list T → nat → T.

#[local] Abbreviation forward :=
  (forward cosine_similarity div div_int zero add cross_entropy).

Lemma sim_mat (temp : T) (e : nat → E) (n : nat) :
  (λ a, (λ b, div (cosine_similarity a b) temp) <$> (e <$> seq 0 n)) <$> (e <$> seq 0 n)
  = mat n (λ i j, div (cosine_similarity (e i) (e j)) temp).
Proof.
  unfold mat. rewrite <- list_fmap_compose. apply list_fmap_ext. intros _ i _. cbn.
  by rewrite <- list_fmap_compose.
Qed.

Lemma list_as_fmap_seq {A} (l : list A) (d : A) :
  l = (λ i, nth i l d) <$> seq 0 (length l).
Proof.
  apply list_eq. intros i. rewrite list_lookup_fmap.
  destruct (decide (i < length l)%nat) as [Hi | Hi].
  - rewrite lookup_seq_lt by assumption. cbn. rewrite nth_lookup.
    by destruct (lookup_lt_is_Some_2 l i Hi) as [x ->].
  - rewrite (lookup_ge_None_2 (seq 0 (length l))) by (rewrite length_seq; lia).
    apply lookup_ge_None_2. lia.
Qed.

Lemma batches_as_fmap_seq (B : nat) (z_i z_j : list E) (d : E) :
  length z_i = B → length z_j = B →
  let e := λ i, nth i (z_i ++ z_j) d in
  z_i = e <$> seq 0 B ∧ z_j = e <$> seq B B.
Proof.
  intros Hi Hj e.
  pose proof (list_as_fmap_seq (z_i ++ z_j) d) as Hz. fold e in Hz.
  rewrite length_app, Hi, Hj, seq_app, fmap_app in Hz.
  apply app_inj_1 in Hz; [exact Hz | by rewrite length_fmap, length_seq].
Qed.

Lemma forward_value (b : nat) (temp : T) (e : nat → E) :
  let B := S b in
  let N := (2 * B)%nat in
  let sim i j := div (cosine_similarity (e i) (e j)) temp in
  let logits i :=
    sim i (twin B i) :: (sim i <$> filter (λ j, mask_bit B i j = true) (seq 0 N)) in
  forward (__init__ B temp) (e <$> seq 0 B) (e <$> seq B B)
  = Return (div_int (foldr add zero ((λ i, cross_entropy (logits i) 0%nat) <$> seq 0 N))
                    (Z.of_nat N)).
Proof.
  intros B N sim logits. unfold Pretrainer.forward.
  cbn [batch_size temperature mask __init__]. fold B N.
  rewrite <- fmap_app. change (seq B B) with (seq (0 + B) B). rewrite <- seq_app.
  replace (B + B)%nat with N by lia.
  rewrite sim_mat. fold sim.
  rewrite diag_mat_pos, diag_mat_neg by lia.
  replace (N - B)%nat with B by lia.
  assert (Hpos : ((λ i, sim i (i + B)%nat) <$> seq 0 B) ++ ((λ i, sim (i + B)%nat i) <$> seq 0 B)
                 = (λ i, sim i (twin B i)) <$> seq 0 N).
  { replace N with (B + B)%nat by lia. rewrite seq_app, fmap_app. f_equal.
    - apply fmap_seq_ext. intros i Hi. unfold twin.
      destruct (Nat.ltb_spec i B); [reflexivity | lia].
    - rewrite (fmap_seq_shift _ (0 + B)). apply fmap_seq_ext. intros i Hi. unfold twin.
      cbn beta. destruct (Nat.ltb_spec (i + (0 + B)) B); [lia |].
      replace (i + (0 + B) - B)%nat with i by lia.
      replace (i + (0 + B))%nat with (i + B)%nat by lia. reflexivity. }
  rewrite Hpos.
  unfold reshape_n_1. rewrite length_fmap, length_seq, Nat.eqb_refl. cbn [mbind result_bind].
  rewrite mask_correlated_samples_mat. fold N.
  rewrite masked_select_mat. cbn [mbind result_bind].
  set (rows := (λ i, sim i <$> filter (λ j, mask_bit B i j = true) (seq 0 N)) <$> seq 0 N).
  assert (Hlen : length rows = N) by (subst rows; by rewrite length_fmap, length_seq).
  rewrite <- Hlen at 1.
  rewrite (reshape_n_auto_rows (N - 2)).
  2: { intros Hnil. rewrite Hnil in Hlen. cbn in Hlen. lia. }
  2: { subst rows. apply Forall_fmap, Forall_forall. intros i Hi. apply elem_of_seq in Hi.
       cbv beta delta [compose]. rewrite length_fmap. apply length_negatives; lia. }
  cbn [mbind result_bind].
  unfold cat_dim1. rewrite !length_fmap, length_seq, Hlen, Nat.eqb_refl. cbn [mbind result_bind].
  unfold criterion. rewrite length_zip_with, !length_fmap, length_seq, Hlen, length_replicate.
  rewrite Nat.min_id, Nat.eqb_refl. cbn [mbind result_bind mret result_ret].
  do 3 f_equal.
  subst rows. rewrite <- list_fmap_compose.
  rewrite zip_with_fmap_l, zip_with_fmap_r, zip_with_diag.
  rewrite zip_with_replicate_r_eq by (by rewrite length_fmap, length_seq).
  rewrite <- list_fmap_compose. reflexivity.
Qed.

(** The similarity matrix of any batch is a matrix in the sense of [mat]. *)
Lemma sim_as_mat (temp : T) (z : list E) :
  ∃ g : nat → nat → T,
    (λ a, (λ b, div (cosine_similarity a b) temp) <$> z) <$> z = mat (length z) g.
Proof.
  destruct z as [| d z'] eqn:Hz.
  - exists (λ _ _, zero). reflexivity.
  - rewrite <- Hz. exists (λ i j, div (cosine_similarity (nth i z d) (nth j z d)) temp).
    rewrite <- sim_mat. by rewrite <- list_as_fmap_seq.
Qed.

(** When the two batches do not hold [2 * batch_size] embeddings together,
    the two diagonals do not fill the [(2 * batch_size, 1)] array of
    positives, and [reshape] raises. *)
Lemma forward_size_mismatch (B : nat) (temp : T) (z_i z_j : list E) :
  (length z_i + length z_j ≠ 2 * B)%nat →
  forward (__init__ B temp) z_i z_j = Raise (RuntimeError ShapeInvalidForInput).
Proof.
  intros Hne. unfold Pretrainer.forward.
  cbn [batch_size temperature mask __init__].
  destruct (sim_as_mat temp (z_i ++ z_j)) as [g ->].
  rewrite length_app. set (n := (length z_i + length z_j)%nat) in *.
  rewrite diag_mat_pos.
  assert (Hneg : length (diag (mat n g) (- Z.of_nat B)) = (n - B)%nat).
  { destruct B as [| B'].
    - change (- Z.of_nat 0) with (Z.of_nat 0). rewrite diag_mat_pos.
      by rewrite length_fmap, length_seq.
    - rewrite diag_mat_neg by lia. by rewrite length_fmap, length_seq. }
  unfold reshape_n_1. rewrite length_app, Hneg, length_fmap, length_seq.
  destruct (Nat.eqb_spec (n - B + (n - B)) (2 * B)) as [Heq | _]; [lia | reflexivity].
Qed.

(** C4. For two batches of [B] embeddings each, [B] at least one, the loss
    is computed from the matrix of the [2B] by [2B] pairwise cosine
    similarities divided by the temperature.  The mask keeps every pair but
    those on the diagonal and on the two diagonals at offset [B]; the logits
    of row [i] are the similarity to its twin [i + B] or [i - B], taken from
    those two diagonals, followed by the similarities to the [2B - 2] rows
    the mask keeps; the loss is the sum over the [2B] rows of the
    cross-entropy of the logits against label 0, divided by [2B].  ([d] is
    the default of [nth] and is never returned.) *)
Theorem simclr_forward_nt_xent (B : nat) (temp : T) (z_i z_j : list E) (d : E) :
  (0 < B)%nat → length z_i = B → length z_j = B →
  let N := (2 * B)%nat in
  let z := z_i ++ z_j in
  let sim i j := div (cosine_similarity (nth i z d) (nth j z d)) temp in
  let negatives i := filter (λ j, mask_bit B i j = true) (seq 0 N) in
  let logits i := sim i (twin B i) :: (sim i <$> negatives i) in
  mask (__init__ B temp) = mat N (mask_bit B)
  ∧ (∀ i, (i < N)%nat →
       (twin B i < N)%nat
       ∧ negatives i = filter (λ j, j ≠ i ∧ j ≠ twin B i) (seq 0 N)
       ∧ length (negatives i) = (N - 2)%nat)
  ∧ forward (__init__ B temp) z_i z_j
    = Return (div_int (foldr add zero ((λ i, cross_entropy (logits i) 0%nat) <$> seq 0 N))
                      (Z.of_nat N)).
Proof.
  intros HB Hi Hj N z sim negatives logits. split; [| split].
  - apply mask_correlated_samples_mat.
  - intros i Hlt. split; [by apply twin_lt |]. split.
    + apply filter_ext_in. intros j Hin. apply elem_of_seq in Hin.
      apply mask_bit_true_iff; subst N; lia.
    + apply length_negatives; subst N; lia.
  - destruct (batches_as_fmap_seq B z_i z_j d Hi Hj) as [Hzi Hzj].
    set (e := λ i, nth i (z_i ++ z_j) d) in *.
    destruct B as [| b]; [lia |].
    rewrite Hzi at 1. rewrite Hzj at 1.
    exact (forward_value b temp e).
Qed.

(** C5, as the code has it. When the batches passed to [forward] do not have
    the batch size fixed at construction (128 for the loss [ScarfModel]
    builds), the loss computation fails: the [reshape] of the positives to
    [(2 * batch_size, 1)] raises [RuntimeError], before the mask is used.
    No assertion is involved. *)
Theorem batch_size_mismatch_raises_runtime_error
    (B : nat) (temp : T) (z_i z_j : list E) :
  length z_i = length z_j →
  length z_i ≠ B →
  forward (__init__ B temp) z_i z_j = Raise (RuntimeError ShapeInvalidForInput)
  ∧ (B = 128%nat →
     train_loss cosine_similarity div div_int zero add cross_entropy temp z_i z_j
     = Raise (RuntimeError ShapeInvalidForInput)).
Proof.
  intros Hlen Hne.
  assert (H : forward (__init__ B temp) z_i z_j = Raise (RuntimeError ShapeInvalidForInput))
    by (apply forward_size_mismatch; lia).
  split; [exact H |]. intros ->. exact H.
Qed.

End Forward.

(** The loss on two batches of two embeddings, as the expression it
    computes. *)
Lemma simclr_forward_witness :
  (0 < 2)%nat
  ∧ length [0; 1]%nat = 2%nat
  ∧ length [2; 3]%nat = 2%nat
  ∧ Fixture.forward 2 [0; 1]%nat [2; 3]%nat
    = (let sim a b := Fixture.Div (Fixture.Cos a b) Fixture.Temperature in
       Return
         (Fixture.DivInt
            (Fixture.Add (Fixture.CrossEntropy [sim 0 2; sim 0 1; sim 0 3]%nat 0)
            (Fixture.Add (Fixture.CrossEntropy [sim 1 3; sim 1 0; sim 1 2]%nat 0)
            (Fixture.Add (Fixture.CrossEntropy [sim 2 0; sim 2 1; sim 2 3]%nat 0)
            (Fixture.Add (Fixture.CrossEntropy [sim 3 1; sim 3 0; sim 3 2]%nat 0)
             Fixture.Zero))))
            4)).
Proof.
  assert (HB : (0 < 2)%nat) by (repeat constructor).
  split; [exact HB |]. split; [reflexivity |]. split; [reflexivity |].
  destruct (simclr_forward_nt_xent
              Fixture.Cos Fixture.Div Fixture.DivInt Fixture.Zero Fixture.Add
              Fixture.CrossEntropy 2 Fixture.Temperature [0; 1]%nat [2; 3]%nat 0%nat
              HB eq_refl eq_refl) as (_ & _ & Hforward).
  exact Hforward.
Defined.

(** C5, as the specification states it, does not hold: a batch of one
    embedding against the loss built for 128 does not fail with an
    assertion. *)
Lemma batch_size_mismatch_is_not_an_assertion :
  ¬ (∀ (z_i z_j : list nat),
       length z_i = length z_j →
       length z_i ≠ 128%nat →
       Fixture.train_loss z_i z_j = Raise AssertionError).
Proof.
  intros H. specialize (H [0%nat] [1%nat] eq_refl ltac:(cbn; lia)).
  unfold Fixture.train_loss, train_loss, ScarfModel_loss_fn in H.
  rewrite forward_size_mismatch in H by (cbn; lia).
  discriminate.
Qed.

Lemma batch_size_mismatch_witness :
  length [0%nat] = length [1%nat]
  ∧ length [0%nat] ≠ 128%nat
  ∧ Fixture.train_loss [0%nat] [1%nat] = Raise (RuntimeError ShapeInvalidForInput).
Proof.
  split; [reflexivity |]. split; [cbn; lia |].
  apply (batch_size_mismatch_raises_runtime_error
           Fixture.Cos Fixture.Div Fixture.DivInt Fixture.Zero Fixture.Add
           Fixture.CrossEntropy 128 Fixture.Temperature [0%nat] [1%nat] eq_refl);
    [cbn; lia | reflexivity].
Defined.

End LossProperties.

(* ===================================================================== *)
(** ** Properties of the shuffle, of [_corrupt] and of the loss at its edges *)
(* ===================================================================== *)

Module ScarfProperties.
Import Pretrainer Spec.

Lemma fmap_nth_seq (row : list Z) :
  (λ j, nth j row 0) <$> seq 0 (length row) = row.
Proof. symmetry. apply LossProperties.list_as_fmap_seq. Qed.

Lemma shuffle_along_axis_row (rand : rand_oracle) (a : list (list Z)) (i : nat) (row : list Z) :
  a !! i = Some row →
  shuffle_along_axis rand a !! i
  = Some ((λ j, nth j row 0) <$> argsort (rand i <$> seq 0 (length (hd [] a)))).
Proof.
  intros Hrow. unfold shuffle_along_axis, take_along_axis, np_random_rand.
  pose proof (lookup_lt_Some _ _ _ Hrow) as Hi.
  rewrite lookup_zip_with, Hrow. cbn.
  by rewrite !list_lookup_fmap, lookup_seq_lt by assumption.
Qed.

Lemma length_shuffle_along_axis (rand : rand_oracle) (a : list (list Z)) :
  length (shuffle_along_axis rand a) = length a.
Proof.
  unfold shuffle_along_axis, take_along_axis, np_random_rand.
  rewrite length_zip_with, !length_fmap, length_seq. lia.
Qed.

(** X13. [shuffle_along_axis] on a matrix (every row of the same length)
    keeps the number of rows and rearranges every row within itself: row
    [i] of the result is row [i] of the input read through a permutation of
    its positions, the [argsort] of the draws of the generator for that row.
    No entry moves to another row, none is lost or repeated. *)
Theorem shuffle_along_axis_permutes_every_row
    (rand : rand_oracle) (a : list (list Z)) (m : nat) :
  Forall (λ row, length row = m) a →
  length (shuffle_along_axis rand a) = length a
  ∧ ∀ i row, a !! i = Some row →
      ∃ σ shuffled,
        σ = argsort (rand i <$> seq 0 m)
        ∧ σ ≡ₚ seq 0 m
        ∧ shuffle_along_axis rand a !! i = Some shuffled
        ∧ shuffled = (λ j, nth j row 0) <$> σ
        ∧ shuffled ≡ₚ row.
Proof.
  intros Hrect. split; [apply length_shuffle_along_axis |].
  intros i row Hrow.
  assert (Hm : length (hd [] a) = m).
  { destruct a as [| r a']; [by rewrite lookup_nil in Hrow |].
    by apply Forall_cons in Hrect as [? _]. }
  assert (Hlen : length row = m).
  { rewrite Forall_forall in Hrect. apply Hrect. by eapply list_elem_of_lookup_2. }
  pose proof (CorruptionProperties.argsort_Permutation (rand i <$> seq 0 m)) as Hperm.
  rewrite length_fmap, length_seq in Hperm.
  eexists _, _. split; [reflexivity |]. split; [exact Hperm |].
  split; [by rewrite (shuffle_along_axis_row _ _ _ row), Hm |].
  split; [reflexivity |].
  rewrite Hperm, <- Hlen. by rewrite fmap_nth_seq.
Qed.

Lemma slice_stop_le (k : Z) (m : nat) : (slice_stop k m ≤ m)%nat.
Proof. unfold slice_stop. destruct (k <? 0); lia. Qed.

Lemma corruption_mask_row_any (rand : rand_oracle) (k : Z) (batch_size m i : nat) :
  (i < batch_size)%nat →
  corruption_mask rand k batch_size m !! i
  = Some ((λ j, if (j <? slice_stop k m)%nat then 1 else 0) <$> argsort (rand i <$> seq 0 m)).
Proof.
  intros Hi. unfold corruption_mask.
  pose proof (slice_stop_le k m) as Hle.
  rewrite fmap_replicate, drop_replicate.
  rewrite CorruptionProperties.leading_ones_app by assumption.
  rewrite (shuffle_along_axis_row _ _ _ (leading_ones (slice_stop k m) m))
    by (by apply lookup_replicate_2).
  assert (Hhd : length (hd [] (replicate batch_size (leading_ones (slice_stop k m) m))) = m).
  { destruct batch_size; [lia |]. cbn. unfold leading_ones. by rewrite length_fmap, length_seq. }
  rewrite Hhd. f_equal. apply list_fmap_ext. intros _ j _.
  by apply CorruptionProperties.nth_leading_ones.
Qed.

Lemma corruption_mask_count (rand : rand_oracle) (k : Z) (batch_size m i : nat) (row : list Z) :
  corruption_mask rand k batch_size m !! i = Some row →
  length row = m ∧ count_set row = slice_stop k m.
Proof.
  intros Hrow.
  assert (Hi : (i < batch_size)%nat).
  { apply lookup_lt_Some in Hrow. unfold corruption_mask in Hrow.
    by rewrite length_shuffle_along_axis, length_fmap, length_replicate in Hrow. }
  rewrite corruption_mask_row_any in Hrow by assumption. injection Hrow as <-.
  pose proof (CorruptionProperties.argsort_Permutation (rand i <$> seq 0 m)) as Hperm.
  rewrite length_fmap, length_seq in Hperm.
  split.
  - by rewrite length_fmap, (Permutation_length Hperm), length_seq.
  - rewrite (CorruptionProperties.count_set_Permutation _ (leading_ones (slice_stop k m) m)).
    + apply CorruptionProperties.count_set_leading_ones, slice_stop_le.
    + unfold leading_ones. by rewrite Hperm.
Qed.

(** X14. The corruption rate is not checked.  For a finite rate whose
    product with the number of features stays below 2^52 in size, line 138
    returns a number [k], and the mask has [batch_size] rows of
    [num_features] entries, each row with exactly as many entries set as the
    slice [:k] selects.  A rate of 1 or more gives [k] at least
    [num_features] and sets every entry, so every feature of every row is
    corrupted; a negative rate whose product with the number of features is
    -1 or less makes [k] negative and the slice count from the end: all but
    the last [-k] features are set. *)
Theorem corruption_rate_is_not_checked
    (rate : Float.t) (rand : rand_oracle) (batch_size num_features : nat) :
  Float.is_finite rate = true →
  Z.of_nat num_features < 2 ^ 52 →
  (- (2 ^ 52) < Float.value rate * inject_Z (Z.of_nat num_features))%Q →
  (Float.value rate * inject_Z (Z.of_nat num_features) < 2 ^ 52)%Q →
  ∃ k,
    num_corrupted_features rate num_features = Return k
    ∧ let mask := corruption_mask rand k batch_size num_features in
      length mask = batch_size
      ∧ (∀ i row, mask !! i = Some row →
           length row = num_features ∧ count_set row = slice_stop k num_features)
      ∧ ((1 <= Float.value rate)%Q →
         Z.of_nat num_features ≤ k ∧ slice_stop k num_features = num_features)
      ∧ ((Float.value rate * inject_Z (Z.of_nat num_features) <= -1)%Q →
         k < 0 ∧ slice_stop k num_features = Z.to_nat (Z.of_nat num_features + k)).
Proof.
  intros Hfin Hn Hlo Hhi.
  destruct (FloatProperties.num_corrupted_features_spec rate num_features Hfin Hn Hlo Hhi)
    as (k & Hk & Hb).
  exists k. split; [exact Hk |]. intros mask. split; [| split; [| split]].
  - subst mask. unfold corruption_mask.
    by rewrite length_shuffle_along_axis, length_fmap, length_replicate.
  - intros i row. apply corruption_mask_count.
  - intros H1.
    assert (Hge : Z.of_nat num_features ≤ k).
    { apply Hb. rewrite <- (Qmult_1_l (inject_Z (Z.of_nat num_features))) at 1.
      apply Qmult_le_compat_r; [exact H1 |].
      change 0%Q with (inject_Z 0). rewrite <- Zle_Qle. lia. }
    split; [exact Hge |]. unfold slice_stop. destruct (Z.ltb_spec k 0); lia.
  - intros Hneg.
    assert (Hlt : k ≤ -1) by (by apply Hb).
    split; [lia |]. unfold slice_stop. destruct (Z.ltb_spec k 0); lia.
Qed.

Lemma mapM_returns {A B} (f : A → result B) (g : A → B) (l : list A) :
  (∀ x, x ∈ l → f x = Return (g x)) →
  mapM f l = Return (g <$> l).
Proof.
  induction l as [| x l IH]; intros Hf; [reflexivity |].
  cbn [mapM fmap list_fmap]. rewrite Hf by constructor.
  cbn. rewrite IH by (intros y Hy; apply Hf; by constructor). reflexivity.
Qed.

Section Corrupt.
Context {V : Type}.
Variable sample_augmentations : string → nat → list V.

Lemma broadcast_to_same {A} (n : nat) (l : list A) :
  length l = n → broadcast_to n l = Some l.
Proof. intros <-. unfold broadcast_to. by rewrite Nat.eqb_refl. Qed.

Lemma np_where_same_length (cond : list Z) (x y : list V) (n : nat) :
  length cond = n → length x = n → length y = n →
  np_where cond x y
  = Return (zip_with (λ c xy, if c =? 0 then snd xy else fst xy) cond (zip x y)).
Proof.
  intros Hc Hx Hy. unfold np_where. rewrite Hc, Hx, Hy, !Nat.max_id.
  by rewrite !broadcast_to_same by assumption.
Qed.

Lemma corrupt_returns (rand : rand_oracle) (k : Z) (inputs : list (string * list V)) (b : nat) :
  inputs ≠ [] →
  Forall (λ kv, length kv.2 = b ∧ length (sample_augmentations kv.1 b) = b) inputs →
  let m := length inputs in
  let mask := corruption_mask rand k b m in
  _corrupt sample_augmentations rand k inputs
  = Return (corrupted_feature mask
              <$> zip (zip (seq 0 m) inputs)
                      ((λ kv, sample_augmentations kv.1 b) <$> inputs)).
Proof.
  intros Hne Hall m mask. unfold _corrupt.
  destruct (last inputs) as [[name_l values_l] |] eqn:Hlast.
  2: { apply last_None in Hlast. contradiction. }
  assert (Hb : length values_l = b).
  { apply last_Some_elem_of in Hlast. rewrite Forall_forall in Hall.
    by destruct (Hall _ Hlast). }
  rewrite Hb. fold m mask.
  assert (Haug : (λ kv : string * list V, sample_augmentations kv.1 (length kv.2)) <$> inputs
                 = (λ kv, sample_augmentations kv.1 b) <$> inputs).
  { apply Forall_fmap_ext. eapply Forall_impl; [exact Hall |].
    intros kv [-> _]. reflexivity. }
  rewrite Haug.
  apply mapM_returns. intros [[j [name values]] aug] Hin.
  apply elem_of_zip_with in Hin as ([j' [name' values']] & aug' & Heq & Hin1 & Hin2).
  injection Heq as -> -> -> ->.
  apply elem_of_zip_r in Hin1.
  apply list_elem_of_fmap in Hin2 as (kv' & -> & Hkv').
  rewrite Forall_forall in Hall.
  destruct (Hall _ Hin1) as [Hv _]. destruct (Hall _ Hkv') as [_ Ha]. cbn in Hv.
  cbn [corrupted_feature].
  rewrite (np_where_same_length _ _ _ b); [reflexivity | | assumption | assumption].
  rewrite length_fmap. subst mask. unfold corruption_mask.
  by rewrite length_shuffle_along_axis, length_fmap, length_replicate.
Qed.


Lemma corrupted_lookup (mask : list (list Z)) (aug : string * list V → list V)
    (inputs : list (string * list V)) (j : nat) :
  (corrupted_feature mask <$> zip (zip (seq 0 (length inputs)) inputs) (aug <$> inputs)) !! j
  = (λ kv, corrupted_feature mask (j, kv, aug kv)) <$> inputs !! j.
Proof.
  rewrite list_lookup_fmap, !lookup_zip_with, list_lookup_fmap.
  destruct (inputs !! j) as [kv |] eqn:Hj.
  - rewrite lookup_seq_lt by (by eapply lookup_lt_Some). reflexivity.
  - rewrite (lookup_ge_None_2 (seq 0 (length inputs)))
      by (rewrite length_seq; by apply lookup_ge_None_1).
    reflexivity.
Qed.

Lemma length_corruption_mask (rand : rand_oracle) (k : Z) (b m : nat) :
  length (corruption_mask rand k b m) = b.
Proof.
  unfold corruption_mask.
  by rewrite length_shuffle_along_axis, length_fmap, length_replicate.
Qed.

(** X15. What [_corrupt] returns, for features that hold [b] values each
    and augmentations of [b] values: the same features under the same names
    in the same order, each again with [b] values; the value of feature [j]
    in row [i] is the augmentation where the mask is set at [(i, j)] and
    the input value where it is not; and every row of the mask has the same
    number of features set. *)
Theorem corrupt_replaces_the_masked_features
    (rand : rand_oracle) (k : Z) (inputs : list (string * list V)) (b : nat) :
  inputs ≠ [] →
  Forall (λ kv, length kv.2 = b ∧ length (sample_augmentations kv.1 b) = b) inputs →
  let m := length inputs in
  let mask := corruption_mask rand k b m in
  ∃ out,
    _corrupt sample_augmentations rand k inputs = Return out
    ∧ out.*1 = inputs.*1
    ∧ (∀ j name values, inputs !! j = Some (name, values) →
         ∃ values',
           out !! j = Some (name, values')
           ∧ length values' = b
           ∧ ∀ i row v aug,
               mask !! i = Some row → values !! i = Some v →
               sample_augmentations name b !! i = Some aug →
               values' !! i = Some (if nth j row 0 =? 0 then v else aug))
    ∧ (∀ i row, mask !! i = Some row → length row = m ∧ count_set row = slice_stop k m).
Proof.
  intros Hne Hall m mask.
  exists (corrupted_feature mask
            <$> zip (zip (seq 0 (length inputs)) inputs)
                    ((λ kv, sample_augmentations kv.1 b) <$> inputs)).
  split; [by apply (corrupt_returns rand k inputs b) |].
  split; [| split].
  - apply list_eq. intros j.
    rewrite (list_lookup_fmap fst (corrupted_feature _ <$> _) j), corrupted_lookup,
      list_lookup_fmap.
    destruct (inputs !! j) as [[name values] |]; reflexivity.
  - intros j name values Hj. rewrite corrupted_lookup, Hj. cbn [fmap option_fmap option_map corrupted_feature].
    rewrite Forall_forall in Hall.
    destruct (Hall _ (list_elem_of_lookup_2 _ _ _ Hj)) as [Hv Ha]. cbn in Hv, Ha.
    eexists. split; [reflexivity |]. split.
    + cbn [fst snd]. rewrite !length_zip_with, length_fmap, Hv, Ha.
      subst mask. rewrite length_corruption_mask. lia.
    + intros i row v aug Hrow Hvi Hai.
      cbn [fst snd]. rewrite !lookup_zip_with, list_lookup_fmap, Hrow, Hai, Hvi. reflexivity.
  - intros i row. apply corruption_mask_count.
Qed.

Lemma corruption_mask_zero (rand : rand_oracle) (k : Z) (b m j : nat) :
  slice_stop k m = 0%nat →
  (λ row, nth j row 0) <$> corruption_mask rand k b m = replicate b 0.
Proof.
  intros Hk. apply list_eq. intros i. rewrite list_lookup_fmap.
  destruct (decide (i < b)%nat) as [Hi | Hi].
  - rewrite corruption_mask_row_any, Hk by assumption. cbn.
    rewrite lookup_replicate_2 by assumption. f_equal.
    rewrite nth_lookup, list_lookup_fmap.
    by destruct (argsort (rand i <$> seq 0 m) !! j).
  - rewrite (lookup_ge_None_2 (corruption_mask rand k b m))
      by (rewrite length_corruption_mask; lia).
    symmetry. apply lookup_replicate_None. lia.
Qed.

Lemma where_nothing_set (x y : list V) (b : nat) :
  length x = b → length y = b →
  zip_with (λ (c : Z) xy, if c =? 0 then snd xy else fst xy) (replicate b 0) (zip x y) = y.
Proof.
  revert x y. induction b as [| b IH]; intros [| a x] [| v y] Hx Hy; try discriminate;
    [reflexivity |].
  cbn. f_equal. apply IH; [by injection Hx | by injection Hy].
Qed.

Lemma corrupt_nothing (rand : rand_oracle) (k : Z) (inputs : list (string * list V)) (b : nat) :
  inputs ≠ [] →
  Forall (λ kv, length kv.2 = b ∧ length (sample_augmentations kv.1 b) = b) inputs →
  slice_stop k (length inputs) = 0%nat →
  _corrupt sample_augmentations rand k inputs = Return inputs.
Proof.
  intros Hne Hall Hk. rewrite (corrupt_returns rand k inputs b) by assumption.
  f_equal. apply list_eq. intros j. rewrite corrupted_lookup.
  destruct (inputs !! j) as [[name values] |] eqn:Hj; [| reflexivity].
  cbn [fmap option_fmap option_map corrupted_feature].
  rewrite Forall_forall in Hall.
  destruct (Hall _ (list_elem_of_lookup_2 _ _ _ Hj)) as [Hv Ha]. cbn in Hv, Ha.
  rewrite corruption_mask_zero by assumption.
  by rewrite where_nothing_set.
Qed.

(** X16. When the exact product of the corruption rate (a finite double,
    not negative) and the number of features is at most [1 - 2^(-52)], the
    double product is below 1, the number of corrupted features is 0, and
    [_corrupt] returns its input unchanged: the corrupted view is the anchor
    view.  With the default rate of 0.6 this is the case for a model with a
    single input feature. *)
Theorem corrupt_changes_nothing_below_one_feature
    (rand : rand_oracle) (rate : Float.t) (inputs : list (string * list V)) (b : nat) :
  inputs ≠ [] →
  Forall (λ kv, length kv.2 = b ∧ length (sample_augmentations kv.1 b) = b) inputs →
  Float.is_finite rate = true →
  (0 <= Float.value rate)%Q →
  Z.of_nat (length inputs) < 2 ^ 52 →
  (Float.value rate * inject_Z (Z.of_nat (length inputs)) <= 1 - 2 ^ (-52))%Q →
  num_corrupted_features rate (length inputs) = Return 0
  ∧ _corrupt sample_augmentations rand 0 inputs = Return inputs.
Proof.
  intros Hne Hall Hfin H0 Hn H1.
  split; [by apply FloatProperties.num_corrupted_features_zero |].
  apply (corrupt_nothing rand 0 inputs b); try assumption.
  unfold slice_stop. cbn. lia.
Qed.

End Corrupt.

Lemma shuffle_along_axis_witness :
  let a := [[1; 2; 3]; [4; 5; 6]] in
  Forall (λ row, length row = 3%nat) a
  ∧ length (shuffle_along_axis Fixture.rand a) = length a
  ∧ ∃ σ shuffled,
      σ = argsort (Fixture.rand 1%nat <$> seq 0 3)
      ∧ σ ≡ₚ seq 0 3
      ∧ shuffle_along_axis Fixture.rand a !! 1%nat = Some shuffled
      ∧ shuffled = (λ j, nth j [4; 5; 6] 0) <$> σ
      ∧ shuffled ≡ₚ [4; 5; 6].
Proof.
  intros a.
  assert (Hrect : Forall (λ row, length row = 3%nat) a) by (repeat constructor).
  split; [exact Hrect |].
  destruct (shuffle_along_axis_permutes_every_row Fixture.rand a 3 Hrect) as [Hlen Hrows].
  split; [exact Hlen |].
  exact (Hrows 1%nat [4; 5; 6] eq_refl).
Defined.

Lemma corrupt_witness :
  let inputs := [("a"%string, [1; 2]); ("b"%string, [3; 4])] in
  inputs ≠ []
  ∧ Forall (λ kv, length kv.2 = 2%nat
                  ∧ length (Fixture.sample_augmentations kv.1 2) = 2%nat) inputs
  ∧ ∃ out,
      _corrupt Fixture.sample_augmentations Fixture.rand 1 inputs = Return out
      ∧ out.*1 = inputs.*1.
Proof.
  intros inputs.
  assert (Hne : inputs ≠ []) by discriminate.
  assert (Hall : Forall (λ kv, length kv.2 = 2%nat
                               ∧ length (Fixture.sample_augmentations kv.1 2) = 2%nat) inputs)
    by (repeat constructor).
  split; [exact Hne |]. split; [exact Hall |].
  destruct (corrupt_replaces_the_masked_features
              Fixture.sample_augmentations Fixture.rand 1 inputs 2 Hne Hall)
    as (out & Hout & Hnames & _).
  exists out. split; [exact Hout | exact Hnames].
Defined.

Lemma corrupt_nothing_witness :
  let inputs := [("a"%string, [1; 2])] in
  inputs ≠ []
  ∧ Forall (λ kv, length kv.2 = 2%nat
                  ∧ length (Fixture.sample_augmentations kv.1 2) = 2%nat) inputs
  ∧ Float.is_finite Fixture.rate_0_6 = true
  ∧ (0 <= Float.value Fixture.rate_0_6)%Q
  ∧ (Float.value Fixture.rate_0_6 * inject_Z (Z.of_nat (length inputs)) <= 1 - 2 ^ (-52))%Q
  ∧ num_corrupted_features Fixture.rate_0_6 (length inputs) = Return 0
  ∧ _corrupt Fixture.sample_augmentations Fixture.rand 0 inputs = Return inputs.
Proof.
  intros inputs.
  assert (Hne : inputs ≠ []) by discriminate.
  assert (Hall : Forall (λ kv, length kv.2 = 2%nat
                               ∧ length (Fixture.sample_augmentations kv.1 2) = 2%nat) inputs)
    by (repeat constructor).
  assert (Hfin : Float.is_finite Fixture.rate_0_6 = true) by reflexivity.
  assert (H0 : (0 <= Float.value Fixture.rate_0_6)%Q) by (by vm_compute).
  assert (Hn : Z.of_nat (length inputs) < 2 ^ 52) by (by vm_compute).
  assert (H1 : (Float.value Fixture.rate_0_6 * inject_Z (Z.of_nat (length inputs))
                <= 1 - 2 ^ (-52))%Q) by (by vm_compute).
  split; [exact Hne |]. split; [exact Hall |]. split; [exact Hfin |].
  split; [exact H0 |]. split; [exact H1 |].
  exact (corrupt_changes_nothing_below_one_feature
           Fixture.sample_augmentations Fixture.rand Fixture.rate_0_6 inputs 2
           Hne Hall Hfin H0 Hn H1).
Defined.

Lemma corruption_rate_witness :
  Float.is_finite Fixture.rate_minus_half = true
  ∧ (Float.value Fixture.rate_minus_half * inject_Z (Z.of_nat 5) <= -1)%Q
  ∧ num_corrupted_features Fixture.rate_minus_half 5 = Return (-3)
  ∧ slice_stop (-3) 5 = 2%nat
  ∧ ∀ i row, corruption_mask Fixture.rand (-3) 2 5 !! i = Some row →
      length row = 5%nat ∧ count_set row = 2%nat.
Proof.
  assert (Hfin : Float.is_finite Fixture.rate_minus_half = true) by reflexivity.
  assert (Hn : Z.of_nat 5 < 2 ^ 52) by (by vm_compute).
  assert (Hlo : (- (2 ^ 52) < Float.value Fixture.rate_minus_half * inject_Z (Z.of_nat 5))%Q)
    by (by vm_compute).
  assert (Hhi : (Float.value Fixture.rate_minus_half * inject_Z (Z.of_nat 5) < 2 ^ 52)%Q)
    by (by vm_compute).
  assert (Hneg : (Float.value Fixture.rate_minus_half * inject_Z (Z.of_nat 5) <= -1)%Q)
    by (by vm_compute).
  split; [exact Hfin |]. split; [exact Hneg |].
  destruct (corruption_rate_is_not_checked Fixture.rate_minus_half Fixture.rand 2 5
              Hfin Hn Hlo Hhi) as (k & Hk & _ & Hrows & _ & Hslice).
  assert (Hk3 : k = -3).
  { assert (Hc : num_corrupted_features Fixture.rate_minus_half 5 = Return (-3))
      by (by vm_compute).
    rewrite Hk in Hc. by injection Hc. }
  subst k. split; [exact Hk |]. split; [reflexivity |].
  intros i row Hrow. destruct (Hrows i row Hrow) as [Hl Hc]. split; [exact Hl | exact Hc].
Defined.

Section TotalSize.
Context {T E : Type}.
Variable cosine_similarity : E → E → T.
Variable div : T → T → T.
Variable div_int : T → Z → T.
Variable zero : T.
Variable add : T → T → T.
Variable cross_entropy : list T → nat → T.

#[local] Abbreviation forward :=
  (forward cosine_similarity div div_int zero add cross_entropy).

(** The two batches are only used concatenated. *)
Lemma forward_concat (self : SimCLR_Loss) (z_i z_j : list E) :
  forward self z_i z_j = forward self (z_i ++ z_j) [].
Proof. unfold Pretrainer.forward. by rewrite app_nil_r. Qed.

(** X17. [SimCLR_Loss.forward] checks the sizes of its two batches only
    through their sum.  It returns exactly when [batch_size] is positive and
    the two batches hold [2 * batch_size] embeddings together, however they
    are split between the two; the loss is that of the concatenation, row
    [i] paired with row [i + batch_size].  Any other total raises the
    [RuntimeError] of the [reshape] of the positives; with a [batch_size] of
    0 and no embeddings the [reshape] of the negatives cannot infer its
    second extent. *)
Theorem forward_checks_only_the_total (B : nat) (temp : T) (z_i z_j : list E) (d : E) :
  let N := (2 * B)%nat in
  let z := z_i ++ z_j in
  let sim i j := div (cosine_similarity (nth i z d) (nth j z d)) temp in
  let logits i :=
    sim i (twin B i) :: (sim i <$> filter (λ j, mask_bit B i j = true) (seq 0 N)) in
  (is_return (forward (__init__ B temp) z_i z_j) = true ↔ (0 < B)%nat ∧ length z = N)
  ∧ forward (__init__ B temp) z_i z_j = forward (__init__ B temp) (take B z) (drop B z)
  ∧ ((0 < B)%nat → length z = N →
     forward (__init__ B temp) z_i z_j
     = Return (div_int (foldr add zero ((λ i, cross_entropy (logits i) 0%nat) <$> seq 0 N))
                       (Z.of_nat N)))
  ∧ (length z ≠ N →
     forward (__init__ B temp) z_i z_j = Raise (RuntimeError ShapeInvalidForInput))
  ∧ (B = 0%nat → length z = 0%nat →
     forward (__init__ B temp) z_i z_j = Raise (RuntimeError UnspecifiedDimensionAmbiguous)).
Proof.
  intros N z sim logits.
  assert (Hval : (0 < B)%nat → length z = N →
     forward (__init__ B temp) z_i z_j
     = Return (div_int (foldr add zero ((λ i, cross_entropy (logits i) 0%nat) <$> seq 0 N))
                       (Z.of_nat N))).
  { intros HB Hlen. destruct B as [| b]; [lia |].
    rewrite forward_concat. fold z.
    pose proof (LossProperties.forward_value cosine_similarity div div_int zero add
                  cross_entropy b temp (λ i, nth i z d)) as Hv.
    cbv zeta in Hv. rewrite forward_concat, <- fmap_app in Hv.
    change (seq (S b) (S b)) with (seq (0 + S b) (S b)) in Hv. rewrite <- seq_app in Hv.
    replace (S b + S b)%nat with (length z) in Hv by (subst N; lia).
    rewrite <- (LossProperties.list_as_fmap_seq z d) in Hv.
    exact Hv. }
  assert (Hbad : length z ≠ N →
     forward (__init__ B temp) z_i z_j = Raise (RuntimeError ShapeInvalidForInput)).
  { intros Hne. apply LossProperties.forward_size_mismatch.
    subst z N. rewrite length_app in Hne. lia. }
  assert (Hzero : B = 0%nat → length z = 0%nat →
     forward (__init__ B temp) z_i z_j = Raise (RuntimeError UnspecifiedDimensionAmbiguous)).
  { intros -> Hz. rewrite forward_concat. fold z.
    destruct z; [reflexivity | discriminate]. }
  split; [| split; [| split; [| split]]]; try assumption.
  - split.
    + intros Hret.
      destruct (decide (length z = N)) as [Hlen | Hne].
      * split; [| exact Hlen]. destruct B as [| b]; [| lia].
        rewrite Hzero in Hret by (subst N; lia || reflexivity). discriminate.
      * rewrite Hbad in Hret by assumption. discriminate.
    + intros [HB Hlen]. by rewrite Hval.
  - rewrite forward_concat, (forward_concat _ (take B z)). by rewrite take_drop.
Qed.

End TotalSize.

Lemma forward_total_witness :
  (0 < 2)%nat
  ∧ length ([0; 1; 2] ++ [3])%nat = (2 * 2)%nat
  ∧ is_return (Fixture.forward 2 [0; 1; 2]%nat [3]%nat) = true
  ∧ Fixture.forward 2 [0; 1; 2]%nat [3]%nat = Fixture.forward 2 [0; 1]%nat [2; 3]%nat.
Proof.
  assert (HB : (0 < 2)%nat) by (repeat constructor).
  split; [exact HB |]. split; [reflexivity |].
  destruct (forward_checks_only_the_total
              Fixture.Cos Fixture.Div Fixture.DivInt Fixture.Zero Fixture.Add
              Fixture.CrossEntropy 2 Fixture.Temperature [0; 1; 2]%nat [3]%nat 0%nat)
    as ([_ Hret] & Hsplit & _).
  split; [exact (Hret (conj HB eq_refl)) | exact Hsplit].
Defined.

End ScarfProperties.

(* ===================================================================== *)
(** ** Properties of the output feature *)
(* ===================================================================== *)

Module OutputFeatureProperties.
Import Vector2D.

Section OutputFeature.
Context {V : Type}.



End OutputFeature.


End OutputFeatureProperties.
